(** * The tree checkbox prompt of npm-update-interactive

    A shallow embedding of the nested multi-select prompt (the file that
    [src/index.ts] imports as [./select]): the item tree, the derived
    reads ([isSelectable], [allChecked], [anyChecked], [getChecked],
    [calcPrior]), the selectable bounds computed at start-up, and the
    key handler registered with [useKeypress].

    JavaScript numbers used as array indices are integers and are kept
    in [Z]; an array read outside its range is [undefined], written
    [None]; optional object fields are [option]s and the tests the
    source makes on them are JavaScript truthiness tests. *)

From Stdlib Require Import List ZArith String Bool Lia.
From Equations Require Import Equations.
Import ListNotations.

Local Open Scope string_scope.
Local Open Scope list_scope.
Local Open Scope Z_scope.

Set Implicit Arguments.

(** ** Data model *)

(** [disabled?: boolean | string]. *)
Inductive Disabled : Type :=
| DisabledUnset
| DisabledFlag (b : bool)
| DisabledReason (reason : string).

(** Handle of a [help?: () => Promise<void>] callback. *)
Definition HelpAction : Type := nat.

(** [type Choice<Value>]. *)
Record Choice (Value : Type) : Type := mkChoice {
  name : option string;
  value : Value;
  short : option string;
  disabled : Disabled;
  checked : option bool;
  help : option HelpAction
}.

(** The fields of [type Group<Value>] other than [choices]. *)
Record GroupHead : Type := mkGroupHead {
  gname : option string;
  gshort : option string;
  gdisabled : Disabled;
  expanded : option bool;
  ghelp : option HelpAction
}.

(** [type Item<Value> = Separator | Choice<Value> | Group<Value>].  The
    declared type of [Group.choices] is [Array<Choice<Value>>]; every
    function of the source nevertheless tests [isGroup] on the children
    and recurses, and so does the model. *)
#[warnings="-register-all"]
Inductive Item (Value : Type) : Type :=
| ISeparator (separator : string)
| IChoice (c : Choice Value)
| IGroup (g : GroupHead) (choices : list (Item Value)).

Arguments ISeparator {Value} separator.
Arguments IChoice {Value} c.
Arguments IGroup {Value} g choices.

(** Induction over the tree with the hypothesis available for every
    child of a group. *)
Section ItemInduction.
Variable Value : Type.
Variable P : Item Value -> Prop.
Hypothesis HSep : forall s, P (ISeparator s).
Hypothesis HChoice : forall c, P (IChoice c).
Hypothesis HGroup : forall g cs, Forall P cs -> P (IGroup g cs).

Fixpoint Item_tree_ind (item : Item Value) : P item :=
  match item with
  | ISeparator s => HSep s
  | IChoice c => HChoice c
  | IGroup g cs =>
      HGroup g
        ((fix children (l : list (Item Value)) : Forall P l :=
            match l with
            | [] => Forall_nil P
            | x :: t => Forall_cons x (Item_tree_ind x) (children t)
            end) cs)
  end.
End ItemInduction.

(** ** JavaScript primitives *)

(** Truthiness of an optional boolean field ([undefined] is falsy). *)
Definition truthy (b : option bool) : bool :=
  match b with Some true => true | _ => false end.

(** Truthiness of [disabled]: the empty string is falsy. *)
Definition truthyDisabled (d : Disabled) : bool :=
  match d with
  | DisabledUnset => false
  | DisabledFlag b => b
  | DisabledReason reason => negb (String.eqb reason "")
  end.

(** [arr[i]]: [None] is [undefined]. *)
Definition index {A : Type} (arr : list A) (i : Z) : option A :=
  if i <? 0 then None else nth_error arr (Z.to_nat i).

(** [arr.length]. *)
Definition len {A : Type} (arr : list A) : Z := Z.of_nat (List.length arr).

(** [arr.map((x, i) => f(x, i))], the indices starting from [start]. *)
Definition mapi {A B : Type} (f : A -> Z -> B) : Z -> list A -> list B :=
  fix go (start : Z) (arr : list A) : list B :=
    match arr with
    | [] => []
    | x :: rest => f x start :: go (start + 1) rest
    end.

(** [arr.findIndex(p)], [-1] when no element satisfies [p]. *)
Fixpoint findIndexFrom {A : Type} (p : A -> bool) (start : Z) (arr : list A) : Z :=
  match arr with
  | [] => -1
  | x :: rest => if p x then start else findIndexFrom p (start + 1) rest
  end.

Definition findIndex {A : Type} (p : A -> bool) (arr : list A) : Z :=
  findIndexFrom p 0 arr.

(** [arr.findLastIndex(p)]: the scan runs from the last index down. *)
Fixpoint findLastIndexFrom {A : Type} (p : A -> bool) (start : Z) (arr : list A) : Z :=
  match arr with
  | [] => -1
  | x :: rest =>
      let later := findLastIndexFrom p (start + 1) rest in
      if 0 <=? later then later else if p x then start else -1
  end.

Definition findLastIndex {A : Type} (p : A -> bool) (arr : list A) : Z :=
  findLastIndexFrom p 0 arr.

(** [arr.slice(0, -1)]. *)
Definition dropLast {A : Type} (arr : list A) : list A := removelast arr.

(** ** Exceptions

    What a JavaScript [throw] (or a rejected promise) carries. *)
Inductive Exn : Type :=
| TypeError                      (* a property read on [undefined] *)
| AssertionError                 (* [assert(...)] of node:assert *)
| ValidationError (msg : string) (* [new ValidationError(msg)] *)
| Rejected (reason : string).    (* a rejected [validate] promise *)

Inductive Result (A : Type) : Type :=
| Ok (a : A)
| Throw (e : Exn).

Arguments Ok {A} a.
Arguments Throw {A} e.

Definition rbind {A B : Type} (r : Result A) (k : A -> Result B) : Result B :=
  match r with
  | Ok a => k a
  | Throw e => Throw e
  end.

Declare Scope result_scope.
Delimit Scope result_scope with result.
Notation "x <- r ;; k" := (rbind r (fun x => k))
  (at level 61, r at next level, right associativity) : result_scope.

(** [arr.map(f)] where [f] may throw: the first exception ends the map. *)
Fixpoint sequence {A : Type} (rs : list (Result A)) : Result (list A) :=
  match rs with
  | [] => Ok []
  | r :: rest =>
      rbind r (fun a => rbind (sequence rest) (fun others => Ok (a :: others)))
  end.

(** ** Reads on the tree *)

Section Tree.
Variable Value : Type.
Local Abbreviation Item := (Item Value).
Local Abbreviation Choice := (Choice Value).

(** [isGroup(x)]: [x.choices !== undefined]. *)
Definition isGroup (x : Item) : bool :=
  match x with IGroup _ _ => true | _ => false end.

(** [Separator.isSeparator(item)]. *)
Definition isSeparator (item : Item) : bool :=
  match item with ISeparator _ => true | _ => false end.

(** [item.disabled] read on any non-separator item. *)
Definition itemDisabled (item : Item) : bool :=
  match item with
  | ISeparator _ => false
  | IChoice c => truthyDisabled (disabled c)
  | IGroup g _ => truthyDisabled (gdisabled g)
  end.

(** [isSelectable]: [!Separator.isSeparator(item) && !item.disabled]. *)
Definition isSelectable (item : Item) : bool :=
  negb (isSeparator item) && negb (itemDisabled item).

(** [item.checked] as a truth value; a group has no such field. *)
Definition itemChecked (item : Item) : bool :=
  match item with
  | IChoice c => truthy (checked c)
  | _ => false
  end.

(** [isChecked]: [isSelectable(item) && Boolean(item.checked)]. *)
Definition isChecked (item : Item) : bool :=
  isSelectable item && itemChecked item.

Fixpoint anyChecked (item : Item) : bool :=
  match item with
  | IGroup _ choices => existsb anyChecked choices
  | _ => isChecked item
  end.

Fixpoint allChecked (item : Item) : bool :=
  match item with
  | IGroup _ choices => forallb allChecked choices
  | _ => isChecked item
  end.

Fixpoint getChecked (item : Item) : list Choice :=
  match item with
  | ISeparator _ => []
  | IGroup _ choices => flat_map getChecked choices
  | IChoice c => if truthy (checked c) then [c] else []
  end.

(** [{ ...item, checked }]. *)
Definition withChecked (b : bool) (c : Choice) : Choice :=
  mkChoice (name c) (value c) (short c) (disabled c) (Some b) (help c).

(** [{ ...item, expanded }]. *)
Definition withExpanded (b : bool) (g : GroupHead) : GroupHead :=
  mkGroupHead (gname g) (gshort g) (gdisabled g) (Some b) (ghelp g).

(** [mapItemStatic(checked)]. *)
Fixpoint mapItemStatic (b : bool) (item : Item) : Item :=
  match item with
  | IGroup g choices => IGroup g (map (mapItemStatic b) choices)
  | IChoice c => if isSelectable item then IChoice (withChecked b c) else item
  | ISeparator _ => item
  end.

(** [toggle]. *)
Fixpoint toggle (item : Item) : Item :=
  match item with
  | ISeparator _ => item
  | IGroup g choices => IGroup g (map toggle choices)
  | IChoice c => IChoice (withChecked (negb (truthy (checked c))) c)
  end.

(** The function [check] of the ['a'] branch, [selectAll] being the
    variable it closes over. *)
Fixpoint check (selectAll : bool) (item : Item) : Item :=
  match item with
  | IGroup g choices => IGroup g (map (check selectAll) choices)
  | IChoice c => if isSelectable item then IChoice (withChecked selectAll c) else item
  | ISeparator _ => item
  end.

(** The checkbox drawn for a group by [renderItem]: the checked icon,
    the partial mark or the unchecked icon. *)
Inductive Aggregate : Type := AggAll | AggPartial | AggNone.

Definition aggregate (choices : list Item) : Aggregate :=
  if forallb allChecked choices then AggAll
  else if existsb anyChecked choices then AggPartial
  else AggNone.

(** Number of nodes, the measure of [calcPrior]. *)
Fixpoint size (item : Item) : nat :=
  match item with
  | IGroup _ choices => S (list_sum (map size choices))
  | _ => 1%nat
  end.

Definition osize (ptr : option Item) : nat :=
  match ptr with Some item => size item | None => 0%nat end.

Lemma size_nth_error (choices : list Item) (n : nat) (x : Item) :
  nth_error choices n = Some x -> (size x <= list_sum (map size choices))%nat.
Proof.
  revert n; induction choices as [|y rest IH]; intros [|n] H; simpl in *;
    try discriminate.
  - injection H as ->. lia.
  - apply IH in H. lia.
Qed.

Lemma osize_index (g : GroupHead) (choices : list Item) (i : Z) :
  (osize (index choices i) < size (IGroup g choices))%nat.
Proof.
  unfold index. destruct (i <? 0); simpl; [lia|].
  destruct (nth_error choices (Z.to_nat i)) eqn:E; simpl; [|lia].
  apply size_nth_error in E. lia.
Qed.

(** [calcPrior(ptr)]: the trailing path below [ptr].  [ptr] is
    [undefined] when the caller indexed outside an array, and then
    [isGroup(ptr)] reads a property of [undefined]. *)
Equations? calcPrior (ptr : option Item) : Result (list Z) by wf (osize ptr) lt :=
  calcPrior None := Throw TypeError;
  calcPrior (Some (IGroup g choices)) with truthy (expanded g) := {
    | true :=
        rbind (calcPrior (index choices (len choices - 1)))
              (fun rest => Ok ((len choices - 1) :: rest));
    | false := Ok [] };
  calcPrior (Some _) := Ok [].
Proof. apply (osize_index g). Qed.

End Tree.

(** ** The prompt session *)

(** [useState("pending")], later ["done"]. *)
Inductive Status : Type := Pending | Done.

(** What [validate] resolves to: [boolean | string]. *)
Inductive Validity : Type :=
| VBool (b : bool)
| VString (s : string).

(** [type Config<Value>], the fields the key handler reads.  A
    [validate] that throws or whose promise rejects is [Throw]. *)
Record Config (Value : Type) : Type := mkConfig {
  message : string;
  pageSize : Z;
  choices : list (Item Value);
  loop : bool;
  required : bool;
  validate : list (Choice Value) -> Result Validity
}.

(** The [useState] cells of one render. *)
Record Session (Value : Type) : Type := mkSession {
  status : Status;
  items : list (Item Value);
  showHelpTip : bool;
  errorMsg : option string;
  active : list Z
}.

(** [bounds], the value of the [useMemo]. *)
Record Bounds : Type := mkBounds { first : Z; last : Z }.

(** Calls that leave the prompt. *)
Inductive Effect (Value : Type) : Type :=
| CallValidate (selection : list (Choice Value))
| CallDone (values : list Value)
| CallHelp (h : HelpAction).

Arguments CallHelp {Value} h.

(** A key handler reads the cells of the render it was created in (its
    closure) and writes through the setters; the writes, the outside
    calls and a possible exception are what it leaves behind. *)
Record Run (Value A : Type) : Type := mkRun {
  result : Result A;
  next : Session Value;
  effects : list (Effect Value)
}.

Definition Handler (Value A : Type) : Type := Session Value -> Run Value A.

Section HandlerMonad.
Variable Value : Type.
Local Abbreviation Session := (Session Value).
Local Abbreviation Handler := (Handler Value).

Definition ret {A : Type} (a : A) : Handler A :=
  fun s => mkRun (Ok a) s [].

Definition bind {A B : Type} (h : Handler A) (k : A -> Handler B) : Handler B :=
  fun s =>
    let r := h s in
    match result r with
    | Ok a =>
        let r' := k a (next r) in
        mkRun (result r') (next r') (effects r ++ effects r')
    | Throw e => mkRun (Throw e) (next r) (effects r)
    end.

Definition lift {A : Type} (r : Result A) : Handler A :=
  fun s => mkRun r s [].

Definition emit (e : Effect Value) : Handler unit :=
  fun s => mkRun (Ok tt) s [e].

Definition setStatus (v : Status) : Handler unit :=
  fun s => mkRun (Ok tt)
    (mkSession v (items s) (showHelpTip s) (errorMsg s) (active s)) [].

Definition setItems (v : list (Item Value)) : Handler unit :=
  fun s => mkRun (Ok tt)
    (mkSession (status s) v (showHelpTip s) (errorMsg s) (active s)) [].

Definition setShowHelpTip (v : bool) : Handler unit :=
  fun s => mkRun (Ok tt)
    (mkSession (status s) (items s) v (errorMsg s) (active s)) [].

Definition setError (v : option string) : Handler unit :=
  fun s => mkRun (Ok tt)
    (mkSession (status s) (items s) (showHelpTip s) v (active s)) [].

Definition setActive (v : list Z) : Handler unit :=
  fun s => mkRun (Ok tt)
    (mkSession (status s) (items s) (showHelpTip s) (errorMsg s) v) [].
End HandlerMonad.

Declare Scope handler_scope.
Delimit Scope handler_scope with handler.
Notation "x <- h ;; k" := (bind h (fun x => k))
  (at level 61, h at next level, right associativity) : handler_scope.
Notation "h ;; k" := (bind h (fun _ => k))
  (at level 61, right associativity) : handler_scope.

(** ** Start-up: the first render *)

Section Startup.
Variable Value : Type.

(** The body of [useMemo(() => ..., [items])]. *)
Definition computeBounds (items : list (Item Value)) : Result Bounds :=
  let first := findIndex (@isSelectable Value) items in
  let last := findLastIndex (@isSelectable Value) items in
  if first <? 0
  then Throw (ValidationError
         "[checkbox prompt] No selectable choices. All choices are disabled.")
  else Ok (mkBounds first last).

(** The cells after the first render: [items] holds a shallow copy of
    every entry of [config.choices], [active] is [[bounds.first]]. *)
Definition start (config : Config Value) : Result (Session Value) :=
  let items := flat_map (fun choice => [choice]) (choices config) in
  rbind (computeBounds items) (fun bounds =>
    Ok (mkSession Pending items true None [first bounds])).
End Startup.

(** ** Focus transitions *)

Section Navigation.
Variable Value : Type.
Local Abbreviation Item := (Item Value).

(** [activeIndex === index], where [activeIndex] is [active[depth]]
    and may be [undefined]. *)
Definition sameIndex (activeIndex : option Z) (idx : Z) : bool :=
  match activeIndex with
  | Some a => a =? idx
  | None => false
  end.

(** The [reduce] of the Down branch: the items met along [active].
    [isGroup(choice)] throws when [choice] is [undefined]. *)
Fixpoint hierarchyFrom (choices acc : list Item) (active : list Z)
  : Result (list Item) :=
  match active with
  | [] => Ok acc
  | activeIndex :: rest =>
      match index choices activeIndex with
      | None => Throw TypeError
      | Some (IGroup g inner as choice) =>
          hierarchyFrom inner (acc ++ [choice]) rest
      | Some choice => hierarchyFrom [] (acc ++ [choice]) rest
      end
  end.

(** The value passed to [setActive] in the Down branch. *)
Definition down (items : list Item) (active : list Z) : Result (list Z) :=
  rbind (hierarchyFrom items [] active) (fun hierarchy =>
  let descends :=
    match index hierarchy (len hierarchy - 1) with
    | None => Throw TypeError
    | Some (IGroup g inner) =>
        Ok (truthy (expanded g) && negb (len inner =? 0))
    | Some _ => Ok false
    end in
  rbind descends (fun descend =>
  if descend then Ok (active ++ [0])
  else if len active =? 1 then Ok [hd 0 active + 1]
  else
    match index hierarchy (len hierarchy - 2) with
    | None => Throw TypeError
    | Some (IGroup g siblings) =>
        let nextChildIndex := List.last active 0 + 1 in
        if nextChildIndex <? len siblings
        then Ok (dropLast active ++ [nextChildIndex])
        else Ok (dropLast (dropLast active)
                   ++ [List.last (dropLast active) 0 + 1])
    | Some _ => Throw AssertionError
    end)).

(** The [for] loop of the Up branch: [ptr = ptr.choices[n[i]]]. *)
Fixpoint follow (ptr : option Item) (path : list Z) : Result (option Item) :=
  match path with
  | [] => Ok ptr
  | i :: rest =>
      match ptr with
      | Some (IGroup _ inner) => follow (index inner i) rest
      | _ => Throw TypeError
      end
  end.

(** The value passed to [setActive] in the Up branch.  With an empty
    [active] the source computes [n = [NaN]] and [calcPrior(undefined)]
    throws. *)
Definition up (bounds : Bounds) (items : list Item) (active : list Z)
  : Result (list Z) :=
  if (len active =? 1) && (hd 0 active =? 0) then Ok [last bounds]
  else
    match active with
    | [] => Throw TypeError
    | _ :: _ =>
        if List.last active 0 =? 0 then Ok (dropLast active)
        else
          let n := dropLast active ++ [List.last active 0 - 1] in
          rbind (follow (index items (hd 0 n)) (tl n)) (fun ptr =>
          rbind (calcPrior ptr) (fun prior => Ok (n ++ prior)))
    end.

(** [mapItem(depth)] of the Right branch. *)
Fixpoint expandItem (active : list Z) (depth : Z) (item : Item) (idx : Z)
  {struct item} : Item :=
  match item with
  | IGroup g inner =>
      if negb (sameIndex (index active depth) idx) then item
      else IGroup (withExpanded true g)
             (mapi (expandItem active (depth + 1)) 0 inner)
  | _ => item
  end.

(** [mapItem(depth, isParentSelected)] of the Left branch. *)
Fixpoint collapseItem (active : list Z) (depth : Z) (isParentSelected : bool)
  (item : Item) (idx : Z) {struct item} : Item :=
  let currentInSelectionTree :=
    isParentSelected || sameIndex (index active depth) idx in
  match item with
  | IGroup g inner =>
      if currentInSelectionTree
      then IGroup (withExpanded false g)
             (mapi (collapseItem active (depth + 1) currentInSelectionTree)
                   0 inner)
      else item
  | _ => item
  end.

(** [mapItem(depth)] of the Space branch. *)
Fixpoint spaceItem (active : list Z) (depth : Z) (item : Item) (idx : Z)
  {struct item} : Result Item :=
  let finalIteration := depth =? len active - 1 in
  if sameIndex (index active depth) idx then
    if finalIteration then
      match item with
      | IGroup g inner =>
          let checked := negb (allChecked item) in
          Ok (IGroup g (map (mapItemStatic checked) inner))
      | IChoice c =>
          if isSelectable item
          then Ok (IChoice (withChecked (negb (truthy (checked c))) c))
          else Ok item
      | ISeparator _ => Ok item
      end
    else
      match item with
      | IGroup g inner =>
          rbind (sequence (mapi (spaceItem active (depth + 1)) 0 inner))
                (fun inner' => Ok (IGroup g inner'))
      | _ => Throw AssertionError
      end
  else Ok item.

(** The arguments of [setItems] in the five mutating branches. *)
Definition expand (items : list Item) (active : list Z) : list Item :=
  mapi (expandItem active 0) 0 items.

Definition collapse (items : list Item) (active : list Z) : list Item :=
  mapi (collapseItem active 0 false) 0 items.

Definition space (items : list Item) (active : list Z) : Result (list Item) :=
  sequence (mapi (spaceItem active 0) 0 items).

Definition selectAll (items : list Item) : list Item :=
  let selectAll := negb (forallb (@allChecked Value) items) in
  map (check selectAll) items.

Definition invert (items : list Item) : list Item :=
  map (@toggle Value) items.

(** The [reduce] of the [?] branch. *)
Fixpoint focused (acc : option Item) (path : list Z) : Result (option Item) :=
  match path with
  | [] => Ok acc
  | cur :: rest =>
      match acc with
      | None => Throw TypeError
      | Some (IGroup _ inner) => focused (index inner cur) rest
      | Some _ => Throw AssertionError
      end
  end.
End Navigation.

(** ** The key handler *)

(** [KeypressEvent], with the [sequence] field the [?] branch reads. *)
Record KeypressEvent : Type := mkKey {
  keyName : string;
  ctrl : bool;
  keySequence : string
}.

(** The key tests imported from [@inquirer/core]. *)
Record KeyTests : Type := mkKeyTests {
  isEnterKey : KeypressEvent -> bool;
  isDownKey : KeypressEvent -> bool;
  isUpKey : KeypressEvent -> bool;
  isSpaceKey : KeypressEvent -> bool;
  isNumberKey : KeypressEvent -> bool
}.

Definition isLeftKey (key : KeypressEvent) : bool :=
  String.eqb (keyName key) "left" || String.eqb (keyName key) "h"
  || (ctrl key && String.eqb (keyName key) "b").

Definition isRightKey (key : KeypressEvent) : bool :=
  String.eqb (keyName key) "right" || String.eqb (keyName key) "l"
  || (ctrl key && String.eqb (keyName key) "f").

Section KeyHandler.
Variable Value : Type.
Variable tests : KeyTests.
Variable config : Config Value.
Variable bounds : Bounds.

(** The cells the handler closes over. *)
Variable render : Session Value.

Local Open Scope handler_scope.

(** [isValid === true]. *)
Definition isTrue (isValid : Validity) : bool :=
  match isValid with VBool true => true | _ => false end.

(** [isValid || "You must select a valid value"]. *)
Definition orMessage (isValid : Validity) (fallback : string) : string :=
  match isValid with
  | VString s => if String.eqb s "" then fallback else s
  | VBool _ => fallback
  end.

(** [await validate([...selection])]. *)
Definition awaitValidate (selection : list (Choice Value)) : Handler Value Validity :=
  emit (CallValidate selection) ;; lift (validate config selection).

Definition onEnter : Handler Value unit :=
  let selection := flat_map (@getChecked Value) (items render) in
  isValid <- awaitValidate selection ;;
  if required config && negb (existsb (@anyChecked Value) (items render))
  then setError (Some "At least one choice must be selected")
  else if isTrue isValid
  then setStatus Done ;; emit (CallDone (map (@value Value) selection))
  else setError (Some (orMessage isValid "You must select a valid value")).

Definition onDown : Handler Value unit :=
  path <- lift (down (items render) (active render)) ;; setActive path.

Definition onUp : Handler Value unit :=
  path <- lift (up bounds (items render) (active render)) ;; setActive path.

Definition onRight : Handler Value unit :=
  setItems (expand (items render) (active render)).

Definition onLeft : Handler Value unit :=
  setItems (collapse (items render) (active render)) ;;
  if 1 <? len (active render)
  then setActive (dropLast (active render))
  else ret tt.

Definition onSpace : Handler Value unit :=
  setError None ;;
  setShowHelpTip false ;;
  mapped <- lift (space (items render) (active render)) ;;
  setItems mapped.

Definition onSelectAll : Handler Value unit :=
  setItems (selectAll (items render)).

Definition onInvert : Handler Value unit :=
  setItems (invert (items render)).

Definition onHelp : Handler Value unit :=
  item <- lift (match active render with
                | [] => Ok None
                | top :: rest => focused (index (items render) top) rest
                end) ;;
  match item with
  | None => lift (Throw TypeError)
  | Some (ISeparator _) => ret tt
  | Some (IChoice c) =>
      match help c with Some h => emit (CallHelp h) | None => ret tt end
  | Some (IGroup g _) =>
      match ghelp g with Some h => emit (CallHelp h) | None => ret tt end
  end.

(** The callback given to [useKeypress]. *)
Definition useKeypress (key : KeypressEvent) : Handler Value unit :=
  if isEnterKey tests key then onEnter
  else if isDownKey tests key then onDown
  else if isUpKey tests key then onUp
  else if isRightKey key then onRight
  else if isLeftKey key then onLeft
  else if isSpaceKey tests key then onSpace
  else if String.eqb (keyName key) "a" then onSelectAll
  else if String.eqb (keyName key) "i" then onInvert
  else if String.eqb (keySequence key) "?" then onHelp
  else if isNumberKey tests key then ret tt (* unsupported *)
  else ret tt.

(** One key press: the handler starts from the cells it closes over. *)
Definition press (key : KeypressEvent) : Run Value unit :=
  useKeypress key render.
End KeyHandler.

(** ** The rows given to the pagination *)

Section PaginationModel.
Variable Value : Type.
Local Abbreviation Item := (Item Value).

(** An entry of the array handed to [usePagination]: an item, with the
    [depth] and [last] fields the flattening adds to the rows below an
    expanded group. *)
Record Row : Type := mkRow {
  rowItem : Item;
  rowDepth : option Z;
  rowLast : option bool
}.

(** [isGroup(choice) ? countChoices(choice) : 1], and through it
    [countChoices], which is only ever applied to a group. *)
Fixpoint countRow (choice : Item) : Z :=
  match choice with
  | IGroup _ inner => fold_left (fun acc c => acc + countRow c) inner 0
  | _ => 1
  end.

Definition countChoices (g : GroupHead) (inner : list Item) : Z :=
  countRow (IGroup g inner).

(** The [for] loop of [getActiveIndexForPagination], [n] iterations
    from index [i]; [isGroup(items[i])] throws past the end. *)
Fixpoint countExpanded (items : list Item) (n : nat) (i : Z) (count : Z)
  : Result Z :=
  match n with
  | O => Ok count
  | S n' =>
      match index items i with
      | None => Throw TypeError
      | Some (IGroup g inner) =>
          countExpanded items n' (i + 1)
            (if truthy (expanded g) then count + countChoices g inner else count)
      | Some _ => countExpanded items n' (i + 1) count
      end
  end.

Definition getActiveIndexForPagination (active : list Z) (items : list Item)
  : Result Z :=
  let count := fold_left (fun acc cur => acc + cur + 1) active 0 in
  match active with
  | [] => Ok count
  | top :: _ => countExpanded items (Z.to_nat top) 0 count
  end.

(** [mapItem(depth)] of the [flatMap] that builds the rows. *)
Fixpoint rowsOf (depth : Z) (item : Item) : list Row :=
  match item with
  | IGroup g inner =>
      if truthy (expanded g)
      then
        let arr := flat_map (rowsOf (depth + 1)) inner in
        mkRow item None None
        :: mapi (fun row i =>
                   mkRow (rowItem row) (Some (depth + 1))
                         (Some (i =? len arr - 1)))
                0 arr
      else [mkRow item None None]
  | _ => [mkRow item None None]
  end.

Definition pageItems (items : list Item) : list Row :=
  flat_map (rowsOf 0) items.
End PaginationModel.

(** ** The caller: from the answer to the install commands *)

(** [Outdated & { pkg: string }], the value of a choice. *)
Record Package : Type := mkPackage {
  pkg : string;
  current : string;
  wanted : string;
  latest : string;
  dependent : string;
  location : string
}.

(** A value of the workspace map; [workspacePath] is [false | string]. *)
Record Workspace : Type := mkWorkspace {
  workspacePath : option string;
  packageName : string
}.

(** The command line flags. *)
Record Options : Type := mkOptions {
  optLatest : bool;
  optGlobal : bool;
  optSave : bool;
  optDryRun : bool
}.

(** A [Map<string, V>]: its entries in insertion order. *)
Definition StringMap (V : Type) : Type := list (string * V).

Section Maps.
Variable V : Type.

(** [map.keys()]. *)
Definition mapKeys (m : StringMap V) : list string := map fst m.

(** [map.get(key)]. *)
Fixpoint mapGet (key : string) (m : StringMap V) : option V :=
  match m with
  | [] => None
  | (k, v) :: rest => if String.eqb k key then Some v else mapGet key rest
  end.

(** [map.set(key, value)]: an existing key keeps its place. *)
Fixpoint mapSet (key : string) (value : V) (m : StringMap V) : StringMap V :=
  match m with
  | [] => [(key, value)]
  | (k, v) :: rest =>
      if String.eqb k key then (k, value) :: rest
      else (k, v) :: mapSet key value rest
  end.
End Maps.

(** [updates.get(key)?.push(info)]: the array stored under [key], if
    there is one, grows in place. *)
Fixpoint pushUpdate (key : string) (info : Package)
  (updates : StringMap (list Package)) : StringMap (list Package) :=
  match updates with
  | [] => []
  | (k, deps) :: rest =>
      if String.eqb k key then (k, deps ++ [info]) :: rest
      else (k, deps) :: pushUpdate key info rest
  end.

(** The two loops that fill [updates]. *)
Definition collectUpdates (workspaceMap : StringMap (option Workspace))
  (answer : list Package) : StringMap (list Package) :=
  let empty := fold_left (fun updates key => mapSet key [] updates)
                         (mapKeys workspaceMap) [] in
  fold_left (fun updates info => pushUpdate (dependent info) info updates)
            answer empty.

(** [dep[latestOrWanted]]. *)
Definition target (options : Options) (dep : Package) : string :=
  if optLatest options then latest dep else wanted dep.

(** The [cmd] built for one entry of [updates]. *)
Definition installCommand (options : Options)
  (workspaceMap : StringMap (option Workspace)) (w : string)
  (deps : list Package) : string :=
  let destinationArg :=
    match mapGet w workspaceMap with
    | None | Some None => " --global"
    | Some (Some workspacePkg) =>
        match workspacePath workspacePkg with
        | Some path => if String.eqb path "" then "" else String.append " -w " path
        | None => ""
        end
    end in
  let dependenciesArgs :=
    String.concat " "
      (map (fun dep => String.append (pkg dep) (String.append "@" (target options dep)))
           deps) in
  let saveArg := if optSave options then " --save" else "" in
  String.append "npm install"
    (String.append destinationArg
       (String.append saveArg (String.append " " dependenciesArgs))).

(** What the last loop leaves behind: the lines logged, the commands
    handed to [exec], and the command whose [exec] reported an error,
    which ends [main]. *)
Record Installed : Type := mkInstalled {
  logged : list string;
  executed : list string;
  failed : option string
}.

(** The last loop of [main]; [exec cmd] tells whether the child process
    ends without error. *)
Fixpoint runUpdates (options : Options)
  (workspaceMap : StringMap (option Workspace)) (exec : string -> bool)
  (updates : StringMap (list Package)) : Installed :=
  match updates with
  | [] => mkInstalled [] [] None
  | (w, deps) :: rest =>
      if negb (len deps =? 0) then
        let cmd := installCommand options workspaceMap w deps in
        if negb (optDryRun options) then
          if exec cmd then
            let later := runUpdates options workspaceMap exec rest in
            mkInstalled (cmd :: logged later) (cmd :: executed later)
                        (failed later)
          else mkInstalled [cmd] [cmd] (Some cmd)
        else
          let later := runUpdates options workspaceMap exec rest in
          mkInstalled (cmd :: logged later) (executed later) (failed later)
      else runUpdates options workspaceMap exec rest
  end.

(** ** Vocabulary of the properties *)

Section Vocabulary.
Variable Value : Type.
Local Abbreviation Item := (Item Value).

(** Every [Choice] of an item, depth first, in tree order. *)
Fixpoint allChoices (item : Item) : list (Choice Value) :=
  match item with
  | ISeparator _ => []
  | IChoice c => [c]
  | IGroup _ inner => flat_map allChoices inner
  end.

(** Every item that is not a group, depth first, in tree order. *)
Fixpoint leaves (item : Item) : list Item :=
  match item with
  | IGroup _ inner => flat_map leaves inner
  | _ => [item]
  end.

(** No [Separator] and no disabled [Choice] below the item (a disabled
    group does not count: no traversal reads its flag). *)
Fixpoint leavesSelectable (item : Item) : bool :=
  match item with
  | IGroup _ inner => forallb leavesSelectable inner
  | _ => isSelectable item
  end.

(** The test the description of ['a'] names: every selectable choice of
    the tree is checked. *)
Definition everySelectableChecked (items : list Item) : bool :=
  forallb (fun c => negb (isSelectable (IChoice c)) || truthy (checked c))
          (flat_map allChoices items).

(** The choices that are not disabled, in tree order. *)
Definition nonDisabledChoices (items : list Item) : list (Choice Value) :=
  filter (fun c => isSelectable (IChoice c)) (flat_map allChoices items).

(** No disabled choice of the tree is checked. *)
Definition noDisabledChecked (items : list Item) : bool :=
  forallb (fun c => negb (truthy (checked c)) || isSelectable (IChoice c))
          (flat_map allChoices items).

Definition unselectable (item : Item) : bool := negb (isSelectable item).

(** The node a focus path designates, resolved from the root the way
    the [?] branch resolves it; [None] when the path leads nowhere. *)
Definition nodeAt (items : list Item) (active : list Z) : option Item :=
  match active with
  | [] => None
  | top :: rest =>
      match focused (index items top) rest with
      | Ok node => node
      | Throw _ => None
      end
  end.

(** The focus path designates a node of the tree. *)
Definition validPath (items : list Item) (active : list Z) : Prop :=
  exists node, nodeAt items active = Some node.

(** The tree with every [expanded] field erased. *)
Fixpoint forgetExpanded (item : Item) : Item :=
  match item with
  | IGroup g inner =>
      IGroup (mkGroupHead (gname g) (gshort g) (gdisabled g) None (ghelp g))
             (map forgetExpanded inner)
  | _ => item
  end.

(** Every expanded group below the item, the item included, has a
    child. *)
Fixpoint expandedNonEmpty (item : Item) : bool :=
  match item with
  | IGroup g inner =>
      (negb (truthy (expanded g)) || negb (len inner =? 0))
      && forallb expandedNonEmpty inner
  | _ => true
  end.

(** The first test of the Down branch: the focused item is an expanded
    group with a child. *)
Definition descendsInto (item : Item) : bool :=
  match item with
  | IGroup g inner => truthy (expanded g) && negb (len inner =? 0)
  | _ => false
  end.

(** Enter under [required], read with [validate] left alone: the error
    is recorded, the status is kept and no call of [validate] is made. *)
Definition enter_required_skips_validate
  (config : Config Value) (render : Session Value) : Prop :=
  required config = true ->
  existsb (@anyChecked Value) (items render) = false ->
  let r := onEnter config render render in
  errorMsg (next r) = Some "At least one choice must be selected"
  /\ status (next r) = status render
  /\ forall selection, ~ In (CallValidate selection) (effects r).

(** The description of ['a'] read as one statement about any tree. *)
Definition select_all_as_described (items : list Item) : Prop :=
  (everySelectableChecked items = false ->
     selectAll items = map (check true) items)
  /\ (everySelectableChecked items = true ->
     selectAll items = map (check false) items)
  /\ flat_map (@getChecked Value) (selectAll items)
     = map (withChecked true) (nonDisabledChoices items)
  /\ flat_map (@getChecked Value) (selectAll (selectAll items)) = [].

(** The description of Space on a group read as one statement. *)
Definition space_group_as_described (items : list Item) (active : list Z) : Prop :=
  forall g inner, nodeAt items active = Some (IGroup g inner) ->
  exists items' g' inner',
    space items active = Ok items'
    /\ nodeAt items' active = Some (IGroup g' inner')
    /\ expanded g' = expanded g
    /\ aggregate inner'
       = match aggregate inner with AggAll => AggNone | _ => AggAll end.
End Vocabulary.

Section IndexVocabulary.
Variable A : Type.
Variable p : A -> bool.

(** [f] is the least index whose element satisfies [p]. *)
Definition firstAt (l : list A) (f : Z) : Prop :=
  (exists x, index l f = Some x /\ p x = true)
  /\ forall j y, j < f -> index l j = Some y -> p y = false.

(** [f] is the greatest index whose element satisfies [p]. *)
Definition lastAt (l : list A) (f : Z) : Prop :=
  (exists x, index l f = Some x /\ p x = true)
  /\ forall j y, f < j -> index l j = Some y -> p y = false.
End IndexVocabulary.

(** The message of the error thrown when [bounds] finds nothing. *)
Definition noSelectableMessage : string :=
  "[checkbox prompt] No selectable choices. All choices are disabled.".

(** [s.includes(sub)]. *)
Fixpoint includes (sub s : string) : bool :=
  String.prefix sub s
  || match s with
     | EmptyString => false
     | String _ rest => includes sub rest
     end.

(** The key tests as [@inquirer/core] defines them, for the concrete
    runs below. *)
Definition inquirerKeys : KeyTests :=
  mkKeyTests
    (fun key => String.eqb (keyName key) "enter" || String.eqb (keyName key) "return")
    (fun key => String.eqb (keyName key) "down" || String.eqb (keyName key) "j"
                || (ctrl key && String.eqb (keyName key) "n"))
    (fun key => String.eqb (keyName key) "up" || String.eqb (keyName key) "k"
                || (ctrl key && String.eqb (keyName key) "p"))
    (fun key => String.eqb (keyName key) "space")
    (fun key => includes (keyName key) "123456789").

(** Sample data for the concrete runs. *)
Definition choice (v : nat) (chk : option bool) (dis : Disabled) : Item nat :=
  IChoice (mkChoice None v None dis chk None).

Definition group (exp : option bool) (inner : list (Item nat)) : Item nat :=
  IGroup (mkGroupHead None None DisabledUnset exp None) inner.

Definition accepting : list (Choice nat) -> Result Validity :=
  fun _ => Ok (VBool true).

Definition rejecting : list (Choice nat) -> Result Validity :=
  fun _ => Throw (Rejected "validate failed").

Definition sampleConfig (l rq : bool) (v : list (Choice nat) -> Result Validity)
  (cs : list (Item nat)) : Config nat :=
  mkConfig "Select packages to update" 7 cs l rq v.

Definition sampleRender (cs : list (Item nat)) (path : list Z) : Session nat :=
  mkSession Pending cs true None path.

(** ** Vocabulary of the further properties *)

Section FurtherVocabulary.
Variable Value : Type.
Local Abbreviation Item := (Item Value).

(** The focus path designates a node, and every group it passes through
    is expanded: the node is on a rendered row. *)
Fixpoint visiblePath (choices : list Item) (active : list Z) : bool :=
  match active with
  | [] => false
  | i :: rest =>
      match index choices i, rest with
      | None, _ => false
      | Some _, [] => true
      | Some (IGroup g inner), _ :: _ =>
          truthy (expanded g) && visiblePath inner rest
      | Some _, _ :: _ => false
      end
  end.

(** [isGroup(choice) ? choice.choices : []]. *)
Definition childrenOf (choice : Item) : list Item :=
  match choice with IGroup _ inner => inner | _ => [] end.

(** The Down branch after its [reduce]. *)
Definition downFrom (hierarchy : list Item) (active : list Z) : Result (list Z) :=
  let descends :=
    match index hierarchy (len hierarchy - 1) with
    | None => Throw TypeError
    | Some (IGroup g inner) =>
        Ok (truthy (expanded g) && negb (len inner =? 0))
    | Some _ => Ok false
    end in
  rbind descends (fun descend =>
  if descend then Ok (active ++ [0])
  else if len active =? 1 then Ok [hd 0 active + 1]
  else
    match index hierarchy (len hierarchy - 2) with
    | None => Throw TypeError
    | Some (IGroup g siblings) =>
        let nextChildIndex := List.last active 0 + 1 in
        if nextChildIndex <? len siblings
        then Ok (dropLast active ++ [nextChildIndex])
        else Ok (dropLast (dropLast active)
                   ++ [List.last (dropLast active) 0 + 1])
    | Some _ => Throw AssertionError
    end).

(** The Up branch after its wrap-around test. *)
Definition upCore (items : list Item) (active : list Z) : Result (list Z) :=
  match active with
  | [] => Throw TypeError
  | _ :: _ =>
      if List.last active 0 =? 0 then Ok (dropLast active)
      else
        let n := dropLast active ++ [List.last active 0 - 1] in
        rbind (follow (index items (hd 0 n)) (tl n)) (fun ptr =>
        rbind (calcPrior ptr) (fun prior => Ok (n ++ prior)))
  end.

(** [prior] leads from [x] down through expanded groups to a node. *)
Fixpoint visibleBelow (x : Item) (prior : list Z) : bool :=
  match prior with
  | [] => true
  | i :: rest =>
      match x with
      | IGroup g inner =>
          truthy (expanded g)
          && match index inner i with
             | Some y => visibleBelow y rest
             | None => false
             end
      | _ => false
      end
  end.

(** The item with every group below it, itself included, collapsed. *)
Fixpoint collapseAll (item : Item) : Item :=
  match item with
  | IGroup g inner => IGroup (withExpanded false g) (map collapseAll inner)
  | _ => item
  end.

(** What the Space branch does to the focused node. *)
Definition spaceNode (item : Item) : Item :=
  match item with
  | IGroup g inner =>
      IGroup g (map (mapItemStatic (negb (allChecked item))) inner)
  | IChoice c =>
      if isSelectable item
      then IChoice (withChecked (negb (truthy (checked c))) c)
      else item
  | ISeparator _ => item
  end.

(** The tree with [f] applied to the node at [path] and nothing else
    touched: on the way down only the [choices] of the groups passed
    through are rebuilt. *)
Fixpoint updateAt (f : Item -> Item) (choices : list Item) (path : list Z)
  : list Item :=
  match path with
  | [] => choices
  | i :: rest =>
      mapi (fun x j =>
              if j =? i
              then match rest, x with
                   | [], _ => f x
                   | _ :: _, IGroup g inner => IGroup g (updateAt f inner rest)
                   | _ :: _, _ => x
                   end
              else x)
           0 choices
  end.

(** Groups hold no groups: the nesting the declared types allow. *)
Definition oneLevel (item : Item) : bool :=
  match item with
  | IGroup _ inner => forallb (fun c => negb (isGroup c)) inner
  | _ => true
  end.

(** The rows an item contributes beyond its own. *)
Definition rowsBelow (item : Item) : Z :=
  match item with
  | IGroup g inner => if truthy (expanded g) then countChoices g inner else 0
  | _ => 0
  end.

(** Every index of [path], taken in turn from [choices] down, leads
    into a group. *)
Fixpoint throughGroups (choices : list Item) (path : list Z) : bool :=
  match path with
  | [] => true
  | i :: rest =>
      match index choices i with
      | Some (IGroup _ inner) => throughGroups inner rest
      | _ => false
      end
  end.

(** [x] is a group and [path] runs through groups below it. *)
Definition groupsOf (x : Item) (path : list Z) : bool :=
  match x with
  | IGroup _ inner => throughGroups inner path
  | _ => false
  end.

(** What the [assert] of the Space branch relies on: the focus path is
    not empty and every index before its last leads into a group.  The
    last index is free; it may even lie outside its array. *)
Definition focusInGroups (items : list Item) (active : list Z) : bool :=
  negb (len active =? 0) && throughGroups items (dropLast active).
End FurtherVocabulary.

(** The cells the prompt can be in: those of the first render, and
    those a key press leaves, the handler being given the [bounds] of
    the render it closes over.  Presses after [done] and after a
    handler that threw are counted too, so the set is, if anything, too
    large. *)
Inductive Reachable (Value : Type) (tests : KeyTests) (config : Config Value)
  : Session Value -> Prop :=
| reach_start (st : Session Value) :
    start config = Ok st -> Reachable tests config st
| reach_press (st : Session Value) (bounds : Bounds) (key : KeypressEvent) :
    Reachable tests config st ->
    computeBounds (items st) = Ok bounds ->
    Reachable tests config (next (press tests config bounds st key)).

(** * Properties *)

(** ** Enter with [required] and nothing checked *)

(** C1, as stated, fails: [validate] is awaited before [required] is
    looked at, so the call is always made; and when that call rejects,
    the handler ends there and no error message is recorded. *)
Lemma enter_required_calls_validate :
  ~ enter_required_skips_validate
      (sampleConfig true true accepting [choice 1 None DisabledUnset])
      (sampleRender [choice 1 None DisabledUnset] [0])
  /\ ~ enter_required_skips_validate
      (sampleConfig true true rejecting [choice 1 None DisabledUnset])
      (sampleRender [choice 1 None DisabledUnset] [0]).
Proof.
  split; intros H; specialize (H eq_refl eq_refl); cbv zeta in H.
  - destruct H as (_ & _ & H). apply (H []). vm_compute. left; reflexivity.
  - destruct H as (H & _). vm_compute in H. discriminate.
Qed.

(** C1 (amended): on Enter with [required] set and nothing checked, the
    handler first calls [validate] on the flattened selection; when that
    call resolves, whatever it resolves to, the error "At least one
    choice must be selected" is recorded, nothing else changes (the
    status stays what it was) and [done] is not called. *)
Theorem enter_required_records_error
  (Value : Type) (config : Config Value) (render : Session Value)
  (isValid : Validity) :
  required config = true ->
  existsb (@anyChecked Value) (items render) = false ->
  validate config (flat_map (@getChecked Value) (items render)) = Ok isValid ->
  let r := onEnter config render render in
  result r = Ok tt
  /\ next r = mkSession (status render) (items render) (showHelpTip render)
               (Some "At least one choice must be selected") (active render)
  /\ effects r = [CallValidate (flat_map (@getChecked Value) (items render))].
Proof.
  intros Hreq Hnone Hval. unfold onEnter, awaitValidate, bind, emit, lift.
  cbn. rewrite Hval, Hreq, Hnone. cbn. auto.
Qed.

Lemma enter_required_records_error_witness :
  let config := sampleConfig true true accepting [choice 1 None DisabledUnset] in
  let render := sampleRender [choice 1 None DisabledUnset] [0] in
  let r := onEnter config render render in
  result r = Ok tt
  /\ next r = mkSession Pending [choice 1 None DisabledUnset] true
               (Some "At least one choice must be selected") [0]
  /\ effects r = [CallValidate []].
Proof.
  exact (@enter_required_records_error nat
           (sampleConfig true true accepting [choice 1 None DisabledUnset])
           (sampleRender [choice 1 None DisabledUnset] [0])
           (VBool true) eq_refl eq_refl eq_refl).
Defined.

(** ** Flattening the checked choices *)

Section Flatten.
Variable Value : Type.
Local Abbreviation Item := (Item Value).

Lemma flat_map_filter_Forall (A B : Type) (f g : A -> list B) (p : B -> bool)
  (l : list A) :
  Forall (fun x => f x = filter p (g x)) l ->
  flat_map f l = filter p (flat_map g l).
Proof.
  induction 1 as [|x l Hx _ IH]; simpl; [reflexivity|].
  now rewrite filter_app, Hx, IH.
Qed.

(** What [getChecked] computes: the choices whose [checked] is truthy,
    in tree order; [disabled] is not looked at. *)
Lemma getChecked_filter (item : Item) :
  getChecked item = filter (fun c => truthy (checked c)) (allChoices item).
Proof.
  induction item as [s|c|g inner IH] using Item_tree_ind; simpl.
  - reflexivity.
  - destruct (truthy (checked c)); reflexivity.
  - now apply flat_map_filter_Forall.
Qed.

Lemma selection_filter (items : list Item) :
  flat_map (@getChecked Value) items
  = filter (fun c => truthy (checked c)) (flat_map (@allChoices Value) items).
Proof.
  apply flat_map_filter_Forall, Forall_forall. intros x _.
  apply getChecked_filter.
Qed.
End Flatten.

(** C2 at the failing input: a choice that is both disabled and checked
    is not [isChecked], yet [getChecked] yields it and Enter hands its
    value to [done]. *)
Theorem enter_yields_disabled_checked_choice :
  let tree := [choice 1 (Some true) (DisabledFlag true);
               choice 2 None DisabledUnset] in
  let r := onEnter (sampleConfig true false accepting tree)
                   (sampleRender tree [1]) (sampleRender tree [1]) in
  map (@isChecked nat) tree = [false; false]
  /\ map (@value nat) (flat_map (@getChecked nat) tree) = [1%nat]
  /\ status (next r) = Done
  /\ In (CallDone [1%nat]) (effects r).
Proof. vm_compute. intuition. Qed.

(** ** Select all *)

Section SelectAll.
Variable Value : Type.
Local Abbreviation Item := (Item Value).

Lemma flat_map_Forall_ext (A B : Type) (f g : A -> list B) (l : list A) :
  Forall (fun x => f x = g x) l -> flat_map f l = flat_map g l.
Proof. induction 1; simpl; congruence. Qed.

Lemma forallb_flat_map (A B : Type) (p : B -> bool) (f : A -> list B)
  (l : list A) :
  forallb p (flat_map f l) = forallb (fun x => forallb p (f x)) l.
Proof.
  induction l as [|x l IH]; simpl; [reflexivity|].
  now rewrite forallb_app, IH.
Qed.

Lemma check_frame (b : bool) (item : Item) :
  filter (@unselectable Value) (leaves (check b item)) = filter (@unselectable Value) (leaves item).
Proof.
  induction item as [s|c|g inner IH] using Item_tree_ind; simpl.
  - reflexivity.
  - unfold unselectable, isSelectable; simpl.
    destruct (truthyDisabled (disabled c)) eqn:E; simpl; rewrite ?E; reflexivity.
  - induction IH as [|x l Hx _ IHl]; simpl; [reflexivity|].
    now rewrite !filter_app, Hx, IHl.
Qed.

Section AllSelectable.
(** Facts that hold below an item without [Separator] and without
    disabled [Choice]. *)

Lemma allChecked_every (item : Item) :
  leavesSelectable item = true ->
  allChecked item
  = forallb (fun c => negb (isSelectable (IChoice c)) || truthy (checked c))
            (allChoices item).
Proof.
  induction item as [s|c|g inner IH] using Item_tree_ind; simpl; intros Hs.
  - discriminate.
  - unfold isChecked. simpl. rewrite Hs. simpl. now rewrite andb_true_r.
  - rewrite forallb_flat_map. revert Hs.
    induction IH as [|x l Hx _ IHl]; simpl; [reflexivity|].
    intros [Hsx Hsl]%andb_true_iff. now rewrite Hx, IHl.
Qed.

Lemma check_allChoices (b : bool) (item : Item) :
  leavesSelectable item = true ->
  allChoices (check b item) = map (withChecked b) (allChoices item).
Proof.
  induction item as [s|c|g inner IH] using Item_tree_ind; simpl; intros Hs.
  - reflexivity.
  - now rewrite Hs.
  - revert Hs. induction IH as [|x l Hx _ IHl]; simpl; [reflexivity|].
    intros [Hsx Hsl]%andb_true_iff. now rewrite map_app, Hx, IHl.
Qed.

Lemma check_leavesSelectable (b : bool) (item : Item) :
  leavesSelectable item = true -> leavesSelectable (check b item) = true.
Proof.
  induction item as [s|c|g inner IH] using Item_tree_ind; simpl; intros Hs.
  - discriminate.
  - rewrite Hs. exact Hs.
  - revert Hs. induction IH as [|x l Hx _ IHl]; simpl; [reflexivity|].
    intros [Hsx Hsl]%andb_true_iff. now rewrite Hx, IHl.
Qed.
End AllSelectable.

Lemma items_allChoices_check (b : bool) (items : list Item) :
  forallb (@leavesSelectable Value) items = true ->
  flat_map (@allChoices Value) (map (check b) items)
  = map (withChecked b) (flat_map (@allChoices Value) items).
Proof.
  induction items as [|x l IH]; simpl; [reflexivity|].
  intros [Hx Hl]%andb_true_iff.
  now rewrite map_app, check_allChoices, IH.
Qed.

Lemma items_leavesSelectable_check (b : bool) (items : list Item) :
  forallb (@leavesSelectable Value) items = true ->
  forallb (@leavesSelectable Value) (map (check b) items) = true.
Proof.
  induction items as [|x l IH]; simpl; [reflexivity|].
  intros [Hx Hl]%andb_true_iff.
  now rewrite check_leavesSelectable, IH.
Qed.

Lemma items_allChecked_every (items : list Item) :
  forallb (@leavesSelectable Value) items = true ->
  forallb (@allChecked Value) items = everySelectableChecked items.
Proof.
  unfold everySelectableChecked. rewrite forallb_flat_map.
  induction items as [|x l IH]; simpl; [reflexivity|].
  intros [Hx Hl]%andb_true_iff.
  now rewrite allChecked_every, IH.
Qed.

Lemma filter_checked_withChecked (b : bool) (cs : list (Choice Value)) :
  filter (fun c => truthy (checked c)) (map (withChecked b) cs)
  = if b then map (withChecked true) cs else [].
Proof.
  induction cs as [|c l IH]; simpl; [now destruct b|].
  rewrite IH. now destruct b.
Qed.

Lemma selection_after_check (b : bool) (items : list Item) :
  forallb (@leavesSelectable Value) items = true ->
  flat_map (@getChecked Value) (map (check b) items)
  = if b then map (withChecked true) (flat_map (@allChoices Value) items) else [].
Proof.
  intros Hs.
  now rewrite selection_filter, items_allChoices_check, filter_checked_withChecked.
Qed.

Lemma everySelectableChecked_after_check (items : list Item) :
  forallb (@leavesSelectable Value) items = true ->
  everySelectableChecked (map (check true) items) = true.
Proof.
  intros Hs. unfold everySelectableChecked.
  rewrite items_allChoices_check by assumption.
  apply forallb_forall. intros c [c0 [<- _]]%in_map_iff. simpl.
  apply orb_true_r.
Qed.

Lemma selectAll_frame (items : list Item) :
  filter (@unselectable Value) (flat_map (@leaves Value) (selectAll items))
  = filter (@unselectable Value) (flat_map (@leaves Value) items).
Proof.
  unfold selectAll. generalize (negb (forallb (@allChecked Value) items)) as b.
  intros b. induction items as [|x l IH]; simpl; [reflexivity|].
  now rewrite !filter_app, check_frame, IH.
Qed.
End SelectAll.

(** C3, as stated, fails.  On a tree whose choices are all checked the
    first ['a'] unchecks them, so the selection is empty rather than
    every choice; and with a [Separator] or a disabled [Choice] in the
    tree [items.every(allChecked)] is never true, so a second ['a']
    checks again instead of unchecking. *)
Lemma select_all_not_as_described :
  ~ select_all_as_described [choice 1 (Some true) DisabledUnset]
  /\ ~ select_all_as_described [ISeparator "--"; choice 1 None DisabledUnset]
  /\ ~ select_all_as_described [choice 1 None (DisabledFlag true);
                                choice 2 None DisabledUnset].
Proof.
  repeat split; intros (_ & _ & H1 & H2).
  - vm_compute in H1. discriminate.
  - vm_compute in H2. discriminate.
  - vm_compute in H2. discriminate.
Qed.

Section SelectAllAnyTree.
Variable Value : Type.
Local Abbreviation Item := (Item Value).

(** [check] on the choices of any tree: the selectable ones are
    written, the others are kept. *)
Lemma check_allChoices_any (b : bool) (item : Item) :
  allChoices (check b item)
  = map (fun c => if isSelectable (IChoice c) then withChecked b c else c)
        (allChoices item).
Proof.
  induction item as [s|c|g inner IH] using Item_tree_ind; simpl.
  - reflexivity.
  - destruct (isSelectable (IChoice c)); reflexivity.
  - induction IH as [|x l Hx _ IHl]; simpl; [reflexivity|].
    now rewrite map_app, Hx, IHl.
Qed.

Lemma items_allChoices_check_any (b : bool) (items : list Item) :
  flat_map (@allChoices Value) (map (check b) items)
  = map (fun c => if isSelectable (IChoice c) then withChecked b c else c)
        (flat_map (@allChoices Value) items).
Proof.
  induction items as [|x l IH]; simpl; [reflexivity|].
  now rewrite map_app, check_allChoices_any, IH.
Qed.

(** Where [allChecked] holds, every selectable choice is checked. *)
Lemma allChecked_selectable_checked (item : Item) :
  allChecked item = true ->
  forallb (fun c => negb (isSelectable (IChoice c)) || truthy (checked c))
          (allChoices item) = true.
Proof.
  induction item as [s|c|g inner IH] using Item_tree_ind; simpl.
  - reflexivity.
  - unfold isChecked. simpl. intros [_ ->]%andb_true_iff.
    now rewrite orb_true_r.
  - rewrite forallb_flat_map.
    induction IH as [|x l Hx _ IHl]; simpl; [reflexivity|].
    intros [Hax Hal]%andb_true_iff. now rewrite Hx, IHl.
Qed.

(** On any tree, a selectable choice left unchecked makes ['a'] check. *)
Lemma selectAll_checks (items : list Item) :
  everySelectableChecked items = false ->
  selectAll items = map (check true) items.
Proof.
  intros Hev. unfold selectAll.
  destruct (forallb (@allChecked Value) items) eqn:Hall; [|reflexivity].
  exfalso. unfold everySelectableChecked in Hev.
  rewrite forallb_flat_map in Hev.
  assert (H : forallb
                (fun x => forallb
                   (fun c => negb (isSelectable (IChoice c)) || truthy (checked c))
                   (allChoices x)) items = true).
  { apply forallb_forall. intros x Hx. apply allChecked_selectable_checked.
    rewrite forallb_forall in Hall. now apply Hall. }
  congruence.
Qed.

Lemma selectable_selection_after_check (cs : list (Choice Value)) :
  filter (fun c => isSelectable (IChoice c))
    (filter (fun c => truthy (checked c))
       (map (fun c => if isSelectable (IChoice c) then withChecked true c else c)
            cs))
  = map (withChecked true) (filter (fun c => isSelectable (IChoice c)) cs).
Proof.
  induction cs as [|c l IH]; simpl; [reflexivity|].
  destruct (isSelectable (IChoice c)) eqn:Hs; simpl.
  - replace (isSelectable (IChoice (withChecked true c))) with true
      by (now rewrite <- Hs).
    now rewrite IH.
  - destruct (truthy (checked c)); simpl; rewrite ?Hs; exact IH.
Qed.

Lemma selection_after_check_any (cs : list (Choice Value)) :
  forallb (fun c => negb (truthy (checked c)) || isSelectable (IChoice c)) cs
  = true ->
  filter (fun c => truthy (checked c))
    (map (fun c => if isSelectable (IChoice c) then withChecked true c else c) cs)
  = map (withChecked true) (filter (fun c => isSelectable (IChoice c)) cs).
Proof.
  induction cs as [|c l IH]; simpl; [reflexivity|].
  intros [Hc Hl]%andb_true_iff.
  destruct (isSelectable (IChoice c)) eqn:Hs; simpl.
  - now rewrite IH.
  - rewrite orb_false_r in Hc. apply negb_true_iff in Hc. rewrite Hc.
    now apply IH.
Qed.
End SelectAllAnyTree.

(** C3 (amended): on any tree ['a'] never changes a [Separator] or a
    disabled [Choice]; and on any tree, when not every selectable choice
    is checked, ['a'] checks every selectable choice, after which the
    choices of the flattened selection that are not disabled are exactly
    all the choices of the tree that are not disabled, in tree order,
    and they are the whole selection when no disabled choice was
    checked.  On a tree without [Separator] and without disabled
    [Choice]: a second ['a'] after one that checked leaves the selection
    empty, and when every choice is checked ['a'] unchecks every choice
    and the selection is empty. *)
Theorem select_all_toggles
  (Value : Type) (items : list (Item Value)) :
  filter (@unselectable Value) (flat_map (@leaves Value) (selectAll items))
  = filter (@unselectable Value) (flat_map (@leaves Value) items)
  /\ (everySelectableChecked items = false ->
        selectAll items = map (check true) items
        /\ filter (fun c => isSelectable (IChoice c))
                  (flat_map (@getChecked Value) (selectAll items))
           = map (withChecked true) (nonDisabledChoices items)
        /\ (noDisabledChecked items = true ->
              flat_map (@getChecked Value) (selectAll items)
              = map (withChecked true) (nonDisabledChoices items)))
  /\ (forallb (@leavesSelectable Value) items = true ->
        (everySelectableChecked items = false ->
           flat_map (@getChecked Value) (selectAll items)
           = map (withChecked true) (flat_map (@allChoices Value) items)
           /\ flat_map (@getChecked Value) (selectAll (selectAll items)) = [])
        /\ (everySelectableChecked items = true ->
             selectAll items = map (check false) items
             /\ flat_map (@getChecked Value) (selectAll items) = [])).
Proof.
  split; [apply selectAll_frame|]. split.
  - intros Hev. pose proof (selectAll_checks items Hev) as H1.
    split; [exact H1|]. rewrite H1, selection_filter, items_allChoices_check_any.
    split; [apply selectable_selection_after_check|].
    intros Hnone. now apply selection_after_check_any.
  - intros Hs. pose proof (items_allChecked_every items Hs) as Hall.
    split; intros Hev.
    + assert (H1 : selectAll items = map (check true) items).
      { unfold selectAll. now rewrite Hall, Hev. }
      rewrite H1. split; [now rewrite selection_after_check|].
      pose proof (items_leavesSelectable_check true items Hs) as Hs1.
      unfold selectAll at 1.
      rewrite (items_allChecked_every _ Hs1),
        (everySelectableChecked_after_check items Hs).
      simpl. now rewrite selection_after_check.
    + assert (H1 : selectAll items = map (check false) items).
      { unfold selectAll. now rewrite Hall, Hev. }
      split; [exact H1|]. rewrite H1. now rewrite selection_after_check.
Qed.

Lemma select_all_toggles_witness :
  let mixed := [ISeparator "--";
                group (Some false) [choice 1 None DisabledUnset;
                                    choice 2 (Some true) DisabledUnset];
                choice 3 None (DisabledFlag true)] in
  let plain := [group (Some false) [choice 1 None DisabledUnset;
                                    choice 2 (Some true) DisabledUnset];
                choice 3 None DisabledUnset] in
  (everySelectableChecked mixed = false
   /\ noDisabledChecked mixed = true
   /\ filter (@unselectable nat) (flat_map (@leaves nat) (selectAll mixed))
      = [ISeparator "--"; choice 3 None (DisabledFlag true)]
   /\ map (@value nat) (flat_map (@getChecked nat) (selectAll mixed))
      = [1%nat; 2%nat])
  /\ (forallb (@leavesSelectable nat) plain = true
      /\ everySelectableChecked plain = false
      /\ map (@value nat) (flat_map (@getChecked nat) (selectAll plain))
         = [1%nat; 2%nat; 3%nat]
      /\ flat_map (@getChecked nat) (selectAll (selectAll plain)) = []).
Proof.
  cbv zeta. split.
  - destruct (@select_all_toggles nat
      [ISeparator "--";
       group (Some false) [choice 1 None DisabledUnset;
                           choice 2 (Some true) DisabledUnset];
       choice 3 None (DisabledFlag true)]) as (Hframe & Hcheck & _).
    destruct (Hcheck eq_refl) as (_ & _ & Hsel).
    split; [reflexivity|]. split; [reflexivity|].
    split; [rewrite Hframe; reflexivity|].
    rewrite (Hsel eq_refl). reflexivity.
  - destruct (@select_all_toggles nat
      [group (Some false) [choice 1 None DisabledUnset;
                           choice 2 (Some true) DisabledUnset];
       choice 3 None DisabledUnset]) as (_ & _ & Hplain).
    destruct (Hplain eq_refl) as (Hnot & _).
    destruct (Hnot eq_refl) as (H1 & H2).
    split; [reflexivity|]. split; [reflexivity|].
    split; [rewrite H1; reflexivity | exact H2].
Defined.

(** ** Space on a group *)

Section SpaceOnGroup.
Variable Value : Type.
Local Abbreviation Item := (Item Value).

Lemma index_cons (A : Type) (x : A) (l : list A) (i : Z) :
  0 < i -> index (x :: l) i = index l (i - 1).
Proof.
  intros Hi. unfold index.
  destruct (Z.ltb_spec i 0); [lia|]. destruct (Z.ltb_spec (i - 1) 0); [lia|].
  replace (Z.to_nat i) with (S (Z.to_nat (i - 1))) by lia. reflexivity.
Qed.

Lemma index_zero (A : Type) (x : A) (l : list A) : index (x :: l) 0 = Some x.
Proof. reflexivity. Qed.

Lemma index_in_range (A : Type) (l : list A) (i : Z) (x : A) :
  index l i = Some x -> 0 <= i < len l.
Proof.
  unfold index, len. destruct (Z.ltb_spec i 0); [discriminate|].
  intros Hx. assert (Hn : nth_error l (Z.to_nat i) <> None) by congruence.
  apply nth_error_Some in Hn. lia.
Qed.

Lemma index_In (A : Type) (l : list A) (i : Z) (x : A) :
  index l i = Some x -> In x l.
Proof.
  unfold index. destruct (i <? 0); [discriminate|]. apply nth_error_In.
Qed.

Lemma index_middle (pre rest : list Z) (a : Z) :
  index (pre ++ a :: rest) (len pre) = Some a.
Proof.
  unfold index, len. destruct (Z.ltb_spec (Z.of_nat (List.length pre)) 0); [lia|].
  rewrite Nat2Z.id, nth_error_app2 by lia. now rewrite Nat.sub_diag.
Qed.

(** A map that rewrites only the element at index [a]. *)
Lemma mapi_rewrites_one (f : Item -> Z -> Result Item) (a : Z) (y : Item) :
  (forall z i, i <> a -> f z i = Ok z) ->
  forall (l : list Item) (s : Z) (x : Item),
    index l (a - s) = Some x -> f x a = Ok y ->
    exists l', sequence (mapi f s l) = Ok l' /\ index l' (a - s) = Some y.
Proof.
  intros Hother. induction l as [|z l IH]; intros s x Hx Hy.
  - unfold index in Hx. destruct (a - s <? 0); [discriminate|].
    now destruct (Z.to_nat (a - s)).
  - pose proof (index_in_range _ _ Hx) as Hr.
    destruct (Z.eq_dec a s) as [->|Hne].
    + rewrite Z.sub_diag in *. rewrite index_zero in Hx. injection Hx as ->.
      assert (Hrest : forall l0 s0, s < s0 ->
                sequence (mapi f s0 l0) = Ok l0).
      { induction l0 as [|z0 l0 IH0]; intros s0 Hs0; simpl; [reflexivity|].
        rewrite Hother by lia. simpl. rewrite IH0 by lia. reflexivity. }
      exists (y :: l). simpl. rewrite Hy. simpl.
      rewrite Hrest by lia. simpl. split; reflexivity.
    + rewrite index_cons in Hx by lia.
      replace (a - s - 1) with (a - (s + 1)) in Hx by lia.
      destruct (IH (s + 1) x Hx Hy) as (l' & Hseq & Hidx).
      exists (z :: l'). simpl. rewrite Hother by lia. simpl.
      rewrite Hseq. simpl. split; [reflexivity|].
      rewrite index_cons by lia.
      now replace (a - s - 1) with (a - (s + 1)) by lia.
Qed.

Lemma spaceItem_elsewhere (pre rest : list Z) (a : Z) (z : Item) (i : Z) :
  i <> a -> spaceItem (pre ++ a :: rest) (len pre) z i = Ok z.
Proof.
  intros Hne. destruct z; simpl; rewrite index_middle; simpl;
    destruct (Z.eqb_spec a i); try congruence; reflexivity.
Qed.

(** Space rewrites the node under the focus path and nothing on the
    way to it. *)
Lemma space_level (rest : list Z) :
  forall (pre : list Z) (a : Z) (items : list Item) (g : GroupHead)
         (inner : list Item),
    focused (index items a) rest = Ok (Some (IGroup g inner)) ->
    exists items',
      sequence (mapi (spaceItem (pre ++ a :: rest) (len pre)) 0 items) = Ok items'
      /\ focused (index items' a) rest
         = Ok (Some (IGroup g
                 (map (mapItemStatic (negb (forallb (@allChecked Value) inner)))
                      inner))).
Proof.
  induction rest as [|b rest IH]; intros pre a items g inner Hf.
  - simpl in Hf. injection Hf as Hf.
    destruct (@mapi_rewrites_one (spaceItem (pre ++ [a]) (len pre)) a
                (IGroup g (map (mapItemStatic
                    (negb (forallb (@allChecked Value) inner))) inner))
                (fun z i => @spaceItem_elsewhere pre [] a z i)
                items 0 (IGroup g inner)) as (items' & Hseq & Hidx).
    + now rewrite Z.sub_0_r.
    + simpl. rewrite index_middle. simpl. rewrite Z.eqb_refl.
      unfold len. rewrite length_app. simpl.
      replace (Z.of_nat (List.length pre)
               =? Z.of_nat (List.length pre + 1) - 1) with true
        by (symmetry; apply Z.eqb_eq; lia).
      reflexivity.
    + exists items'. split; [exact Hseq|]. rewrite Z.sub_0_r in Hidx.
      simpl. now rewrite Hidx.
  - simpl in Hf. destruct (index items a) as [[s|c|g0 inner0]|] eqn:Ha;
      try discriminate.
    destruct (IH (pre ++ [a]) b inner0 g inner Hf) as (inner0' & Hseq0 & Hf0).
    rewrite <- app_assoc in Hseq0. simpl in Hseq0.
    assert (Hlen : len (pre ++ [a]) = len pre + 1).
    { unfold len. rewrite length_app. simpl. lia. }
    rewrite Hlen in Hseq0.
    destruct (@mapi_rewrites_one (spaceItem (pre ++ a :: b :: rest) (len pre)) a
                (IGroup g0 inner0')
                (fun z i => @spaceItem_elsewhere pre (b :: rest) a z i)
                items 0 (IGroup g0 inner0)) as (items' & Hseq & Hidx).
    + now rewrite Z.sub_0_r.
    + simpl. rewrite index_middle. simpl. rewrite Z.eqb_refl.
      unfold len in *. rewrite length_app. simpl.
      replace (Z.of_nat (List.length pre)
               =? Z.of_nat (List.length pre + S (S (List.length rest))) - 1)
        with false by (symmetry; apply Z.eqb_neq; lia).
      rewrite Hseq0. reflexivity.
    + exists items'. split; [exact Hseq|]. rewrite Z.sub_0_r in Hidx.
      simpl. now rewrite Hidx.
Qed.
End SpaceOnGroup.

Section GroupAggregate.
Variable Value : Type.
Local Abbreviation Item := (Item Value).

Lemma mapItemStatic_check (b : bool) (item : Item) :
  mapItemStatic b item = check b item.
Proof.
  (* the two functions have the same body *)
  reflexivity.
Qed.

Lemma map_mapItemStatic_check (b : bool) (inner : list Item) :
  map (mapItemStatic b) inner = map (check b) inner.
Proof. apply map_ext, mapItemStatic_check. Qed.

Lemma leaves_check (b : bool) (item : Item) :
  leaves (check b item) = map (check b) (leaves item).
Proof.
  induction item as [s|c|g inner IH] using Item_tree_ind; simpl.
  - reflexivity.
  - destruct (isSelectable (IChoice c)); reflexivity.
  - induction IH as [|x l Hx _ IHl]; simpl; [reflexivity|].
    now rewrite map_app, Hx, IHl.
Qed.

Lemma anyChecked_check_false (item : Item) :
  anyChecked (check false item) = false.
Proof.
  induction item as [s|c|g inner IH] using Item_tree_ind; simpl.
  - reflexivity.
  - destruct (isSelectable (IChoice c)) eqn:E; simpl.
    + unfold isChecked. simpl. apply andb_false_r.
    + unfold isChecked. now rewrite E.
  - induction IH as [|x l Hx _ IHl]; simpl; [reflexivity|].
    now rewrite Hx, IHl.
Qed.

Lemma allChecked_check_true (item : Item) :
  leavesSelectable item = true -> allChecked (check true item) = true.
Proof.
  induction item as [s|c|g inner IH] using Item_tree_ind; simpl; intros Hs.
  - discriminate.
  - rewrite Hs. simpl. unfold isChecked, isSelectable in *. simpl in *.
    now rewrite Hs.
  - revert Hs. induction IH as [|x l Hx _ IHl]; simpl; [reflexivity|].
    intros [Hsx Hsl]%andb_true_iff. now rewrite Hx, IHl.
Qed.

(** Where every leaf is checked and there is a leaf, some leaf is
    checked. *)
Lemma allChecked_anyChecked (item : Item) :
  allChecked item = true -> leaves item <> [] -> anyChecked item = true.
Proof.
  induction item as [s|c|g inner IH] using Item_tree_ind; simpl;
    try (intros H _; exact H).
  induction IH as [|x l Hx _ IHl]; simpl; [congruence|].
  intros [Hax Hal]%andb_true_iff Hne.
  destruct (leaves x) as [|leaf more] eqn:El.
  - simpl in Hne. rewrite (IHl Hal Hne). apply orb_true_r.
  - rewrite Hx; [reflexivity | exact Hax | discriminate].
Qed.

Lemma aggregate_after_check_true (inner : list Item) :
  forallb (@leavesSelectable Value) inner = true ->
  aggregate (map (check true) inner) = AggAll.
Proof.
  intros Hs. unfold aggregate.
  replace (forallb (@allChecked Value) (map (check true) inner)) with true;
    [reflexivity|].
  symmetry. revert Hs. induction inner as [|x l IH]; simpl; [reflexivity|].
  intros [Hx Hl]%andb_true_iff. now rewrite allChecked_check_true, IH.
Qed.

Lemma aggregate_after_check_false (inner : list Item) :
  flat_map (@leaves Value) inner <> [] ->
  aggregate (map (check false) inner) = AggNone.
Proof.
  intros Hne. unfold aggregate.
  assert (Hany : existsb (@anyChecked Value) (map (check false) inner) = false).
  { clear Hne. induction inner as [|x l IH]; simpl; [reflexivity|].
    now rewrite anyChecked_check_false, IH. }
  rewrite Hany.
  destruct (forallb (@allChecked Value) (map (check false) inner)) eqn:Hall;
    [|reflexivity].
  pose proof (@allChecked_anyChecked
                (IGroup (mkGroupHead None None DisabledUnset None None)
                        (map (check false) inner))) as H.
  simpl in H. rewrite Hany in H.
  assert (Hleaves : flat_map (@leaves Value) (map (check false) inner) <> []).
  { intros Hnil. apply Hne. clear -Hnil.
    induction inner as [|x l IH]; simpl in *; [reflexivity|].
    apply app_eq_nil in Hnil as [Hx Hl]. rewrite leaves_check in Hx.
    apply map_eq_nil in Hx. now rewrite Hx, IH. }
  specialize (H Hall Hleaves). discriminate.
Qed.

Lemma items_leaves_check (b : bool) (inner : list Item) :
  flat_map (@leaves Value) (map (check b) inner)
  = map (check b) (flat_map (@leaves Value) inner).
Proof.
  induction inner as [|x l IH]; simpl; [reflexivity|].
  now rewrite map_app, leaves_check, IH.
Qed.

Lemma items_check_frame (b : bool) (inner : list Item) :
  filter (@unselectable Value) (flat_map (@leaves Value) (map (check b) inner))
  = filter (@unselectable Value) (flat_map (@leaves Value) inner).
Proof.
  induction inner as [|x l IH]; simpl; [reflexivity|].
  now rewrite !filter_app, check_frame, IH.
Qed.

Lemma aggregate_all_iff (inner : list Item) :
  aggregate inner = AggAll <-> forallb (@allChecked Value) inner = true.
Proof.
  unfold aggregate. destruct (forallb (@allChecked Value) inner).
  - tauto.
  - destruct (existsb (@anyChecked Value) inner); split; intros; discriminate.
Qed.
End GroupAggregate.

(** The scenario of a collapsed group with one of two children checked:
    Space checks both children, and Enter then hands the two values to
    [done], in tree order, without the unchecked root choice. *)
Example space_then_enter_on_collapsed_group :
  let tree := [group (Some false) [choice 1 (Some false) DisabledUnset;
                                   choice 2 (Some true) DisabledUnset];
               choice 3 (Some false) DisabledUnset] in
  let config := sampleConfig true false accepting tree in
  let afterSpace := press inquirerKeys config (mkBounds 0 1) (sampleRender tree [0])
                          (mkKey "space" false " ") in
  let afterEnter := press inquirerKeys config (mkBounds 0 1) (next afterSpace)
                          (mkKey "return" false "") in
  items (next afterSpace)
  = [group (Some false) [choice 1 (Some true) DisabledUnset;
                         choice 2 (Some true) DisabledUnset];
     choice 3 (Some false) DisabledUnset]
  /\ status (next afterEnter) = Done
  /\ effects afterEnter
     = [CallValidate (flat_map (@getChecked nat) (items (next afterSpace)));
        CallDone [1%nat; 2%nat]].
Proof. vm_compute. auto. Qed.

(** C4, as stated, fails.  A disabled child is never written and never
    counts as checked, so the group that holds one does not reach [all];
    and a group without children is [all] before and after. *)
Lemma space_group_not_as_described :
  ~ space_group_as_described
      [group (Some true) [choice 1 None (DisabledFlag true);
                          choice 2 None DisabledUnset]] [0]
  /\ ~ space_group_as_described
      [group (Some false) []; choice 3 None DisabledUnset] [0].
Proof.
  split; intros H.
  - destruct (H _ _ eq_refl) as (items' & g' & inner' & Hs & Hn & _ & Ha).
    vm_compute in Hs. injection Hs as <-. vm_compute in Hn.
    injection Hn as <- <-. vm_compute in Ha. discriminate.
  - destruct (H _ _ eq_refl) as (items' & g' & inner' & Hs & Hn & _ & Ha).
    vm_compute in Hs. injection Hs as <-. vm_compute in Hn.
    injection Hn as <- <-. vm_compute in Ha. discriminate.
Qed.

(** C4 (amended): Space on a focused group rewrites its children with
    [mapItemStatic(!allChecked(group))] and keeps the group's own fields,
    [expanded] included; every descendant that is not a group is
    rewritten by that function, so [Separator]s and disabled choices
    stay as they were.  If the aggregate was [partial] or [none] and no
    descendant is a [Separator] or a disabled choice, the aggregate
    becomes [all]; if the aggregate was [all] and the group has a
    descendant that is not a group, the aggregate becomes [none]. *)
Theorem space_on_group
  (Value : Type) (items : list (Item Value)) (active : list Z)
  (g : GroupHead) (inner : list (Item Value)) :
  nodeAt items active = Some (IGroup g inner) ->
  let inner' := map (mapItemStatic (negb (forallb (@allChecked Value) inner))) inner in
  exists items',
    space items active = Ok items'
    /\ nodeAt items' active = Some (IGroup g inner')
    /\ flat_map (@leaves Value) inner'
       = map (mapItemStatic (negb (forallb (@allChecked Value) inner)))
             (flat_map (@leaves Value) inner)
    /\ filter (@unselectable Value) (flat_map (@leaves Value) inner')
       = filter (@unselectable Value) (flat_map (@leaves Value) inner)
    /\ (aggregate inner <> AggAll ->
        forallb (@leavesSelectable Value) inner = true ->
        aggregate inner' = AggAll)
    /\ (aggregate inner = AggAll ->
        flat_map (@leaves Value) inner <> [] ->
        aggregate inner' = AggNone).
Proof.
  intros Hnode inner'. unfold nodeAt in Hnode.
  destruct active as [|top rest]; [discriminate|].
  destruct (focused (index items top) rest) as [node|e] eqn:Hf; [|discriminate].
  subst node.
  destruct (@space_level Value rest [] top items g inner Hf)
    as (items' & Hseq & Hf').
  exists items'. split; [exact Hseq|]. split.
  { unfold nodeAt. now rewrite Hf'. }
  subst inner'. set (b := negb (forallb (@allChecked Value) inner)).
  rewrite map_mapItemStatic_check.
  split.
  { rewrite items_leaves_check. apply map_ext. intros x. symmetry.
    apply mapItemStatic_check. }
  split; [apply items_check_frame|].
  split.
  - intros Hagg Hs.
    assert (Hb : b = true).
    { subst b. destruct (forallb (@allChecked Value) inner) eqn:E; [|reflexivity].
      exfalso. apply Hagg. now apply aggregate_all_iff. }
    rewrite Hb. now apply aggregate_after_check_true.
  - intros Hagg Hne. apply aggregate_all_iff in Hagg.
    subst b. rewrite Hagg. simpl. now apply aggregate_after_check_false.
Qed.

Lemma space_on_group_witness :
  let tree := [group (Some false) [choice 1 None DisabledUnset;
                                   choice 2 (Some true) DisabledUnset];
               choice 3 None DisabledUnset] in
  exists tree',
    space tree [0] = Ok tree'
    /\ nodeAt tree' [0]
       = Some (group (Some false) [choice 1 (Some true) DisabledUnset;
                                   choice 2 (Some true) DisabledUnset]).
Proof.
  cbv zeta.
  destruct (@space_on_group nat
    [group (Some false) [choice 1 None DisabledUnset;
                         choice 2 (Some true) DisabledUnset];
     choice 3 None DisabledUnset] [0] _ _ eq_refl)
    as (items' & Hs & Hn & _).
  exists items'. split; [exact Hs | exact Hn].
Defined.

(** ** Left *)

Section Collapse.
Variable Value : Type.
Local Abbreviation Item := (Item Value).

Lemma map_mapi_Forall (A B C : Type) (h : B -> C) (h0 : A -> C)
  (f : A -> Z -> B) (l : list A) :
  Forall (fun x => forall i, h (f x i) = h0 x) l ->
  forall s, map h (mapi f s l) = map h0 l.
Proof.
  induction 1 as [|x l Hx _ IH]; intros s; simpl; [reflexivity|].
  now rewrite Hx, IH.
Qed.

Lemma collapseItem_forgetExpanded (active : list Z) (item : Item) :
  forall depth isParentSelected idx,
    forgetExpanded (collapseItem active depth isParentSelected item idx)
    = forgetExpanded item.
Proof.
  induction item as [s|c|g inner IH] using Item_tree_ind;
    intros depth isParentSelected idx; simpl; try reflexivity.
  destruct (isParentSelected || sameIndex (index active depth) idx);
    [|reflexivity].
  simpl. f_equal. apply map_mapi_Forall.
  eapply Forall_impl; [|exact IH]. intros x Hx i. apply Hx.
Qed.

Lemma allChoices_forgetExpanded (item : Item) :
  allChoices (forgetExpanded item) = allChoices item.
Proof.
  induction item as [s|c|g inner IH] using Item_tree_ind; simpl;
    try reflexivity.
  induction IH as [|x l Hx _ IHl]; simpl; [reflexivity|].
  now rewrite Hx, IHl.
Qed.

Lemma collapse_forgetExpanded (items : list Item) (active : list Z) :
  map (@forgetExpanded Value) (collapse items active) = map (@forgetExpanded Value) items.
Proof.
  unfold collapse. apply map_mapi_Forall, Forall_forall.
  intros x _ i. apply collapseItem_forgetExpanded.
Qed.

Lemma allChoices_of_forgotten (items : list Item) :
  flat_map (@allChoices Value) (map (@forgetExpanded Value) items)
  = flat_map (@allChoices Value) items.
Proof.
  induction items as [|x l IH]; simpl; [reflexivity|].
  now rewrite allChoices_forgetExpanded, IH.
Qed.

Lemma collapse_allChoices (items : list Item) (active : list Z) :
  flat_map (@allChoices Value) (collapse items active)
  = flat_map (@allChoices Value) items.
Proof.
  rewrite <- (allChoices_of_forgotten (collapse items active)).
  now rewrite collapse_forgetExpanded, allChoices_of_forgotten.
Qed.
End Collapse.

(** C7: Left never throws; the tree it leaves differs from the tree
    before in [expanded] fields only, so every [Choice] is the same
    record, with the same [checked], at the same place; the focus path
    is kept or loses its last index; status, error and help tip are
    kept. *)
Theorem left_keeps_checked (Value : Type) (render : Session Value) :
  let r := onLeft render render in
  result r = Ok tt
  /\ map (@forgetExpanded Value) (items (next r))
     = map (@forgetExpanded Value) (items render)
  /\ flat_map (@allChoices Value) (items (next r))
     = flat_map (@allChoices Value) (items render)
  /\ map (fun c => checked c) (flat_map (@allChoices Value) (items (next r)))
     = map (fun c => checked c) (flat_map (@allChoices Value) (items render))
  /\ (active (next r) = active render
      \/ active (next r) = dropLast (active render))
  /\ status (next r) = status render
  /\ errorMsg (next r) = errorMsg render
  /\ showHelpTip (next r) = showHelpTip render.
Proof.
  unfold onLeft, bind, setItems, setActive, ret. cbn.
  destruct (1 <? len (active render)); cbn;
    rewrite collapse_forgetExpanded, collapse_allChoices; intuition.
Qed.

(** ** Selectable bounds and start-up *)

Section BoundsFacts.
Variable A : Type.
Variable p : A -> bool.

Lemma existsb_false_index (l : list A) (j : Z) (y : A) :
  existsb p l = false -> index l j = Some y -> p y = false.
Proof.
  intros He Hy. apply index_In in Hy.
  destruct (p y) eqn:E; [|reflexivity].
  assert (existsb p l = true) by (apply existsb_exists; eauto). congruence.
Qed.

Lemma findIndexFrom_none (l : list A) :
  existsb p l = false -> forall s, findIndexFrom p s l = -1.
Proof.
  induction l as [|x l IH]; simpl; [reflexivity|].
  intros [Hx Hl]%orb_false_iff s. rewrite Hx. now apply IH.
Qed.

Lemma findIndexFrom_some (l : list A) :
  existsb p l = true -> forall s,
    s <= findIndexFrom p s l
    /\ firstAt p l (findIndexFrom p s l - s).
Proof.
  induction l as [|x l IH]; simpl; [discriminate|]. intros He s.
  destruct (p x) eqn:Hx.
  - rewrite Z.sub_diag. split; [lia|]. split.
    + exists x. now rewrite index_zero.
    + intros j y Hj Hy. apply index_in_range in Hy. lia.
  - simpl in He. destruct (IH He (s + 1)) as (Hle & (x' & Hx' & Hp) & Hbefore).
    split; [lia|]. split.
    + exists x'. rewrite index_cons by lia. split; [|exact Hp].
      now replace (findIndexFrom p (s + 1) l - s - 1)
        with (findIndexFrom p (s + 1) l - (s + 1)) by lia.
    + intros j y Hj Hy. destruct (Z.eq_dec j 0) as [->|Hne].
      * rewrite index_zero in Hy. now injection Hy as <-.
      * pose proof (index_in_range _ _ Hy). rewrite index_cons in Hy by lia.
        apply (Hbefore (j - 1) y); [lia | exact Hy].
Qed.

Lemma findLastIndexFrom_none (l : list A) :
  existsb p l = false -> forall s, findLastIndexFrom p s l = -1.
Proof.
  induction l as [|x l IH]; simpl; [reflexivity|].
  intros [Hx Hl]%orb_false_iff s. rewrite (IH Hl), Hx. reflexivity.
Qed.

Lemma findLastIndexFrom_some (l : list A) :
  existsb p l = true -> forall s, 0 <= s ->
    s <= findLastIndexFrom p s l
    /\ lastAt p l (findLastIndexFrom p s l - s).
Proof.
  induction l as [|x l IH]; simpl; [discriminate|]. intros He s Hs.
  destruct (existsb p l) eqn:Hl.
  - destruct (IH eq_refl (s + 1)) as (Hle & (x' & Hx' & Hp) & Hafter); [lia|].
    destruct (Z.leb_spec 0 (findLastIndexFrom p (s + 1) l)); [|lia].
    split; [lia|]. split.
    + exists x'. rewrite index_cons by lia. split; [|exact Hp].
      now replace (findLastIndexFrom p (s + 1) l - s - 1)
        with (findLastIndexFrom p (s + 1) l - (s + 1)) by lia.
    + intros j y Hj Hy. rewrite index_cons in Hy by lia.
      apply (Hafter (j - 1) y); [lia | exact Hy].
  - rewrite orb_false_r in He. rewrite (findLastIndexFrom_none l Hl), He.
    simpl. rewrite Z.sub_diag. split; [lia|]. split.
    + exists x. now rewrite index_zero.
    + intros j y Hj Hy. rewrite index_cons in Hy by lia.
      eapply existsb_false_index; eassumption.
Qed.
End BoundsFacts.

Section StartFacts.
Variable Value : Type.

Lemma shallow_copies (l : list (Item Value)) :
  flat_map (fun choice => [choice]) l = l.
Proof. induction l; simpl; congruence. Qed.

Lemma computeBounds_none (items : list (Item Value)) :
  existsb (@isSelectable Value) items = false ->
  computeBounds items = Throw (ValidationError noSelectableMessage).
Proof.
  intros He. unfold computeBounds, findIndex.
  now rewrite findIndexFrom_none.
Qed.

Lemma computeBounds_some (items : list (Item Value)) :
  existsb (@isSelectable Value) items = true ->
  computeBounds items
  = Ok (mkBounds (findIndex (@isSelectable Value) items)
                 (findLastIndex (@isSelectable Value) items))
  /\ firstAt (@isSelectable Value) items (findIndex (@isSelectable Value) items)
  /\ lastAt (@isSelectable Value) items (findLastIndex (@isSelectable Value) items).
Proof.
  intros He. unfold computeBounds, findIndex, findLastIndex.
  destruct (@findIndexFrom_some _ (@isSelectable Value) items He 0)
    as (Hle & Hfirst).
  destruct (@findLastIndexFrom_some _ (@isSelectable Value) items He 0)
    as (_ & Hlast); [lia|].
  rewrite Z.sub_0_r in Hfirst, Hlast.
  destruct (Z.ltb_spec (findIndexFrom (@isSelectable Value) 0 items) 0); [lia|].
  auto.
Qed.

Lemma nothing_selectable_iff (items : list (Item Value)) :
  existsb (@isSelectable Value) items = false
  <-> Forall (fun item => isSeparator item = true \/ itemDisabled item = true)
             items.
Proof.
  rewrite Forall_forall. split.
  - intros He x Hx. destruct (isSelectable x) eqn:E.
    + assert (existsb (@isSelectable Value) items = true)
        by (apply existsb_exists; eauto). congruence.
    + unfold isSelectable in E.
      destruct (isSeparator x), (itemDisabled x); simpl in E; auto; discriminate.
  - intros Hall. destruct (existsb (@isSelectable Value) items) eqn:E;
      [|reflexivity].
    apply existsb_exists in E as (x & Hx & Hs). unfold isSelectable in Hs.
    destruct (Hall x Hx) as [H|H]; rewrite H in Hs; simpl in Hs;
      [discriminate|]. now rewrite andb_false_r in Hs.
Qed.
End StartFacts.

(** C8: the first render throws exactly when no root item is
    selectable, that is when every root item is a [Separator] or is
    disabled, and what it throws is the "No selectable choices" error;
    otherwise [bounds] holds the least and the greatest index of a
    selectable root item and the session starts, pending, on the
    caller's items. *)
Theorem start_fails_iff_nothing_selectable
  (Value : Type) (config : Config Value) :
  ((exists e, start config = Throw e)
     <-> Forall (fun item => isSeparator item = true \/ itemDisabled item = true)
                (choices config))
  /\ (Forall (fun item => isSeparator item = true \/ itemDisabled item = true)
             (choices config)
     -> start config = Throw (ValidationError noSelectableMessage))
  /\ (existsb (@isSelectable Value) (choices config) = true
     -> exists f l,
          computeBounds (choices config) = Ok (mkBounds f l)
          /\ firstAt (@isSelectable Value) (choices config) f
          /\ lastAt (@isSelectable Value) (choices config) l
          /\ start config = Ok (mkSession Pending (choices config) true None [f])).
Proof.
  unfold start. rewrite shallow_copies, <- nothing_selectable_iff.
  destruct (existsb (@isSelectable Value) (choices config)) eqn:He.
  - destruct (computeBounds_some _ He) as (Hb & Hf & Hl). rewrite Hb. simpl.
    split; [split; [intros [e H]; discriminate | discriminate]|].
    split; [discriminate|].
    intros _. eauto 10.
  - rewrite (computeBounds_none _ He). simpl.
    split; [split; eauto|]. split; [reflexivity|]. discriminate.
Qed.

(** C10: a session that starts has the one-element focus path
    [[bounds.first]]; that index is the least index of a selectable root
    item, and the item there is neither a [Separator] nor disabled. *)
Theorem initial_focus_is_first_selectable
  (Value : Type) (config : Config Value) (session : Session Value) :
  start config = Ok session ->
  exists bounds node,
    computeBounds (items session) = Ok bounds
    /\ active session = [first bounds]
    /\ firstAt (@isSelectable Value) (items session) (first bounds)
    /\ nodeAt (items session) (active session) = Some node
    /\ isSeparator node = false
    /\ itemDisabled node = false.
Proof.
  unfold start. rewrite shallow_copies.
  destruct (existsb (@isSelectable Value) (choices config)) eqn:He.
  - destruct (computeBounds_some _ He) as (Hb & Hf & Hl). rewrite Hb. simpl.
    intros [= <-]. simpl. rewrite Hb.
    pose proof Hf as ((x & Hx & Hs) & _).
    exists (mkBounds (findIndex (@isSelectable Value) (choices config))
                     (findLastIndex (@isSelectable Value) (choices config))), x.
    simpl. rewrite Hx. unfold isSelectable in Hs.
    apply andb_true_iff in Hs as [H1 H2].
    apply negb_true_iff in H1, H2.
    repeat (split; [first [reflexivity | assumption]|]). assumption.
  - rewrite (computeBounds_none _ He). discriminate.
Qed.

Lemma initial_focus_is_first_selectable_witness :
  let tree := [ISeparator "--"; choice 1 None (DisabledFlag true);
               choice 2 None DisabledUnset; choice 3 None DisabledUnset] in
  exists bounds node,
    computeBounds tree = Ok bounds
    /\ [2] = [first bounds]
    /\ firstAt (@isSelectable nat) tree (first bounds)
    /\ nodeAt tree [2] = Some node
    /\ isSeparator node = false
    /\ itemDisabled node = false.
Proof.
  exact (@initial_focus_is_first_selectable nat
    (sampleConfig true false accepting
       [ISeparator "--"; choice 1 None (DisabledFlag true);
        choice 2 None DisabledUnset; choice 3 None DisabledUnset])
    (sampleRender
       [ISeparator "--"; choice 1 None (DisabledFlag true);
        choice 2 None DisabledUnset; choice 3 None DisabledUnset] [2])
    eq_refl).
Defined.

(** ** Up *)

Section UpTotal.
Variable Value : Type.
Local Abbreviation Item := (Item Value).

Lemma index_exists (A : Type) (l : list A) (i : Z) :
  0 <= i < len l -> exists x, index l i = Some x.
Proof.
  unfold index, len. intros Hi. destruct (Z.ltb_spec i 0); [lia|].
  destruct (nth_error l (Z.to_nat i)) eqn:E; [eauto|].
  apply nth_error_None in E. lia.
Qed.

Lemma expandedNonEmpty_index (l : list Item) (i : Z) (x : Item) :
  forallb (@expandedNonEmpty Value) l = true -> index l i = Some x ->
  expandedNonEmpty x = true.
Proof.
  intros Hall Hx. apply index_In in Hx.
  rewrite forallb_forall in Hall. now apply Hall.
Qed.

Lemma calcPrior_total (item : Item) :
  expandedNonEmpty item = true -> exists prior, calcPrior (Some item) = Ok prior.
Proof.
  induction item as [s|c|g inner IH] using Item_tree_ind; intros Hne.
  - simp calcPrior. eauto.
  - simp calcPrior. eauto.
  - simp calcPrior. simpl in Hne. apply andb_true_iff in Hne as [Hg Hall].
    destruct (truthy (expanded g)) eqn:He; simpl; [|eauto].
    simpl in Hg. apply negb_true_iff, Z.eqb_neq in Hg.
    assert (Hr : 0 <= len inner - 1 < len inner) by (unfold len in *; lia).
    destruct (index_exists inner Hr) as (x & Hx). rewrite Hx.
    rewrite Forall_forall in IH.
    destruct (IH x (index_In _ _ Hx) (expandedNonEmpty_index _ _ Hall Hx))
      as (prior & Hp).
    rewrite Hp. simpl. eauto.
Qed.

(** The sibling before the focused node is found by the loop of the
    Up branch. *)
Lemma follow_previous (rest : list Z) :
  forall (top : Z) (items : list Item) (node : Item),
    focused (index items top) rest = Ok (Some node) ->
    List.last (top :: rest) 0 <> 0 ->
    forallb (@expandedNonEmpty Value) items = true ->
    let n := dropLast (top :: rest) ++ [List.last (top :: rest) 0 - 1] in
    exists previous,
      follow (index items (hd 0 n)) (tl n) = Ok (Some previous)
      /\ expandedNonEmpty previous = true.
Proof.
  induction rest as [|b rest IH]; intros top items node Hf Hlast Hall.
  - simpl in *. injection Hf as Hf. apply index_in_range in Hf.
    destruct (@index_exists _ items (top - 1)) as (x & Hx); [lia|].
    exists x. rewrite Hx. split; [reflexivity|].
    eapply expandedNonEmpty_index; eassumption.
  - simpl in Hf.
    destruct (index items top) as [[s|c|g inner]|] eqn:Ht; try discriminate.
    assert (Hinner : forallb (@expandedNonEmpty Value) inner = true).
    { pose proof (expandedNonEmpty_index _ _ Hall Ht) as H. simpl in H.
      now apply andb_true_iff in H as [_ H]. }
    change (List.last (top :: b :: rest) 0) with (List.last (b :: rest) 0)
      in *.
    destruct (IH b inner node Hf Hlast Hinner) as (previous & Hp & Hne).
    exists previous. split; [|exact Hne].
    change (dropLast (top :: b :: rest)) with (top :: dropLast (b :: rest)).
    rewrite <- app_comm_cons. cbn [hd tl]. rewrite Ht.
    cbv zeta in Hp.
    destruct (dropLast (b :: rest) ++ [List.last (b :: rest) 0 - 1])
      as [|h t] eqn:En.
    + now apply app_eq_nil in En as [_ En].
    + cbn [follow]. cbn [hd tl] in Hp. exact Hp.
Qed.
End UpTotal.

(** C9: in a tree whose expanded groups all have a child, Up on a focus
    path that designates a node returns a focus path and does not
    throw. *)
Theorem up_total
  (Value : Type) (bounds : Bounds) (render : Session Value) :
  forallb (@expandedNonEmpty Value) (items render) = true ->
  validPath (items render) (active render) ->
  exists path,
    up bounds (items render) (active render) = Ok path
    /\ result (onUp bounds render render) = Ok tt
    /\ active (next (onUp bounds render render)) = path.
Proof.
  intros Hall Hvalid.
  assert (Hup : exists path, up bounds (items render) (active render) = Ok path).
  { destruct Hvalid as (node & Hnode). unfold nodeAt in Hnode.
    destruct (active render) as [|top rest]; [discriminate|].
    destruct (focused (index (items render) top) rest) as [o|e] eqn:Hf;
      [|discriminate].
    subst o. unfold up.
    destruct ((len (top :: rest) =? 1) && (hd 0 (top :: rest) =? 0)); [eauto|].
    destruct (Z.eqb_spec (List.last (top :: rest) 0) 0) as [|Hlast]; [eauto|].
    destruct (follow_previous rest top (items render) Hf Hlast Hall)
      as (previous & Hp & Hne).
    cbv zeta in Hp. rewrite Hp. simpl.
    destruct (calcPrior_total previous Hne) as (prior & Hprior).
    rewrite Hprior. simpl. eauto. }
  destruct Hup as (path & Hpath). exists path. split; [exact Hpath|].
  unfold onUp, bind, lift, setActive. cbn. rewrite Hpath. cbn. auto.
Qed.

Lemma up_total_witness :
  let render :=
    sampleRender [group (Some true) [choice 1 None DisabledUnset;
                                     choice 2 None DisabledUnset];
                  choice 3 None DisabledUnset] [1] in
  exists path,
    up (mkBounds 0 1) (items render) (active render) = Ok path
    /\ result (onUp (mkBounds 0 1) render render) = Ok tt
    /\ active (next (onUp (mkBounds 0 1) render render)) = path.
Proof.
  apply (@up_total nat (mkBounds 0 1)
    (sampleRender [group (Some true) [choice 1 None DisabledUnset;
                                      choice 2 None DisabledUnset];
                   choice 3 None DisabledUnset] [1])).
  - reflexivity.
  - exists (choice 3 None DisabledUnset). reflexivity.
Defined.

(** On that tree Up from the second root item lands on the last child
    of the expanded group before it. *)
Example up_lands_on_last_child :
  up (mkBounds 0 1)
     [group (Some true) [choice 1 None DisabledUnset;
                         choice 2 None DisabledUnset];
      choice 3 None DisabledUnset] [1]
  = Ok [0; 1].
Proof. reflexivity. Qed.

(** The guard of [calcPrior] is the [expanded] flag alone: with an
    expanded group that has no child the descent indexes [-1] and
    throws. *)
Lemma up_throws_on_empty_expanded_group :
  up (mkBounds 0 1) [group (Some true) []; choice 3 None DisabledUnset] [1]
  = Throw TypeError.
Proof. reflexivity. Qed.

(** ** Down at the end of the root list, and Invert *)

Section DownFacts.
Variable Value : Type.

(** At depth 1 Down either descends or adds one to the index; neither
    [loop] nor [bounds] nor the length of [items] is consulted. *)
Lemma down_at_root (items : list (Item Value)) (i : Z) (item : Item Value) :
  index items i = Some item ->
  down items [i] = if descendsInto item then Ok [i; 0] else Ok [i + 1].
Proof.
  intros Hi. unfold down. simpl. rewrite Hi.
  destruct item as [s|c|g inner]; simpl; try reflexivity.
  all: destruct (truthy (expanded g) && negb (len inner =? 0)); reflexivity.
Qed.
End DownFacts.

(** C5 at the failing input: with [loop = false] and the focus on the
    last root item, which is also the last selectable one, Down moves
    the focus to index 2, where [items] has nothing; the next Down
    throws. *)
Theorem down_runs_past_last_item :
  let tree := [choice 1 None DisabledUnset; choice 2 None DisabledUnset] in
  let config := sampleConfig false false accepting tree in
  let downKey := mkKey "down" false "" in
  let r := press inquirerKeys config (mkBounds 0 1) (sampleRender tree [1]) downKey in
  computeBounds tree = Ok (mkBounds 0 1)
  /\ loop config = false
  /\ result r = Ok tt
  /\ active (next r) = [2]
  /\ index tree 2 = None
  /\ result (press inquirerKeys config (mkBounds 0 1) (next r) downKey)
     = Throw TypeError.
Proof. vm_compute. intuition. Qed.

(** What Invert writes: every [Choice] of the tree gets the negation of
    its [checked], whether it is disabled or not. *)
Lemma toggle_allChoices (Value : Type) (item : Item Value) :
  allChoices (toggle item)
  = map (fun c => withChecked (negb (truthy (checked c))) c) (allChoices item).
Proof.
  induction item as [s|c|g inner IH] using Item_tree_ind; simpl;
    try reflexivity.
  induction IH as [|x l Hx _ IHl]; simpl; [reflexivity|].
  now rewrite map_app, Hx, IHl.
Qed.

(** C6 at the failing input: Invert checks the disabled choice, which
    Select All leaves alone, and Enter then returns its value. *)
Theorem invert_flips_disabled_choice :
  let tree := [choice 1 None DisabledUnset; choice 2 None (DisabledFlag true)] in
  let config := sampleConfig true false accepting tree in
  let r := press inquirerKeys config (mkBounds 0 0) (sampleRender tree [0])
                 (mkKey "i" false "i") in
  items (next r) = [choice 1 (Some true) DisabledUnset;
                    choice 2 (Some true) (DisabledFlag true)]
  /\ selectAll tree = [choice 1 (Some true) DisabledUnset;
                        choice 2 None (DisabledFlag true)]
  /\ In (CallDone [1%nat; 2%nat])
        (effects (press inquirerKeys config (mkBounds 0 0) (next r)
                        (mkKey "return" false ""))).
Proof. vm_compute. intuition. Qed.

(** * Further properties of the prompt *)

(** ** Bounds *)

Section BoundsInvariance.
Variable Value : Type.
Local Abbreviation Item := (Item Value).

Lemma findIndexFrom_map (A : Type) (p : A -> bool) (l : list A) :
  forall s, findIndexFrom p s l = findIndexFrom (fun b : bool => b) s (map p l).
Proof.
  induction l as [|x l IH]; intros s; simpl; [reflexivity|].
  now rewrite IH.
Qed.

Lemma findLastIndexFrom_map (A : Type) (p : A -> bool) (l : list A) :
  forall s,
    findLastIndexFrom p s l = findLastIndexFrom (fun b : bool => b) s (map p l).
Proof.
  induction l as [|x l IH]; intros s; simpl; [reflexivity|].
  now rewrite IH.
Qed.

(** [bounds] reads nothing of the items but which of them are
    selectable. *)
Lemma computeBounds_selectable (items items' : list Item) :
  map (@isSelectable Value) items' = map (@isSelectable Value) items ->
  computeBounds items' = computeBounds items.
Proof.
  intros H. unfold computeBounds, findIndex, findLastIndex.
  rewrite (findIndexFrom_map _ items'), (findLastIndexFrom_map _ items'), H.
  now rewrite <- findIndexFrom_map, <- findLastIndexFrom_map.
Qed.

Lemma map_sequence_mapi (B : Type) (P : Item -> B)
  (f : Item -> Z -> Result Item) :
  (forall x i y, f x i = Ok y -> P y = P x) ->
  forall (l : list Item) (s : Z) (l' : list Item),
    sequence (mapi f s l) = Ok l' -> map P l' = map P l.
Proof.
  intros Hf. induction l as [|x l IH]; intros s l' H; simpl in H.
  - now injection H as <-.
  - destruct (f x s) as [y|e] eqn:Hy; simpl in H; [|discriminate].
    destruct (sequence (mapi f (s + 1) l)) as [rest|e] eqn:Hrest; simpl in H;
      [|discriminate].
    injection H as <-. simpl. now rewrite (Hf _ _ _ Hy), (IH _ _ Hrest).
Qed.

Lemma expandItem_selectable (active : list Z) (depth : Z) (item : Item) (idx : Z) :
  isSelectable (expandItem active depth item idx) = isSelectable item.
Proof.
  destruct item as [s|c|g inner]; simpl; try reflexivity.
  destruct (negb (sameIndex (index active depth) idx)); reflexivity.
Qed.

Lemma collapseItem_selectable (active : list Z) (depth : Z) (b : bool)
  (item : Item) (idx : Z) :
  isSelectable (collapseItem active depth b item idx) = isSelectable item.
Proof.
  destruct item as [s|c|g inner]; simpl; try reflexivity.
  destruct (b || sameIndex (index active depth) idx); reflexivity.
Qed.

Lemma spaceItem_selectable (active : list Z) (depth : Z) (item : Item) (idx : Z)
  (y : Item) :
  spaceItem active depth item idx = Ok y -> isSelectable y = isSelectable item.
Proof.
  destruct item as [s|c|g inner]; simpl;
    destruct (sameIndex (index active depth) idx);
    destruct (depth =? len active - 1); try (intros [= <-]; reflexivity);
    try discriminate.
  - destruct (isSelectable (IChoice c)) eqn:E; intros [= <-];
      [rewrite <- E; reflexivity | exact E].
  - destruct (sequence (mapi (spaceItem active (depth + 1)) 0 inner)); simpl;
      [intros [= <-]; reflexivity | discriminate].
Qed.

Lemma check_selectable (b : bool) (item : Item) :
  isSelectable (check b item) = isSelectable item.
Proof.
  destruct item as [s|c|g inner]; simpl; try reflexivity.
  destruct (isSelectable (IChoice c)) eqn:E; [|exact E].
  rewrite <- E. reflexivity.
Qed.

Lemma toggle_selectable (item : Item) :
  isSelectable (toggle item) = isSelectable item.
Proof. destruct item; reflexivity. Qed.

Lemma expand_selectable (items : list Item) (active : list Z) :
  map (@isSelectable Value) (expand items active) = map (@isSelectable Value) items.
Proof.
  unfold expand. apply map_mapi_Forall, Forall_forall.
  intros x _ i. apply expandItem_selectable.
Qed.

Lemma collapse_selectable (items : list Item) (active : list Z) :
  map (@isSelectable Value) (collapse items active) = map (@isSelectable Value) items.
Proof.
  unfold collapse. apply map_mapi_Forall, Forall_forall.
  intros x _ i. apply collapseItem_selectable.
Qed.

Lemma space_selectable (items items' : list Item) (active : list Z) :
  space items active = Ok items' ->
  map (@isSelectable Value) items' = map (@isSelectable Value) items.
Proof.
  apply map_sequence_mapi. intros x i y. apply spaceItem_selectable.
Qed.

Lemma selectAll_selectable (items : list Item) :
  map (@isSelectable Value) (selectAll items) = map (@isSelectable Value) items.
Proof.
  unfold selectAll. rewrite map_map. apply map_ext, check_selectable.
Qed.

Lemma invert_selectable (items : list Item) :
  map (@isSelectable Value) (invert items) = map (@isSelectable Value) items.
Proof.
  unfold invert. rewrite map_map. apply map_ext, toggle_selectable.
Qed.
End BoundsInvariance.

(** X1: whatever key is pressed, and whether or not its handler throws,
    the items it leaves have the same selectable root items, so the
    [bounds] recomputed on the next render is the value (or the error)
    computed on this one. *)
Theorem press_keeps_bounds
  (Value : Type) (tests : KeyTests) (config : Config Value) (bounds : Bounds)
  (render : Session Value) (key : KeypressEvent) :
  computeBounds (items (next (press tests config bounds render key)))
  = computeBounds (items render).
Proof.
  apply computeBounds_selectable. unfold press, useKeypress.
  destruct (isEnterKey tests key).
  { unfold onEnter, awaitValidate, bind, emit, lift. cbn.
    destruct (validate config _) as [v|e]; cbn; [|reflexivity].
    destruct (required config && _); cbn; [reflexivity|].
    destruct (isTrue v); reflexivity. }
  destruct (isDownKey tests key).
  { unfold onDown, bind, lift. cbn. destruct (down _ _); reflexivity. }
  destruct (isUpKey tests key).
  { unfold onUp, bind, lift. cbn. destruct (up _ _ _); reflexivity. }
  destruct (isRightKey key).
  { unfold onRight, setItems. cbn. apply expand_selectable. }
  destruct (isLeftKey key).
  { unfold onLeft, bind, setItems. cbn.
    destruct (1 <? len (active render)); cbn; apply collapse_selectable. }
  destruct (isSpaceKey tests key).
  { unfold onSpace, bind, lift, setError, setShowHelpTip, setItems. cbn.
    destruct (space (items render) (active render)) as [mapped|e] eqn:Hs; cbn;
      [|reflexivity].
    now apply space_selectable with (active := active render). }
  destruct (String.eqb (keyName key) "a").
  { unfold onSelectAll, setItems. cbn. apply selectAll_selectable. }
  destruct (String.eqb (keyName key) "i").
  { unfold onInvert, setItems. cbn. apply invert_selectable. }
  destruct (String.eqb (keySequence key) "?").
  { unfold onHelp, bind, lift. cbn.
    destruct (match active render with [] => _ | _ => _ end) as [[[s|c|g inner]|]|e];
      cbn; try reflexivity.
    - destruct (help c); reflexivity.
    - destruct (ghelp g); reflexivity. }
  destruct (isNumberKey tests key); reflexivity.
Qed.

(** X2: when [bounds] is computed, both indices designate root items and
    [first] does not exceed [last]. *)
Theorem bounds_in_range
  (Value : Type) (items : list (Item Value)) (bounds : Bounds) :
  computeBounds items = Ok bounds ->
  0 <= first bounds <= last bounds /\ last bounds < len items.
Proof.
  intros Hb. destruct (existsb (@isSelectable Value) items) eqn:He.
  - destruct (computeBounds_some _ He) as (Hb' & Hf & Hl).
    rewrite Hb in Hb'. injection Hb' as ->. simpl.
    destruct Hf as ((x & Hx & Hpx) & Hbefore).
    destruct Hl as ((y & Hy & Hpy) & Hafter).
    pose proof (index_in_range _ _ Hx). pose proof (index_in_range _ _ Hy).
    split; [|lia]. split; [lia|].
    destruct (Z_le_gt_dec (findIndex (@isSelectable Value) items)
                          (findLastIndex (@isSelectable Value) items)); [assumption|].
    assert (isSelectable y = false) by (eapply Hbefore; [|exact Hy]; lia).
    congruence.
  - rewrite (computeBounds_none _ He) in Hb. discriminate.
Qed.

Lemma bounds_in_range_witness :
  let tree := [ISeparator "--"; choice 1 None DisabledUnset;
               choice 2 None DisabledUnset; choice 3 None (DisabledFlag true)] in
  computeBounds tree = Ok (mkBounds 1 2)
  /\ (0 <= 1 <= 2 /\ 2 < len tree).
Proof.
  split; [reflexivity|].
  exact (@bounds_in_range nat
    [ISeparator "--"; choice 1 None DisabledUnset;
     choice 2 None DisabledUnset; choice 3 None (DisabledFlag true)]
    (mkBounds 1 2) eq_refl).
Defined.

(** ** Enter *)

Section EnterFacts.
Variable Value : Type.
Local Abbreviation Item := (Item Value).

Lemma orMessage_nonempty (isValid : Validity) :
  orMessage isValid "You must select a valid value" <> "".
Proof.
  destruct isValid as [b|s]; simpl; [discriminate|].
  destruct (String.eqb_spec s ""); [discriminate | assumption].
Qed.

Lemma anyChecked_getChecked (item : Item) :
  anyChecked item = true -> getChecked item <> [].
Proof.
  induction item as [s|c|g inner IH] using Item_tree_ind; simpl.
  - discriminate.
  - unfold isChecked; simpl. intros [_ H]%andb_true_iff. now rewrite H.
  - induction IH as [|x l Hx _ IHl]; simpl; [discriminate|].
    intros [H|H]%orb_true_iff Hnil; apply app_eq_nil in Hnil as [Hx' Hl'].
    + now apply Hx.
    + now apply IHl.
Qed.

Lemma selection_nonempty (items : list Item) :
  existsb (@anyChecked Value) items = true ->
  flat_map (@getChecked Value) items <> [].
Proof.
  induction items as [|x l IH]; simpl; [discriminate|].
  intros [H|H]%orb_true_iff Hnil; apply app_eq_nil in Hnil as [Hx Hl].
  - now apply (anyChecked_getChecked x).
  - now apply IH.
Qed.
End EnterFacts.

(** X3: once [validate] has resolved, Enter has one of two outcomes.  If
    it resolved to [true] and the [required] test passes, the status
    becomes [done] and [done] receives the values of the flattened
    selection, in tree order.  Otherwise [done] is not called, the
    status is kept and an error message is recorded that is never the
    empty string.  The items and the focus path are kept in both. *)
Theorem enter_outcome
  (Value : Type) (config : Config Value) (render : Session Value)
  (isValid : Validity) :
  let selection := flat_map (@getChecked Value) (items render) in
  let blocked := required config
                 && negb (existsb (@anyChecked Value) (items render)) in
  let r := onEnter config render render in
  validate config selection = Ok isValid ->
  result r = Ok tt
  /\ items (next r) = items render
  /\ active (next r) = active render
  /\ if negb blocked && isTrue isValid
     then status (next r) = Done
          /\ errorMsg (next r) = errorMsg render
          /\ effects r = [CallValidate selection;
                          CallDone (map (@value Value) selection)]
     else status (next r) = status render
          /\ effects r = [CallValidate selection]
          /\ exists msg, errorMsg (next r) = Some msg /\ msg <> "".
Proof.
  intros selection blocked r Hval. subst r blocked.
  unfold onEnter, awaitValidate, bind, emit, lift. cbn.
  fold selection. rewrite Hval. cbn.
  destruct (required config && negb (existsb (@anyChecked Value) (items render)));
    cbn.
  - repeat split. eexists. split; [reflexivity | discriminate].
  - destruct (isTrue isValid) eqn:Ht; cbn.
    + repeat split.
    + repeat split. eexists. split; [reflexivity | apply orMessage_nonempty].
Qed.

Lemma enter_outcome_witness :
  let tree := [choice 1 (Some true) DisabledUnset; choice 2 None DisabledUnset] in
  let r := onEnter (sampleConfig true true accepting tree)
                   (sampleRender tree [0]) (sampleRender tree [0]) in
  status (next r) = Done
  /\ effects r = [CallValidate (flat_map (@getChecked nat) tree); CallDone [1%nat]].
Proof.
  cbv zeta.
  pose proof (@enter_outcome nat
    (sampleConfig true true accepting
       [choice 1 (Some true) DisabledUnset; choice 2 None DisabledUnset])
    (sampleRender
       [choice 1 (Some true) DisabledUnset; choice 2 None DisabledUnset] [0])
    (VBool true) eq_refl) as (_ & _ & _ & H).
  cbn in H. destruct H as (H1 & _ & H2). split; [exact H1 | exact H2].
Defined.

(** X4: when [required] is set, the array handed to [done] is never
    empty. *)
Theorem required_result_nonempty
  (Value : Type) (config : Config Value) (render : Session Value)
  (values : list Value) :
  required config = true ->
  In (CallDone values) (effects (onEnter config render render)) ->
  values <> [].
Proof.
  intros Hreq. unfold onEnter, awaitValidate, bind, emit, lift. cbn.
  destruct (validate config _) as [v|e]; cbn.
  - rewrite Hreq. cbn.
    destruct (existsb (@anyChecked Value) (items render)) eqn:Hany; cbn.
    + destruct (isTrue v); cbn.
      * intros [H|[H|[]]]; [discriminate|]. injection H as <-.
        intros Hnil. apply map_eq_nil in Hnil.
        now apply (selection_nonempty _ Hany).
      * intros [H|[]]. discriminate.
    + intros [H|[]]. discriminate.
  - intros [H|[]]. discriminate.
Qed.

Lemma required_result_nonempty_witness : [1%nat] <> [].
Proof.
  apply (@required_result_nonempty nat
    (sampleConfig true true accepting
       [choice 1 (Some true) DisabledUnset; choice 2 None DisabledUnset])
    (sampleRender
       [choice 1 (Some true) DisabledUnset; choice 2 None DisabledUnset] [0])
    [1%nat] eq_refl).
  vm_compute. right. left. reflexivity.
Defined.

(** ** Invert *)

Section InvertFacts.
Variable Value : Type.
Local Abbreviation Item := (Item Value).

Lemma flat_map_allChoices_invert (items : list Item) :
  flat_map (@allChoices Value) (invert items)
  = map (fun c => withChecked (negb (truthy (checked c))) c)
        (flat_map (@allChoices Value) items).
Proof.
  unfold invert. induction items as [|x l IH]; simpl; [reflexivity|].
  now rewrite map_app, toggle_allChoices, IH.
Qed.

Lemma filter_checked_toggled (cs : list (Choice Value)) :
  filter (fun c => truthy (checked c))
         (map (fun c => withChecked (negb (truthy (checked c))) c) cs)
  = map (withChecked true)
        (filter (fun c => negb (truthy (checked c))) cs).
Proof.
  induction cs as [|c l IH]; simpl; [reflexivity|].
  destruct (truthy (checked c)); simpl; now rewrite IH.
Qed.

Lemma filter_unchecked_toggled (cs : list (Choice Value)) :
  filter (fun c => negb (truthy (checked c)))
         (map (fun c => withChecked (negb (truthy (checked c))) c) cs)
  = map (withChecked false) (filter (fun c => truthy (checked c)) cs).
Proof.
  induction cs as [|c l IH]; simpl; [reflexivity|].
  destruct (truthy (checked c)); simpl; now rewrite IH.
Qed.
End InvertFacts.

(** X5: after Invert the flattened selection is exactly the choices
    that were not checked before, in tree order, now checked; disabled
    choices are not exempt. *)
Theorem invert_selects_the_unchecked
  (Value : Type) (items : list (Item Value)) :
  flat_map (@getChecked Value) (invert items)
  = map (withChecked true)
        (filter (fun c => negb (truthy (checked c)))
                (flat_map (@allChoices Value) items)).
Proof.
  now rewrite selection_filter, flat_map_allChoices_invert, filter_checked_toggled.
Qed.

(** X6: Invert pressed twice gives back the selection: the same choices
    in the same order, their [checked] field now the boolean [true]. *)
Theorem invert_twice_keeps_selection
  (Value : Type) (items : list (Item Value)) :
  flat_map (@getChecked Value) (invert (invert items))
  = map (withChecked true) (flat_map (@getChecked Value) items)
  /\ map (@value Value) (flat_map (@getChecked Value) (invert (invert items)))
     = map (@value Value) (flat_map (@getChecked Value) items).
Proof.
  assert (H : flat_map (@getChecked Value) (invert (invert items))
              = map (withChecked true) (flat_map (@getChecked Value) items)).
  { rewrite (selection_filter (invert (invert items))).
    rewrite !flat_map_allChoices_invert, filter_checked_toggled.
    rewrite filter_unchecked_toggled, map_map, <- selection_filter.
    reflexivity. }
  split; [exact H|]. rewrite H, map_map. reflexivity.
Qed.

(** ** Select all in a tree with a [Separator] or a disabled choice *)

Section SelectAllStuck.
Variable Value : Type.
Local Abbreviation Item := (Item Value).

Lemma existsb_filter_nonempty (A : Type) (p : A -> bool) (l : list A) :
  existsb p l = true <-> filter p l <> [].
Proof.
  induction l as [|x l IH]; simpl; [split; [discriminate | congruence]|].
  destruct (p x); simpl; [split; [discriminate | reflexivity] | exact IH].
Qed.

Lemma allChecked_unselectable_leaf (item : Item) :
  existsb (@unselectable Value) (leaves item) = true -> allChecked item = false.
Proof.
  induction item as [s|c|g inner IH] using Item_tree_ind; simpl.
  - reflexivity.
  - unfold unselectable, isChecked. rewrite orb_false_r.
    intros ->%negb_true_iff. reflexivity.
  - induction IH as [|x l Hx _ IHl]; simpl; [discriminate|].
    rewrite existsb_app. intros [H|H]%orb_true_iff.
    + now rewrite Hx.
    + rewrite IHl by assumption. apply andb_false_r.
Qed.

Lemma every_allChecked_unselectable_leaf (items : list Item) :
  existsb (@unselectable Value) (flat_map (@leaves Value) items) = true ->
  forallb (@allChecked Value) items = false.
Proof.
  induction items as [|x l IH]; simpl; [discriminate|].
  rewrite existsb_app. intros [H|H]%orb_true_iff.
  - now rewrite allChecked_unselectable_leaf.
  - rewrite IH by assumption. apply andb_false_r.
Qed.

Lemma check_idempotent (b : bool) (item : Item) :
  check b (check b item) = check b item.
Proof.
  induction item as [s|c|g inner IH] using Item_tree_ind; simpl.
  - reflexivity.
  - destruct (isSelectable (IChoice c)) eqn:E; simpl; [|now rewrite E].
    replace (isSelectable (IChoice (withChecked b c))) with true by (now rewrite <- E).
    reflexivity.
  - f_equal. rewrite map_map.
    induction IH as [|x l Hx _ IHl]; simpl; [reflexivity|].
    now rewrite Hx, IHl.
Qed.
End SelectAllStuck.

(** X7: in a tree that holds a [Separator] or a disabled choice
    anywhere, ['a'] only ever checks: it sets every selectable choice to
    checked whatever the state before, and pressing it again changes
    nothing. *)
Theorem select_all_never_unchecks
  (Value : Type) (items : list (Item Value)) :
  existsb (@unselectable Value) (flat_map (@leaves Value) items) = true ->
  selectAll items = map (check true) items
  /\ selectAll (selectAll items) = selectAll items.
Proof.
  intros Hleaf.
  assert (H1 : selectAll items = map (check true) items).
  { unfold selectAll. now rewrite every_allChecked_unselectable_leaf. }
  split; [exact H1|]. rewrite H1. unfold selectAll.
  rewrite every_allChecked_unselectable_leaf.
  - simpl. rewrite map_map. apply map_ext, check_idempotent.
  - apply existsb_filter_nonempty. rewrite items_check_frame.
    now apply existsb_filter_nonempty.
Qed.

Lemma select_all_never_unchecks_witness :
  let tree := [ISeparator "--"; choice 1 (Some true) DisabledUnset] in
  selectAll tree = map (check true) tree
  /\ selectAll (selectAll tree) = selectAll tree.
Proof.
  exact (@select_all_never_unchecks nat
    [ISeparator "--"; choice 1 (Some true) DisabledUnset] eq_refl).
Defined.

(** ** Down and Up *)

Section Paths.
Variable Value : Type.
Local Abbreviation Item := (Item Value).

Lemma down_unfold (items : list Item) (active : list Z) :
  down items active
  = rbind (hierarchyFrom items [] active) (fun h => downFrom h active).
Proof. reflexivity. Qed.

Lemma up_unfold (bounds : Bounds) (items : list Item) (active : list Z) :
  up bounds items active
  = if (len active =? 1) && (hd 0 active =? 0) then Ok [last bounds]
    else upCore items active.
Proof. reflexivity. Qed.

Lemma hierarchyFrom_step (choices acc : list Item) (i : Z) (rest : list Z) :
  hierarchyFrom choices acc (i :: rest)
  = match index choices i with
    | None => Throw TypeError
    | Some x => hierarchyFrom (childrenOf x) (acc ++ [x]) rest
    end.
Proof. simpl. destruct (index choices i) as [[s|c|g inner]|]; reflexivity. Qed.

Lemma hierarchyFrom_acc (active : list Z) :
  forall choices acc : list Item,
    hierarchyFrom choices acc active
    = rbind (hierarchyFrom choices [] active) (fun ns => Ok (acc ++ ns)).
Proof.
  induction active as [|i rest IH]; intros choices acc.
  - simpl. now rewrite app_nil_r.
  - rewrite !hierarchyFrom_step. destruct (index choices i) as [x|]; [|reflexivity].
    rewrite (IH _ (acc ++ [x])), (IH _ ([] ++ [x])).
    destruct (hierarchyFrom (childrenOf x) [] rest); simpl; [|reflexivity].
    now rewrite <- app_assoc.
Qed.

Lemma hierarchyFrom_cons (choices : list Item) (i : Z) (rest : list Z) (x : Item) :
  index choices i = Some x ->
  hierarchyFrom choices [] (i :: rest)
  = rbind (hierarchyFrom (childrenOf x) [] rest) (fun ns => Ok (x :: ns)).
Proof.
  intros Hx. rewrite hierarchyFrom_step, Hx, hierarchyFrom_acc. reflexivity.
Qed.

Lemma hierarchyFrom_length (active : list Z) :
  forall choices ns : list Item,
    hierarchyFrom choices [] active = Ok ns -> List.length ns = List.length active.
Proof.
  induction active as [|i rest IH]; intros choices ns H.
  - simpl in H. now injection H as <-.
  - rewrite hierarchyFrom_step in H.
    destruct (index choices i) as [x|]; [|discriminate].
    rewrite hierarchyFrom_acc in H.
    destruct (hierarchyFrom (childrenOf x) [] rest) as [ms|] eqn:E;
      [|discriminate].
    simpl in H. injection H as <-. simpl. f_equal. now apply IH with (childrenOf x).
Qed.

Lemma len_cons (A : Type) (x : A) (l : list A) : len (x :: l) = len l + 1.
Proof. unfold len. simpl List.length. lia. Qed.

Lemma len_nonneg (A : Type) (l : list A) : 0 <= len l.
Proof. unfold len. lia. Qed.

(** Below the first two levels the Down branch works on the tail of the
    path. *)
Lemma downFrom_cons (x : Item) (ns : list Item) (i : Z) (rest : list Z) :
  List.length ns = List.length rest ->
  (2 <= List.length rest)%nat ->
  downFrom (x :: ns) (i :: rest)
  = rbind (downFrom ns rest) (fun p => Ok (i :: p)).
Proof.
  intros Hlen Hrest.
  assert (Hns : 2 <= len ns) by (unfold len; lia).
  assert (Hr : 2 <= len rest) by (unfold len; lia).
  unfold downFrom.
  rewrite (len_cons x ns), (len_cons i rest).
  replace (len ns + 1 - 1) with (len ns - 1 + 1) by lia.
  replace (len ns + 1 - 2) with (len ns - 2 + 1) by lia.
  rewrite (index_cons x ns (i := len ns - 1 + 1)) by lia.
  rewrite (index_cons x ns (i := len ns - 2 + 1)) by lia.
  replace (len ns - 1 + 1 - 1) with (len ns - 1) by lia.
  replace (len ns - 2 + 1 - 1) with (len ns - 2) by lia.
  destruct (Z.eqb_spec (len rest + 1) 1); [lia|].
  destruct (Z.eqb_spec (len rest) 1); [lia|].
  destruct rest as [|j [|k rest3]]; simpl in Hrest; try lia.
  assert (Hlast : List.last (i :: j :: k :: rest3) 0 = List.last (j :: k :: rest3) 0)
    by reflexivity.
  assert (Hdrop : dropLast (i :: j :: k :: rest3) = i :: dropLast (j :: k :: rest3))
    by reflexivity.
  assert (Hdrop2 : dropLast (j :: k :: rest3) = j :: dropLast (k :: rest3))
    by reflexivity.
  rewrite Hlast, Hdrop.
  assert (Hdd : dropLast (i :: dropLast (j :: k :: rest3))
                = i :: dropLast (dropLast (j :: k :: rest3))).
  { rewrite Hdrop2. reflexivity. }
  assert (Hld : List.last (i :: dropLast (j :: k :: rest3)) 0
                = List.last (dropLast (j :: k :: rest3)) 0).
  { rewrite Hdrop2. reflexivity. }
  rewrite Hdd, Hld.
  clear Hlast Hdrop Hdrop2 Hdd Hld Hlen Hrest Hr.
  remember (j :: k :: rest3) as r eqn:Er. clear Er.
  destruct (index ns (len ns - 1)) as [[s|c|g inner]|]; simpl; try reflexivity.
  3: destruct (truthy (expanded g) && negb (len inner =? 0)); simpl;
     [reflexivity|].
  all: destruct (index ns (len ns - 2)) as [[s'|c'|g' sib]|]; simpl;
    try reflexivity.
  all: destruct (List.last r 0 + 1 <? len sib); reflexivity.
Qed.

Lemma down_cons (choices : list Item) (i : Z) (rest : list Z)
  (g : GroupHead) (inner : list Item) :
  index choices i = Some (IGroup g inner) ->
  (2 <= List.length rest)%nat ->
  down choices (i :: rest) = rbind (down inner rest) (fun p => Ok (i :: p)).
Proof.
  intros Hi Hrest. rewrite !down_unfold, (hierarchyFrom_cons choices i rest Hi). simpl.
  destruct (hierarchyFrom inner [] rest) as [ns|e] eqn:Hh; simpl; [|reflexivity].
  apply downFrom_cons; [|assumption]. now apply hierarchyFrom_length with inner.
Qed.

Lemma upCore_cons (items : list Item) (i : Z) (rest : list Z)
  (g : GroupHead) (inner : list Item) :
  index items i = Some (IGroup g inner) ->
  rest <> [] ->
  upCore items (i :: rest) = rbind (upCore inner rest) (fun p => Ok (i :: p)).
Proof.
  intros Hi Hrest. destruct rest as [|j rest]; [congruence|]. unfold upCore.
  change (List.last (i :: j :: rest) 0) with (List.last (j :: rest) 0).
  change (dropLast (i :: j :: rest)) with (i :: dropLast (j :: rest)).
  destruct (List.last (j :: rest) 0 =? 0); [reflexivity|].
  cbv zeta. rewrite <- app_comm_cons. cbn [hd tl]. rewrite Hi.
  destruct (dropLast (j :: rest) ++ [List.last (j :: rest) 0 - 1]) as [|h t] eqn:En.
  { now apply app_eq_nil in En as [_ En]. }
  cbn [follow hd tl].
  destruct (follow (index inner h) t) as [ptr|e]; simpl; [|reflexivity].
  destruct (calcPrior ptr); reflexivity.
Qed.
End Paths.

Section DownThenUp.
Variable Value : Type.
Local Abbreviation Item := (Item Value).

(** An item Down does not descend into has no trailing path, provided
    its expanded groups have children. *)
Lemma calcPrior_not_descending (x : Item) :
  descendsInto x = false -> expandedNonEmpty x = true ->
  calcPrior (Some x) = Ok [].
Proof.
  destruct x as [s|c|g inner]; simp calcPrior; try reflexivity.
  simpl. intros Hd [Hne _]%andb_true_iff.
  destruct (truthy (expanded g)); simpl in *; [|reflexivity].
  rewrite Hd in Hne. discriminate.
Qed.

Lemma upCore_next (l : list Item) (j : Z) (x : Item) :
  index l j = Some x ->
  descendsInto x = false -> expandedNonEmpty x = true ->
  upCore l [j + 1] = Ok [j].
Proof.
  intros Hj Hd Hne. pose proof (index_in_range _ _ Hj) as Hr.
  unfold upCore. cbn [List.last dropLast removelast app hd tl].
  destruct (Z.eqb_spec (j + 1) 0); [lia|].
  replace (j + 1 - 1) with j by lia. cbn [follow]. rewrite Hj. simpl.
  rewrite (calcPrior_not_descending x Hd Hne). reflexivity.
Qed.

Lemma downFrom_pair (g : GroupHead) (sib : list Item) (x : Item) (i j : Z) :
  downFrom [IGroup g sib; x] [i; j]
  = if descendsInto x then Ok [i; j; 0]
    else if j + 1 <? len sib then Ok [i; j + 1]
    else Ok [i + 1].
Proof.
  unfold downFrom. destruct x as [s|c|g' inner]; simpl.
  - destruct (j + 1 <? len sib); reflexivity.
  - destruct (j + 1 <? len sib); reflexivity.
  - destruct (truthy (expanded g') && negb (len inner =? 0)); simpl;
      [reflexivity|].
    destruct (j + 1 <? len sib); reflexivity.
Qed.

Lemma down_then_upCore (active : list Z) :
  forall choices : list Item,
    visiblePath choices active = true ->
    forallb (@expandedNonEmpty Value) choices = true ->
    exists p,
      down choices active = Ok p
      /\ upCore choices p = Ok active
      /\ (len p =? 1) && (hd 0 p =? 0) = false.
Proof.
  induction active as [|i rest IH]; intros choices Hvis Hall; [discriminate|].
  simpl in Hvis. destruct (index choices i) as [x|] eqn:Hi; [|discriminate].
  pose proof (index_in_range _ _ Hi) as Hri.
  pose proof (expandedNonEmpty_index _ _ Hall Hi) as Hx.
  destruct rest as [|j rest].
  - (* depth 1 *)
    rewrite (down_at_root choices i Hi).
    destruct (descendsInto x) eqn:Hd.
    + exists [i; 0]. repeat split.
    + exists [i + 1]. split; [reflexivity|].
      split; [now apply upCore_next with x|].
      simpl. destruct (Z.eqb_spec (i + 1) 0); [lia | reflexivity].
  - destruct x as [s|c|g inner]; try discriminate.
    apply andb_true_iff in Hvis as [Hexp Hvis].
    simpl in Hx. apply andb_true_iff in Hx as [_ Hinner].
    destruct rest as [|k rest3].
    + (* depth 2 *)
      simpl in Hvis. destruct (index inner j) as [y|] eqn:Hj; [|discriminate].
      pose proof (index_in_range _ _ Hj) as Hrj.
      pose proof (expandedNonEmpty_index _ _ Hinner Hj) as Hy.
      rewrite down_unfold, !hierarchyFrom_step, Hi. simpl childrenOf.
      rewrite hierarchyFrom_step, Hj. cbn [hierarchyFrom app rbind].
      rewrite downFrom_pair.
      destruct (descendsInto y) eqn:Hd.
      * exists [i; j; 0]. repeat split.
      * destruct (Z.ltb_spec (j + 1) (len inner)) as [Hlt|Hge].
        -- exists [i; j + 1]. split; [reflexivity|]. split; [|reflexivity].
           rewrite (@upCore_cons Value choices i [j + 1] g inner Hi) by discriminate.
           now rewrite (upCore_next inner j Hj Hd Hy).
        -- exists [i + 1]. split; [reflexivity|]. split.
           ++ unfold upCore. cbn [List.last dropLast removelast app hd tl].
              destruct (Z.eqb_spec (i + 1) 0); [lia|].
              replace (i + 1 - 1) with i by lia. cbn [follow]. rewrite Hi. simpl.
              simp calcPrior. rewrite Hexp. simpl.
              replace (len inner - 1) with j by lia. rewrite Hj.
              rewrite (calcPrior_not_descending y Hd Hy). reflexivity.
           ++ simpl. destruct (Z.eqb_spec (i + 1) 0); [lia | reflexivity].
    + (* deeper *)
      destruct (IH inner Hvis Hinner) as (p & Hdown & Hup & _).
      exists (i :: p).
      rewrite (@down_cons Value choices i (j :: k :: rest3) g inner Hi)
        by (simpl; lia).
      rewrite Hdown. split; [reflexivity|].
      assert (Hp : p <> []).
      { intros ->. discriminate. }
      rewrite (@upCore_cons Value choices i p g inner Hi Hp), Hup.
      split; [reflexivity|].
      destruct p as [|h t]; [congruence|].
      rewrite !len_cons. pose proof (len_nonneg t).
      destruct (Z.eqb_spec (len t + 1 + 1) 1); [lia | reflexivity].
Qed.
End DownThenUp.

(** X8: Up undoes Down.  In a tree whose expanded groups all have a
    child, from a focus path that designates a node through expanded
    groups only, Down returns a path and Up from that path returns the
    path Down started from; through the handlers, Down followed by Up
    leaves the focus where it was. *)
Theorem up_undoes_down
  (Value : Type) (bounds : Bounds) (render : Session Value) :
  visiblePath (items render) (active render) = true ->
  forallb (@expandedNonEmpty Value) (items render) = true ->
  (exists p,
     down (items render) (active render) = Ok p
     /\ up bounds (items render) p = Ok (active render))
  /\ let afterDown := onDown render render in
     let afterUp := onUp bounds (next afterDown) (next afterDown) in
     result afterDown = Ok tt
     /\ result afterUp = Ok tt
     /\ active (next afterUp) = active render
     /\ items (next afterUp) = items render.
Proof.
  intros Hvis Hall.
  destruct (down_then_upCore (active render) (items render) Hvis Hall)
    as (p & Hdown & Hup & Hwrap).
  assert (Hup' : up bounds (items render) p = Ok (active render)).
  { now rewrite up_unfold, Hwrap. }
  split; [eauto|].
  unfold onDown, onUp, bind, lift, setActive. cbn. rewrite Hdown. cbn.
  rewrite Hup'. cbn. auto.
Qed.

Lemma up_undoes_down_witness :
  let render :=
    sampleRender [group (Some true) [choice 1 None DisabledUnset;
                                     choice 2 None DisabledUnset];
                  choice 3 None DisabledUnset] [0; 1] in
  down (items render) (active render) = Ok [1]
  /\ up (mkBounds 0 1) (items render) [1] = Ok [0; 1].
Proof.
  cbv zeta.
  destruct (@up_undoes_down nat (mkBounds 0 1)
    (sampleRender [group (Some true) [choice 1 None DisabledUnset;
                                      choice 2 None DisabledUnset];
                   choice 3 None DisabledUnset] [0; 1])
    eq_refl eq_refl) as ((p & Hd & Hu) & _).
  assert (Hp : p = [1]) by (vm_compute in Hd; congruence).
  subst p. split; [exact Hd | exact Hu].
Defined.

(** ** Right and Left *)

Section ExpandCollapse.
Variable Value : Type.
Local Abbreviation Item := (Item Value).

Lemma index_mapi (A B : Type) (f : A -> Z -> B) (l : list A) :
  forall s j,
    index (mapi f s l) j
    = match index l j with Some x => Some (f x (s + j)) | None => None end.
Proof.
  induction l as [|x l IH]; intros s j.
  - unfold index. simpl. destruct (j <? 0); [reflexivity|].
    now destruct (Z.to_nat j).
  - destruct (Z.ltb_spec j 0) as [Hneg|Hpos].
    + unfold index. destruct (Z.ltb_spec j 0); [reflexivity | lia].
    + destruct (Z.eq_dec j 0) as [->|Hne].
      * cbn [mapi]. rewrite !index_zero. now rewrite Z.add_0_r.
      * cbn [mapi]. rewrite !index_cons by lia. rewrite IH.
        destruct (index l (j - 1)); [|reflexivity].
        now replace (s + 1 + (j - 1)) with (s + j) by lia.
Qed.

Lemma mapi_ext_index (A B : Type) (f g : A -> Z -> B) (l : list A) :
  forall s,
    (forall j x, index l j = Some x -> f x (s + j) = g x (s + j)) ->
    mapi f s l = mapi g s l.
Proof.
  induction l as [|x l IH]; intros s H; [reflexivity|]. cbn [mapi]. f_equal.
  - specialize (H 0 x (index_zero x l)). now rewrite Z.add_0_r in H.
  - apply IH. intros j y Hy. pose proof (index_in_range _ _ Hy).
    specialize (H (j + 1) y). rewrite index_cons in H by lia.
    replace (j + 1 - 1) with j in H by lia.
    replace (s + 1 + j) with (s + (j + 1)) by lia. now apply H.
Qed.

Lemma mapi_identity (A : Type) (f : A -> Z -> A) (l : list A) :
  forall s,
    (forall j x, index l j = Some x -> f x (s + j) = x) ->
    mapi f s l = l.
Proof.
  induction l as [|x l IH]; intros s H; [reflexivity|]. cbn [mapi]. f_equal.
  - specialize (H 0 x (index_zero x l)). now rewrite Z.add_0_r in H.
  - apply IH. intros j y Hy. pose proof (index_in_range _ _ Hy).
    specialize (H (j + 1) y). rewrite index_cons in H by lia.
    replace (j + 1 - 1) with j in H by lia.
    replace (s + 1 + j) with (s + (j + 1)) by lia. now apply H.
Qed.

Lemma index_past_end (pre : list Z) (a : Z) :
  index (pre ++ [a]) (len pre + 1) = None.
Proof.
  unfold index, len. destruct (Z.ltb_spec (Z.of_nat (List.length pre) + 1) 0); [lia|].
  apply nth_error_None. rewrite length_app. simpl. lia.
Qed.

Lemma expandItem_forgetExpanded (active : list Z) (item : Item) :
  forall depth idx,
    forgetExpanded (expandItem active depth item idx) = forgetExpanded item.
Proof.
  induction item as [s|c|g inner IH] using Item_tree_ind; intros depth idx;
    simpl; try reflexivity.
  destruct (negb (sameIndex (index active depth) idx)); [reflexivity|].
  simpl. f_equal. apply map_mapi_Forall.
  eapply Forall_impl; [|exact IH]. intros x Hx i. apply Hx.
Qed.

(** Right makes every group along the focus path expanded and writes
    nothing below the focused node. *)
Lemma expand_level (rest : list Z) :
  forall (pre : list Z) (a : Z) (items : list Item) (g : GroupHead)
         (inner : list Item),
    focused (index items a) rest = Ok (Some (IGroup g inner)) ->
    focused (index (mapi (expandItem (pre ++ a :: rest) (len pre)) 0 items) a) rest
    = Ok (Some (IGroup (withExpanded true g) inner)).
Proof.
  induction rest as [|b rest IH]; intros pre a items g inner Hf.
  - simpl in Hf. injection Hf as Hf. simpl. rewrite index_mapi, Hf. simpl.
    rewrite index_middle. simpl. rewrite Z.eqb_refl. simpl.
    do 3 f_equal. apply mapi_identity. intros j x _.
    destruct x as [s|c|g' inner']; simpl; try reflexivity.
    now rewrite index_past_end.
  - simpl in Hf. destruct (index items a) as [[s|c|g0 inner0]|] eqn:Ha;
      try discriminate.
    simpl. rewrite index_mapi, Ha. simpl. rewrite index_middle. simpl.
    rewrite Z.eqb_refl. simpl.
    specialize (IH (pre ++ [a]) b inner0 g inner Hf).
    rewrite <- app_assoc in IH. simpl in IH.
    assert (Hlen : len (pre ++ [a]) = len pre + 1).
    { unfold len. rewrite length_app. simpl. lia. }
    rewrite Hlen in IH. exact IH.
Qed.

Lemma collapseItem_selected (active : list Z) (item : Item) :
  forall depth idx, collapseItem active depth true item idx = collapseAll item.
Proof.
  induction item as [s|c|g inner IH] using Item_tree_ind; intros depth idx;
    simpl; try reflexivity.
  f_equal. rewrite <- (map_id (mapi _ 0 inner)).
  apply (@map_mapi_Forall Item Item Item (fun x => x) (@collapseAll Value)).
  eapply Forall_impl; [|exact IH]. intros x Hx i. apply Hx.
Qed.

Lemma collapse_index (items : list Item) (a : Z) (rest : list Z) (j : Z) :
  index (collapse items (a :: rest)) j
  = match index items j with
    | Some x => Some (if a =? j then collapseAll x else x)
    | None => None
    end.
Proof.
  unfold collapse. rewrite index_mapi.
  destruct (index items j) as [x|]; [|reflexivity]. f_equal.
  destruct x as [s|c|g inner]; simpl.
  - now destruct (a =? j).
  - now destruct (a =? j).
  - destruct (a =? j); [|reflexivity]. f_equal.
    rewrite <- (map_id (mapi _ 0 inner)).
    apply (@map_mapi_Forall Item Item Item (fun x => x) (@collapseAll Value)).
    apply Forall_forall. intros x _ i. apply collapseItem_selected.
Qed.

Lemma descendsInto_collapseAll (x : Item) : descendsInto (collapseAll x) = false.
Proof. destruct x; reflexivity. Qed.

(** The items met along a focus path end with the node it designates. *)
Lemma hierarchy_ends_with_node (rest : list Z) :
  forall (a : Z) (items : list Item) (node : Item),
    focused (index items a) rest = Ok (Some node) ->
    exists before,
      hierarchyFrom items [] (a :: rest) = Ok (before ++ [node]).
Proof.
  induction rest as [|b rest IH]; intros a items node Hf.
  - simpl in Hf. injection Hf as Hf. exists [].
    now rewrite (hierarchyFrom_cons items a [] Hf).
  - simpl in Hf. destruct (index items a) as [[s|c|g0 inner0]|] eqn:Ha;
      try discriminate.
    destruct (IH b inner0 node Hf) as (before & Hb).
    exists (IGroup g0 inner0 :: before).
    rewrite (hierarchyFrom_cons items a (b :: rest) Ha). simpl childrenOf.
    now rewrite Hb.
Qed.

Lemma index_last_of_app (A : Type) (before : list A) (x : A) :
  index (before ++ [x]) (len (before ++ [x]) - 1) = Some x.
Proof.
  unfold index, len. rewrite length_app. simpl.
  destruct (Z.ltb_spec (Z.of_nat (List.length before + 1) - 1) 0); [lia|].
  replace (Z.to_nat (Z.of_nat (List.length before + 1) - 1))
    with (List.length before) by lia.
  rewrite nth_error_app2 by lia. now rewrite Nat.sub_diag.
Qed.

(** Down on a node it descends into appends index 0, at any depth. *)
Lemma down_descends (items : list Item) (active : list Z) (node : Item) :
  nodeAt items active = Some node ->
  descendsInto node = true ->
  down items active = Ok (active ++ [0]).
Proof.
  unfold nodeAt. destruct active as [|a rest]; [discriminate|].
  destruct (focused (index items a) rest) as [o|e] eqn:Hf; [|discriminate].
  intros -> Hd. destruct (hierarchy_ends_with_node rest a items Hf) as (before & Hh).
  rewrite down_unfold, Hh. cbn [rbind]. unfold downFrom.
  rewrite index_last_of_app.
  destruct node as [s|c|g inner]; try discriminate.
  simpl in Hd. rewrite Hd. reflexivity.
Qed.
End ExpandCollapse.

Section ExpandFacts.
Variable Value : Type.
Local Abbreviation Item := (Item Value).

Lemma expand_forgetExpanded (items : list Item) (active : list Z) :
  map (@forgetExpanded Value) (expand items active)
  = map (@forgetExpanded Value) items.
Proof.
  unfold expand. apply map_mapi_Forall, Forall_forall.
  intros x _ i. apply expandItem_forgetExpanded.
Qed.

Lemma expand_nodeAt (items : list Item) (active : list Z) (g : GroupHead)
  (inner : list Item) :
  nodeAt items active = Some (IGroup g inner) ->
  nodeAt (expand items active) active = Some (IGroup (withExpanded true g) inner).
Proof.
  unfold nodeAt, expand. destruct active as [|a rest]; [discriminate|].
  destruct (focused (index items a) rest) as [o|e] eqn:Hf; [|discriminate].
  intros ->. pose proof (expand_level rest [] a items Hf) as H.
  cbn [app] in H. change (len (@nil Z)) with 0 in H. now rewrite H.
Qed.
End ExpandFacts.

(** X9: Right on a focused group never throws, changes [expanded]
    fields only, keeps the focus path, and leaves the focused group
    expanded with the children it had. *)
Theorem right_expands_focused_group
  (Value : Type) (render : Session Value) (g : GroupHead)
  (inner : list (Item Value)) :
  nodeAt (items render) (active render) = Some (IGroup g inner) ->
  let r := onRight render render in
  result r = Ok tt
  /\ active (next r) = active render
  /\ map (@forgetExpanded Value) (items (next r))
     = map (@forgetExpanded Value) (items render)
  /\ nodeAt (items (next r)) (active (next r))
     = Some (IGroup (withExpanded true g) inner).
Proof.
  intros Hnode. unfold onRight, setItems. cbn.
  split; [reflexivity|]. split; [reflexivity|].
  split; [apply expand_forgetExpanded | now apply expand_nodeAt].
Qed.

Lemma right_expands_focused_group_witness :
  let render :=
    sampleRender [group (Some false) [choice 1 None DisabledUnset;
                                      choice 2 None DisabledUnset];
                  choice 3 None DisabledUnset] [0] in
  nodeAt (items (next (onRight render render))) [0]
  = Some (group (Some true) [choice 1 None DisabledUnset;
                             choice 2 None DisabledUnset]).
Proof.
  cbv zeta.
  destruct (@right_expands_focused_group nat
    (sampleRender [group (Some false) [choice 1 None DisabledUnset;
                                       choice 2 None DisabledUnset];
                   choice 3 None DisabledUnset] [0]) _ _ eq_refl)
    as (_ & _ & _ & H).
  exact H.
Defined.

(** X10: after Right on a focused group that has a child, Down moves
    the focus to the group's first child, at any depth. *)
Theorem right_then_down_enters_group
  (Value : Type) (render : Session Value) (g : GroupHead)
  (inner : list (Item Value)) :
  nodeAt (items render) (active render) = Some (IGroup g inner) ->
  inner <> [] ->
  let afterRight := onRight render render in
  let afterDown := onDown (next afterRight) (next afterRight) in
  result afterDown = Ok tt
  /\ active (next afterDown) = active render ++ [0]
  /\ nodeAt (items (next afterDown)) (active (next afterDown)) = index inner 0.
Proof.
  intros Hnode Hinner. unfold onRight, onDown, bind, lift, setItems, setActive.
  cbn. pose proof (expand_nodeAt _ _ Hnode) as Hexp.
  assert (Hd : descendsInto (IGroup (withExpanded true g) inner) = true).
  { simpl. destruct inner; [congruence|]. rewrite len_cons.
    pose proof (len_nonneg inner).
    destruct (Z.eqb_spec (len inner + 1) 0); [lia | reflexivity]. }
  rewrite (down_descends _ _ Hexp Hd). cbn.
  split; [reflexivity|]. split; [reflexivity|].
  unfold nodeAt in *. destruct (active render) as [|a rest]; [discriminate|].
  cbn [app].
  destruct (focused (index (expand (items render) (a :: rest)) a) rest)
    as [o|e] eqn:Hf; [|discriminate].
  subst o. clear -Hf.
  revert Hf. generalize (index (expand (items render) (a :: rest)) a) as start.
  induction rest as [|b rest IH]; intros start Hf.
  - simpl in Hf. injection Hf as ->. reflexivity.
  - simpl in *. destruct start as [[s|c|g0 inner0]|]; try discriminate.
    now apply IH.
Qed.

Lemma right_then_down_enters_group_witness :
  let render :=
    sampleRender [group (Some false) [choice 1 None DisabledUnset;
                                      choice 2 None DisabledUnset];
                  choice 3 None DisabledUnset] [0] in
  let afterRight := onRight render render in
  let afterDown := onDown (next afterRight) (next afterRight) in
  result afterDown = Ok tt
  /\ active (next afterDown) = [0; 0]
  /\ nodeAt (items (next afterDown)) (active (next afterDown))
     = Some (choice 1 None DisabledUnset).
Proof.
  apply (@right_then_down_enters_group nat
    (sampleRender [group (Some false) [choice 1 None DisabledUnset;
                                       choice 2 None DisabledUnset];
                   choice 3 None DisabledUnset] [0]) _ _ eq_refl).
  discriminate.
Defined.

(** X11: Left collapses the whole root item the focus path starts in,
    every group below it included, and leaves every other root item as
    it was. *)
Theorem left_collapses_root_item
  (Value : Type) (render : Session Value) (a : Z) (rest : list Z) (j : Z) :
  active render = a :: rest ->
  index (items (next (onLeft render render))) j
  = match index (items render) j with
    | Some x => Some (if a =? j then collapseAll x else x)
    | None => None
    end.
Proof.
  intros Hactive. unfold onLeft, bind, setItems, setActive, ret. cbn.
  rewrite Hactive. destruct (1 <? len (a :: rest)); cbn; apply collapse_index.
Qed.

Lemma left_collapses_root_item_witness :
  let render :=
    sampleRender [group (Some true) [choice 1 None DisabledUnset];
                  group (Some true) [choice 2 None DisabledUnset]] [1; 0] in
  index (items (next (onLeft render render))) 1
  = Some (group (Some false) [choice 2 None DisabledUnset])
  /\ index (items (next (onLeft render render))) 0
     = Some (group (Some true) [choice 1 None DisabledUnset]).
Proof.
  cbv zeta. split.
  - exact (@left_collapses_root_item nat
      (sampleRender [group (Some true) [choice 1 None DisabledUnset];
                     group (Some true) [choice 2 None DisabledUnset]] [1; 0])
      1 [0] 1 eq_refl).
  - exact (@left_collapses_root_item nat
      (sampleRender [group (Some true) [choice 1 None DisabledUnset];
                     group (Some true) [choice 2 None DisabledUnset]] [1; 0])
      1 [0] 0 eq_refl).
Defined.

(** X12: with the focus on a root item or on a child of a root group,
    Left leaves the focus on the root item, and Down from there moves to
    the next root index without entering the collapsed group. *)
Theorem left_then_down_skips_group
  (Value : Type) (render : Session Value) (a : Z) (rest : list Z)
  (x : Item Value) :
  active render = a :: rest ->
  (List.length rest <= 1)%nat ->
  index (items render) a = Some x ->
  let afterLeft := onLeft render render in
  active (next afterLeft) = [a]
  /\ down (items (next afterLeft)) (active (next afterLeft)) = Ok [a + 1].
Proof.
  intros Hactive Hlen Hx. unfold onLeft, bind, setItems, setActive, ret. cbn.
  rewrite Hactive.
  assert (Hdown : down (collapse (items render) (a :: rest)) [a] = Ok [a + 1]).
  { rewrite (@down_at_root Value _ a (collapseAll x)).
    - now rewrite descendsInto_collapseAll.
    - rewrite collapse_index, Hx, Z.eqb_refl. reflexivity. }
  destruct rest as [|b [|c rest]]; try (simpl in Hlen; lia); cbn; auto.
Qed.

Lemma left_then_down_skips_group_witness :
  let render :=
    sampleRender [group (Some true) [choice 1 None DisabledUnset;
                                     choice 2 None DisabledUnset];
                  choice 3 None DisabledUnset] [0; 1] in
  active (next (onLeft render render)) = [0]
  /\ down (items (next (onLeft render render)))
          (active (next (onLeft render render))) = Ok [1].
Proof.
  apply (@left_then_down_skips_group nat
    (sampleRender [group (Some true) [choice 1 None DisabledUnset;
                                      choice 2 None DisabledUnset];
                   choice 3 None DisabledUnset] [0; 1])
    0 [1]
    (group (Some true) [choice 1 None DisabledUnset; choice 2 None DisabledUnset])
    eq_refl).
  - simpl. lia.
  - reflexivity.
Defined.

(** ** Space *)

Section SpaceRefinement.
Variable Value : Type.
Local Abbreviation Item := (Item Value).

Lemma sequence_mapi_pure (f : Item -> Z -> Result Item) (g : Item -> Z -> Item)
  (l : list Item) :
  forall s,
    (forall j x, index l j = Some x -> f x (s + j) = Ok (g x (s + j))) ->
    sequence (mapi f s l) = Ok (mapi g s l).
Proof.
  induction l as [|x l IH]; intros s H; [reflexivity|]. cbn [mapi sequence].
  pose proof (H 0 x (index_zero x l)) as H0. rewrite Z.add_0_r in H0.
  rewrite H0. cbn [rbind]. rewrite IH; [reflexivity|].
  intros j y Hy. pose proof (index_in_range _ _ Hy).
  specialize (H (j + 1) y). rewrite index_cons in H by lia.
  replace (j + 1 - 1) with j in H by lia.
  replace (s + 1 + j) with (s + (j + 1)) by lia. now apply H.
Qed.

Lemma spaceItem_final (pre : list Z) (a : Z) (x : Item) :
  spaceItem (pre ++ [a]) (len pre) x a = Ok (spaceNode x).
Proof.
  assert (Hfinal : (len pre =? len (pre ++ [a]) - 1) = true).
  { apply Z.eqb_eq. unfold len. rewrite length_app. simpl. lia. }
  destruct x as [s|c|g inner]; simpl; rewrite index_middle; simpl;
    rewrite Z.eqb_refl, Hfinal; try reflexivity.
  destruct (isSelectable (IChoice c)); reflexivity.
Qed.

(** On a path that designates a node, the Space branch maps the items
    without throwing and the result is the tree with [spaceNode] applied
    at that node. *)
Lemma space_updateAt_level (rest : list Z) :
  forall (pre : list Z) (a : Z) (items : list Item) (node : Item),
    focused (index items a) rest = Ok (Some node) ->
    sequence (mapi (spaceItem (pre ++ a :: rest) (len pre)) 0 items)
    = Ok (updateAt (@spaceNode Value) items (a :: rest)).
Proof.
  induction rest as [|b rest IH]; intros pre a items node Hf;
    cbn [updateAt]; apply sequence_mapi_pure; intros j x Hx; rewrite !Z.add_0_l.
  - destruct (Z.eqb_spec j a) as [->|Hne].
    + apply spaceItem_final.
    + now apply spaceItem_elsewhere.
  - destruct (Z.eqb_spec j a) as [->|Hne].
    + simpl in Hf. rewrite Hx in Hf.
      destruct x as [s|c|g0 inner0]; try discriminate.
      specialize (IH (pre ++ [a]) b inner0 node Hf).
      rewrite <- app_assoc in IH. simpl in IH.
      assert (Hlen : len (pre ++ [a]) = len pre + 1).
      { unfold len. rewrite length_app. simpl. lia. }
      rewrite Hlen in IH.
      simpl. rewrite index_middle. simpl. rewrite Z.eqb_refl.
      replace (len pre =? len (pre ++ a :: b :: rest) - 1) with false.
      * now rewrite IH.
      * symmetry. apply Z.eqb_neq. unfold len. rewrite length_app. simpl. lia.
    + now apply spaceItem_elsewhere.
Qed.

Lemma space_updateAt (items : list Item) (active : list Z) :
  validPath items active ->
  space items active = Ok (updateAt (@spaceNode Value) items active).
Proof.
  intros (node & Hnode). unfold nodeAt in Hnode.
  destruct active as [|a rest]; [discriminate|].
  destruct (focused (index items a) rest) as [o|e] eqn:Hf; [|discriminate].
  subst o. exact (space_updateAt_level rest [] a items Hf).
Qed.

Lemma updateAt_fixed (f : Item -> Item) (rest : list Z) :
  forall (a : Z) (items : list Item) (node : Item),
    focused (index items a) rest = Ok (Some node) ->
    f node = node ->
    updateAt f items (a :: rest) = items.
Proof.
  induction rest as [|b rest IH]; intros a items node Hf Hfix;
    cbn [updateAt]; apply mapi_identity; intros j x Hx; rewrite Z.add_0_l;
    destruct (Z.eqb_spec j a) as [->|Hne]; try reflexivity;
    simpl in Hf; rewrite Hx in Hf.
  - injection Hf as ->. exact Hfix.
  - destruct x as [s|c|g0 inner0]; try reflexivity.
    f_equal. now apply IH with node.
Qed.

Lemma updateAt_elsewhere (f : Item -> Item) (items : list Item) (a : Z)
  (rest : list Z) (j : Z) :
  j <> a -> index (updateAt f items (a :: rest)) j = index items j.
Proof.
  intros Hne. cbn [updateAt]. rewrite index_mapi.
  destruct (index items j); [|reflexivity]. rewrite Z.add_0_l.
  destruct (Z.eqb_spec j a); [contradiction | reflexivity].
Qed.
End SpaceRefinement.

(** X13: on a focus path that designates a node, Space never throws and
    the items it writes are the items before with the focused node
    alone rewritten (a group gets its children set to the negation of
    its [allChecked], a selectable choice gets its [checked] negated, a
    disabled choice or a [Separator] stays); every other root item is
    the same, the focus path is kept, and the error message and help
    tip are cleared. *)
Theorem space_rewrites_focused_node_only
  (Value : Type) (render : Session Value) :
  validPath (items render) (active render) ->
  let r := onSpace render render in
  result r = Ok tt
  /\ items (next r) = updateAt (@spaceNode Value) (items render) (active render)
  /\ (forall j, j <> hd 0 (active render) ->
        index (items (next r)) j = index (items render) j)
  /\ active (next r) = active render
  /\ errorMsg (next r) = None
  /\ showHelpTip (next r) = false
  /\ status (next r) = status render.
Proof.
  intros Hvalid. unfold onSpace, bind, lift, setError, setShowHelpTip, setItems.
  cbn. rewrite (space_updateAt Hvalid). cbn.
  repeat (split; [reflexivity|]). split; [|repeat split].
  intros j Hj. destruct Hvalid as (node & Hnode).
  destruct (active render) as [|a rest]; [discriminate|].
  now apply updateAt_elsewhere.
Qed.

Lemma space_rewrites_focused_node_only_witness :
  let render :=
    sampleRender [group (Some true) [choice 1 None DisabledUnset;
                                     choice 2 (Some true) DisabledUnset];
                  choice 3 None DisabledUnset] [0; 0] in
  items (next (onSpace render render))
  = [group (Some true) [choice 1 (Some true) DisabledUnset;
                        choice 2 (Some true) DisabledUnset];
     choice 3 None DisabledUnset].
Proof.
  cbv zeta.
  destruct (@space_rewrites_focused_node_only nat
    (sampleRender [group (Some true) [choice 1 None DisabledUnset;
                                      choice 2 (Some true) DisabledUnset];
                   choice 3 None DisabledUnset] [0; 0]))
    as (_ & H & _).
  - exists (choice 1 None DisabledUnset). reflexivity.
  - rewrite H. reflexivity.
Defined.

(** X14: Space on a focused [Separator] or disabled choice writes back
    the very same items. *)
Theorem space_on_unselectable_changes_nothing
  (Value : Type) (items : list (Item Value)) (active : list Z)
  (node : Item Value) :
  nodeAt items active = Some node ->
  isGroup node = false ->
  isSelectable node = false ->
  space items active = Ok items.
Proof.
  intros Hnode Hgroup Hsel.
  rewrite space_updateAt by (exists node; exact Hnode). f_equal.
  unfold nodeAt in Hnode. destruct active as [|a rest]; [discriminate|].
  destruct (focused (index items a) rest) as [o|e] eqn:Hf; [|discriminate].
  subst o. apply updateAt_fixed with node; [exact Hf|].
  destruct node as [s|c|g inner]; simpl in *; try reflexivity; try discriminate.
  now rewrite Hsel.
Qed.

Lemma space_on_unselectable_changes_nothing_witness :
  let tree := [choice 1 None DisabledUnset;
               choice 2 (Some true) (DisabledReason "pinned")] in
  space tree [1] = Ok tree.
Proof.
  exact (@space_on_unselectable_changes_nothing nat
    [choice 1 None DisabledUnset; choice 2 (Some true) (DisabledReason "pinned")]
    [1] (choice 2 (Some true) (DisabledReason "pinned"))
    eq_refl eq_refl eq_refl).
Defined.

(** ** The focus path through the key presses *)

Section FocusInvariant.
Variable Value : Type.
Local Abbreviation Item := (Item Value).

Lemma throughGroups_cons (choices : list Item) (i : Z) (rest : list Z) :
  throughGroups choices (i :: rest)
  = match index choices i with
    | Some x => groupsOf x rest
    | None => false
    end.
Proof. simpl. destruct (index choices i) as [[s|c|g inner]|]; reflexivity. Qed.

Lemma dropLast_cons (A : Type) (a b : A) (l : list A) :
  dropLast (a :: b :: l) = a :: dropLast (b :: l).
Proof. reflexivity. Qed.

Lemma dropLast_snoc (A : Type) (l : list A) (x : A) : dropLast (l ++ [x]) = l.
Proof. apply removelast_last. Qed.

Lemma len_snoc_nonzero (A : Type) (l : list A) (x : A) :
  negb (len (l ++ [x]) =? 0) = true.
Proof.
  apply negb_true_iff, Z.eqb_neq. unfold len. rewrite length_app. simpl. lia.
Qed.

Lemma len_cons_nonzero (A : Type) (x : A) (l : list A) :
  negb (len (x :: l) =? 0) = true.
Proof.
  apply negb_true_iff, Z.eqb_neq. rewrite len_cons. pose proof (len_nonneg l). lia.
Qed.

Lemma index_map (A B : Type) (f : A -> B) (l : list A) (j : Z) :
  index (map f l) j
  = match index l j with Some x => Some (f x) | None => None end.
Proof.
  unfold index. destruct (j <? 0); [reflexivity|]. rewrite nth_error_map.
  now destruct (nth_error l (Z.to_nat j)).
Qed.

Lemma throughGroups_dropLast (path : list Z) :
  forall choices : list Item,
    throughGroups choices path = true ->
    throughGroups choices (dropLast path) = true.
Proof.
  induction path as [|i rest IH]; intros choices H; [reflexivity|].
  destruct rest as [|j rest]; [reflexivity|].
  rewrite dropLast_cons. rewrite throughGroups_cons in H |- *.
  destruct (index choices i) as [[s|c|g inner]|]; try discriminate.
  cbn [groupsOf] in H |- *. now apply IH.
Qed.

(** *** The item rewrites keep the groups where they are *)

Lemma throughGroups_mapi (f : Item -> Z -> Item) (s : Z) (choices : list Item)
  (i : Z) (rest : list Z) :
  (forall x, index choices i = Some x ->
             groupsOf (f x (s + i)) rest = groupsOf x rest) ->
  throughGroups (mapi f s choices) (i :: rest)
  = throughGroups choices (i :: rest).
Proof.
  intros H. rewrite !throughGroups_cons, index_mapi.
  destruct (index choices i) as [x|]; [now apply H | reflexivity].
Qed.

Lemma throughGroups_map (f : Item -> Item) (choices : list Item)
  (i : Z) (rest : list Z) :
  (forall x, index choices i = Some x -> groupsOf (f x) rest = groupsOf x rest) ->
  throughGroups (map f choices) (i :: rest) = throughGroups choices (i :: rest).
Proof.
  intros H. rewrite !throughGroups_cons, index_map.
  destruct (index choices i) as [x|]; [now apply H | reflexivity].
Qed.

Lemma expandItem_groups (active path : list Z) :
  forall (depth : Z) (x : Item) (j : Z),
    groupsOf (expandItem active depth x j) path = groupsOf x path.
Proof.
  induction path as [|i rest IH]; intros depth x j;
    destruct x as [s|c|g inner]; try reflexivity; cbn [expandItem];
    destruct (negb (sameIndex (index active depth) j)); try reflexivity.
  cbn [groupsOf]. apply throughGroups_mapi. intros y _. apply IH.
Qed.

Lemma collapseItem_groups (active path : list Z) :
  forall (depth : Z) (b : bool) (x : Item) (j : Z),
    groupsOf (collapseItem active depth b x j) path = groupsOf x path.
Proof.
  induction path as [|i rest IH]; intros depth b x j;
    destruct x as [s|c|g inner]; try reflexivity; cbn [collapseItem];
    destruct (b || sameIndex (index active depth) j); try reflexivity.
  cbn [groupsOf]. apply throughGroups_mapi. intros y _. apply IH.
Qed.

Lemma check_groups (b : bool) (path : list Z) :
  forall x : Item, groupsOf (check b x) path = groupsOf x path.
Proof.
  induction path as [|i rest IH]; intros x;
    destruct x as [s|c|g inner]; try reflexivity; cbn [check];
    try (destruct (isSelectable (IChoice c)); reflexivity).
  cbn [groupsOf]. apply throughGroups_map. intros y _. apply IH.
Qed.

Lemma toggle_groups (path : list Z) :
  forall x : Item, groupsOf (toggle x) path = groupsOf x path.
Proof.
  induction path as [|i rest IH]; intros x;
    destruct x as [s|c|g inner]; try reflexivity; cbn [toggle].
  cbn [groupsOf]. apply throughGroups_map. intros y _. apply IH.
Qed.

Lemma expand_groups (items : list Item) (active path : list Z) :
  throughGroups (expand items active) path = throughGroups items path.
Proof.
  destruct path as [|i rest]; [reflexivity|]. unfold expand.
  apply throughGroups_mapi. intros x _. apply expandItem_groups.
Qed.

Lemma collapse_groups (items : list Item) (active path : list Z) :
  throughGroups (collapse items active) path = throughGroups items path.
Proof.
  destruct path as [|i rest]; [reflexivity|]. unfold collapse.
  apply throughGroups_mapi. intros x _. apply collapseItem_groups.
Qed.

Lemma checks_groups (b : bool) (items : list Item) (path : list Z) :
  throughGroups (map (check b) items) path = throughGroups items path.
Proof.
  destruct path as [|i rest]; [reflexivity|].
  apply throughGroups_map. intros x _. apply check_groups.
Qed.

Lemma invert_groups (items : list Item) (path : list Z) :
  throughGroups (invert items) path = throughGroups items path.
Proof.
  destruct path as [|i rest]; [reflexivity|]. unfold invert.
  apply throughGroups_map. intros x _. apply toggle_groups.
Qed.

Lemma updateAt_groups (path : list Z) :
  forall (p : list Z) (choices : list Item),
    throughGroups (updateAt (@spaceNode Value) choices p) path
    = throughGroups choices path.
Proof.
  induction path as [|i rest IH]; intros p choices; [reflexivity|].
  destruct p as [|a prest]; [reflexivity|]. cbn [updateAt].
  apply throughGroups_mapi. intros x _. rewrite Z.add_0_l.
  destruct (i =? a); [|reflexivity].
  destruct prest as [|b prest]; destruct x as [s|c|g inner]; try reflexivity.
  - cbn [spaceNode]. destruct (isSelectable (IChoice c)); reflexivity.
  - cbn [spaceNode groupsOf]. apply (checks_groups _ inner rest).
  - cbn [groupsOf]. apply IH.
Qed.

(** *** Space on a path that runs through groups *)

Lemma space_updateAt_groups (rest : list Z) :
  forall (pre : list Z) (a : Z) (items : list Item),
    throughGroups items (dropLast (a :: rest)) = true ->
    sequence (mapi (spaceItem (pre ++ a :: rest) (len pre)) 0 items)
    = Ok (updateAt (@spaceNode Value) items (a :: rest)).
Proof.
  induction rest as [|b rest IH]; intros pre a items Hg;
    cbn [updateAt]; apply sequence_mapi_pure; intros j x Hx; rewrite !Z.add_0_l.
  - destruct (Z.eqb_spec j a) as [->|Hne].
    + apply spaceItem_final.
    + now apply spaceItem_elsewhere.
  - destruct (Z.eqb_spec j a) as [->|Hne].
    + rewrite dropLast_cons, throughGroups_cons, Hx in Hg.
      destruct x as [s|c|g0 inner0]; try discriminate. cbn [groupsOf] in Hg.
      specialize (IH (pre ++ [a]) b inner0 Hg).
      rewrite <- app_assoc in IH. simpl in IH.
      assert (Hlen : len (pre ++ [a]) = len pre + 1).
      { unfold len. rewrite length_app. simpl. lia. }
      rewrite Hlen in IH.
      simpl. rewrite index_middle. simpl. rewrite Z.eqb_refl.
      replace (len pre =? len (pre ++ a :: b :: rest) - 1) with false.
      * now rewrite IH.
      * symmetry. apply Z.eqb_neq. unfold len. rewrite length_app. simpl. lia.
    + now apply spaceItem_elsewhere.
Qed.

Lemma space_in_groups (items : list Item) (active : list Z) :
  focusInGroups items active = true ->
  space items active = Ok (updateAt (@spaceNode Value) items active).
Proof.
  intros [Hne Hg]%andb_true_iff.
  destruct active as [|a rest]; [discriminate|].
  exact (space_updateAt_groups rest [] a items Hg).
Qed.

(** *** Down *)

Lemma hierarchy_last_group (active : list Z) :
  forall (choices acc h : list Item) (g : GroupHead) (inner : list Item),
    active <> [] ->
    hierarchyFrom choices acc active = Ok h ->
    throughGroups choices (dropLast active) = true ->
    index h (len h - 1) = Some (IGroup g inner) ->
    throughGroups choices active = true.
Proof.
  induction active as [|i rest IH]; intros choices acc h g inner Hne Hh Hg Hlast;
    [congruence|].
  rewrite hierarchyFrom_step in Hh.
  destruct (index choices i) as [x|] eqn:Hi; [|discriminate].
  destruct rest as [|j rest].
  - simpl in Hh. injection Hh as <-. rewrite index_last_of_app in Hlast.
    injection Hlast as ->. now rewrite throughGroups_cons, Hi.
  - rewrite dropLast_cons, throughGroups_cons, Hi in Hg.
    rewrite throughGroups_cons, Hi.
    destruct x as [s|c|g0 inner0]; try discriminate. cbn [groupsOf childrenOf] in *.
    apply IH with (acc ++ [IGroup g0 inner0]) h g inner; auto. discriminate.
Qed.

Lemma downFrom_cases (h : list Item) (active p : list Z) :
  downFrom h active = Ok p ->
  (p = active ++ [0]
   /\ exists g inner, index h (len h - 1) = Some (IGroup g inner))
  \/ p = [hd 0 active + 1]
  \/ (exists n, p = dropLast active ++ [n])
  \/ (exists n, p = dropLast (dropLast active) ++ [n]).
Proof.
  intros H. unfold downFrom in H.
  destruct (index h (len h - 1)) as [[s|c|g inner]|]; cbn [rbind] in H;
    try discriminate.
  3: destruct (truthy (expanded g) && negb (len inner =? 0));
     [injection H as <-; left; eauto|].
  all: destruct (len active =? 1); [injection H as <-; right; left; reflexivity|].
  all: destruct (index h (len h - 2)) as [[s'|c'|g' sib]|]; try discriminate.
  all: destruct (List.last active 0 + 1 <? len sib); injection H as <-;
    right; right; [left|right]; eauto.
Qed.

Lemma down_focusInGroups (items : list Item) (active p : list Z) :
  down items active = Ok p ->
  focusInGroups items active = true ->
  focusInGroups items p = true.
Proof.
  intros Hd [Hne Hg]%andb_true_iff. rewrite down_unfold in Hd.
  destruct (hierarchyFrom items [] active) as [h|e] eqn:Hh; [|discriminate].
  cbn [rbind] in Hd. unfold focusInGroups.
  destruct (downFrom_cases _ _ Hd) as [(-> & g & inner & Hlast)|[->|[(n & ->)|(n & ->)]]].
  - rewrite len_snoc_nonzero, dropLast_snoc. cbn [andb].
    apply hierarchy_last_group with [] h g inner; auto.
    intros ->. discriminate.
  - reflexivity.
  - now rewrite len_snoc_nonzero, dropLast_snoc.
  - rewrite len_snoc_nonzero, dropLast_snoc. cbn [andb].
    now apply throughGroups_dropLast.
Qed.

(** *** Up *)

Lemma follow_groups (n : list Z) :
  forall (items : list Item) (g : GroupHead) (inner : list Item) (q : list Z),
    n <> [] ->
    follow (index items (hd 0 n)) (tl n) = Ok (Some (IGroup g inner)) ->
    throughGroups inner q = true ->
    throughGroups items (n ++ q) = true.
Proof.
  induction n as [|a rest IH]; intros items g inner q Hne Hf Hq; [congruence|].
  cbn [hd tl] in Hf. rewrite <- app_comm_cons, throughGroups_cons.
  destruct rest as [|b rest].
  - cbn [follow] in Hf. injection Hf as ->. exact Hq.
  - cbn [follow] in Hf.
    destruct (index items a) as [[s|c|g0 inner0]|]; try discriminate.
    cbn [groupsOf]. apply IH with g inner; [discriminate | exact Hf | exact Hq].
Qed.

Lemma calcPrior_groups (item : Item) :
  forall prior,
    calcPrior (Some item) = Ok prior ->
    prior = [] \/ groupsOf item (dropLast prior) = true.
Proof.
  induction item as [s|c|g inner IH] using Item_tree_ind; intros prior H.
  - simp calcPrior in H. injection H as <-. now left.
  - simp calcPrior in H. injection H as <-. now left.
  - simp calcPrior in H.
    destruct (truthy (expanded g)) eqn:He; simpl in H;
      [|injection H as <-; now left].
    destruct (index inner (len inner - 1)) as [y|] eqn:Hy;
      [|simp calcPrior in H; discriminate].
    destruct (calcPrior (Some y)) as [rest|e] eqn:Hr; simpl in H; [|discriminate].
    injection H as <-. right. rewrite Forall_forall in IH.
    destruct (IH y (index_In _ _ Hy) rest Hr) as [->|Hgy]; [reflexivity|].
    destruct rest as [|r rest']; [reflexivity|].
    rewrite dropLast_cons. cbn [groupsOf]. now rewrite throughGroups_cons, Hy.
Qed.

Lemma upCore_focusInGroups (items : list Item) (active p : list Z) :
  (len active =? 1) && (hd 0 active =? 0) = false ->
  upCore items active = Ok p ->
  focusInGroups items active = true ->
  focusInGroups items p = true.
Proof.
  intros Hwrap Hu [Hne Hg]%andb_true_iff. unfold upCore in Hu.
  destruct active as [|a rest]; [discriminate|].
  destruct (List.last (a :: rest) 0 =? 0) eqn:Hl.
  - injection Hu as <-. destruct rest as [|b rest].
    + simpl in Hl, Hwrap. rewrite Hl in Hwrap. discriminate.
    + unfold focusInGroups. rewrite len_cons_nonzero. cbn [andb].
      rewrite <- dropLast_cons. now apply throughGroups_dropLast.
  - cbv zeta in Hu.
    remember (dropLast (a :: rest) ++ [List.last (a :: rest) 0 - 1]) as n eqn:En.
    assert (Hn : n <> []).
    { rewrite En. intros Habs. now apply app_eq_nil in Habs as [_ Habs]. }
    destruct (follow (index items (hd 0 n)) (tl n)) as [ptr|e] eqn:Hf;
      [|discriminate].
    cbn [rbind] in Hu.
    destruct (calcPrior ptr) as [prior|e] eqn:Hp; [|discriminate].
    cbn [rbind] in Hu. injection Hu as <-.
    destruct ptr as [x|]; [|simp calcPrior in Hp; discriminate].
    unfold focusInGroups.
    destruct prior as [|k prior].
    + rewrite app_nil_r, En, len_snoc_nonzero, dropLast_snoc. exact Hg.
    + destruct (calcPrior_groups _ Hp) as [Hnil|Hx]; [discriminate|].
      destruct x as [s|c|g inner]; try discriminate. cbn [groupsOf] in Hx.
      replace (len (n ++ k :: prior) =? 0) with false.
      * cbn [negb andb]. unfold dropLast. rewrite removelast_app by discriminate.
        now apply follow_groups with g inner.
      * symmetry. apply Z.eqb_neq. unfold len. rewrite length_app. simpl. lia.
Qed.

Lemma up_focusInGroups (bounds : Bounds) (items : list Item) (active p : list Z) :
  up bounds items active = Ok p ->
  focusInGroups items active = true ->
  focusInGroups items p = true.
Proof.
  rewrite up_unfold.
  destruct ((len active =? 1) && (hd 0 active =? 0)) eqn:Hwrap.
  - intros H _. injection H as <-. reflexivity.
  - now apply upCore_focusInGroups.
Qed.

(** *** Every key *)

Lemma focusInGroups_ext (items items' : list Item) (active : list Z) :
  (forall path, throughGroups items' path = throughGroups items path) ->
  focusInGroups items' active = focusInGroups items active.
Proof. intros H. unfold focusInGroups. now rewrite H. Qed.

Lemma left_focusInGroups (items : list Item) (active : list Z) :
  (1 <? len active) = true ->
  focusInGroups items active = true ->
  focusInGroups items (dropLast active) = true.
Proof.
  intros Hlen [Hne Hg]%andb_true_iff. unfold focusInGroups.
  destruct active as [|a [|b rest]]; try discriminate.
  rewrite dropLast_cons, len_cons_nonzero. cbn [andb].
  rewrite <- dropLast_cons. now apply throughGroups_dropLast.
Qed.

Lemma press_focusInGroups (tests : KeyTests) (config : Config Value)
  (bounds : Bounds) (render : Session Value) (key : KeypressEvent) :
  focusInGroups (items render) (active render) = true ->
  let st := next (press tests config bounds render key) in
  focusInGroups (items st) (active st) = true.
Proof.
  intros Hinv. cbv zeta. unfold press, useKeypress.
  destruct (isEnterKey tests key).
  { unfold onEnter, awaitValidate, bind, emit, lift. cbn.
    destruct (validate config _) as [v|e]; cbn; [|exact Hinv].
    destruct (required config && _); cbn; [exact Hinv|].
    destruct (isTrue v); exact Hinv. }
  destruct (isDownKey tests key).
  { unfold onDown, bind, lift. cbn.
    destruct (down (items render) (active render)) as [p|e] eqn:Hd; cbn;
      [|exact Hinv].
    now apply down_focusInGroups with (active render). }
  destruct (isUpKey tests key).
  { unfold onUp, bind, lift. cbn.
    destruct (up bounds (items render) (active render)) as [p|e] eqn:Hu; cbn;
      [|exact Hinv].
    now apply up_focusInGroups with bounds (active render). }
  destruct (isRightKey key).
  { unfold onRight, setItems. cbn.
    rewrite (focusInGroups_ext (items render) (expand (items render) (active render)));
      [exact Hinv|]. intros path. apply expand_groups. }
  destruct (isLeftKey key).
  { unfold onLeft, bind, setItems, setActive, ret. cbn.
    destruct (1 <? len (active render)) eqn:Hlen; cbn.
    - rewrite (focusInGroups_ext (items render)
                 (collapse (items render) (active render)));
        [now apply left_focusInGroups|]. intros path. apply collapse_groups.
    - rewrite (focusInGroups_ext (items render)
                 (collapse (items render) (active render)));
        [exact Hinv|]. intros path. apply collapse_groups. }
  destruct (isSpaceKey tests key).
  { unfold onSpace, bind, lift, setError, setShowHelpTip, setItems. cbn.
    rewrite (space_in_groups _ _ Hinv). cbn.
    rewrite (focusInGroups_ext (items render)
               (updateAt (@spaceNode Value) (items render) (active render)));
      [exact Hinv|]. intros path. apply updateAt_groups. }
  destruct (String.eqb (keyName key) "a").
  { unfold onSelectAll, setItems. cbn.
    rewrite (focusInGroups_ext (items render) (selectAll (items render)));
      [exact Hinv|]. intros path. apply checks_groups. }
  destruct (String.eqb (keyName key) "i").
  { unfold onInvert, setItems. cbn.
    rewrite (focusInGroups_ext (items render) (invert (items render)));
      [exact Hinv|]. intros path. apply invert_groups. }
  destruct (String.eqb (keySequence key) "?").
  { unfold onHelp, bind, lift. cbn.
    destruct (match active render with [] => _ | _ => _ end) as [[[s|c|g inner]|]|e];
      cbn; try exact Hinv.
    - destruct (help c); exact Hinv.
    - destruct (ghelp g); exact Hinv. }
  destruct (isNumberKey tests key); exact Hinv.
Qed.

Lemma start_focusInGroups (config : Config Value) (st : Session Value) :
  start config = Ok st -> focusInGroups (items st) (active st) = true.
Proof.
  unfold start. intros H.
  destruct (computeBounds _) as [b|e]; [|discriminate].
  cbn [rbind] in H. injection H as <-. reflexivity.
Qed.
End FocusInvariant.

(** X15: in every state the prompt reaches from its first render by key
    presses, the focus path is not empty and every index before its
    last leads into a group; so the [assert] of the Space branch never
    fails there: Space returns without throwing, whatever the last
    index is, and writes the items with the focused node alone
    rewritten. *)
Theorem space_never_throws_after_start
  (Value : Type) (tests : KeyTests) (config : Config Value)
  (st : Session Value) :
  Reachable tests config st ->
  focusInGroups (items st) (active st) = true
  /\ result (onSpace st st) = Ok tt
  /\ items (next (onSpace st st))
     = updateAt (@spaceNode Value) (items st) (active st).
Proof.
  intros Hreach.
  assert (Hinv : focusInGroups (items st) (active st) = true).
  { induction Hreach as [st Hstart|st bounds key _ IH _].
    - now apply start_focusInGroups with config.
    - now apply press_focusInGroups. }
  split; [exact Hinv|].
  unfold onSpace, bind, lift, setError, setShowHelpTip, setItems. cbn.
  rewrite (space_in_groups _ _ Hinv). cbn. split; reflexivity.
Qed.

Lemma space_never_throws_after_start_witness :
  let tree := [group (Some true) [choice 1 None DisabledUnset;
                                  choice 2 (Some true) DisabledUnset];
               choice 3 None DisabledUnset] in
  let config := sampleConfig true false accepting tree in
  let down := mkKey "down" false "" in
  let st0 := sampleRender tree [0] in
  let st1 := next (press inquirerKeys config (mkBounds 0 1) st0 down) in
  let st4 := next (press inquirerKeys config (mkBounds 0 1)
               (next (press inquirerKeys config (mkBounds 0 1)
                  (next (press inquirerKeys config (mkBounds 0 1) st1 down))
                  down))
               down) in
  start config = Ok st0
  /\ (active st1 = [0; 0]
      /\ result (onSpace st1 st1) = Ok tt
      /\ items (next (onSpace st1 st1))
         = [group (Some true) [choice 1 (Some true) DisabledUnset;
                               choice 2 (Some true) DisabledUnset];
            choice 3 None DisabledUnset])
  /\ (active st4 = [2]
      /\ result (onSpace st4 st4) = Ok tt
      /\ items (next (onSpace st4 st4)) = tree).
Proof.
  cbv zeta.
  pose (tree := [group (Some true) [choice 1 None DisabledUnset;
                              choice 2 (Some true) DisabledUnset];
           choice 3 None DisabledUnset]).
  pose (config := sampleConfig true false accepting tree).
  pose (down := mkKey "down" false "").
  pose (bounds := mkBounds 0 1).
  pose (r0 := @reach_start nat inquirerKeys config (sampleRender tree [0])
                eq_refl).
  pose (r1 := @reach_press nat inquirerKeys config _ bounds down r0 eq_refl).
  pose (r2 := @reach_press nat inquirerKeys config _ bounds down r1 eq_refl).
  pose (r3 := @reach_press nat inquirerKeys config _ bounds down r2 eq_refl).
  pose (r4 := @reach_press nat inquirerKeys config _ bounds down r3 eq_refl).
  split; [reflexivity|]. split.
  - destruct (@space_never_throws_after_start nat inquirerKeys config _ r1)
      as (_ & H1 & H2).
    split; [reflexivity|]. split; [exact H1|]. exact (eq_trans H2 eq_refl).
  - destruct (@space_never_throws_after_start nat inquirerKeys config _ r4)
      as (_ & H1 & H2).
    split; [reflexivity|]. split; [exact H1|]. exact (eq_trans H2 eq_refl).
Defined.

(** ** The rows given to the pagination *)

Section Pagination.
Variable Value : Type.
Local Abbreviation Item := (Item Value).

Lemma len_app (A : Type) (l1 l2 : list A) : len (l1 ++ l2) = len l1 + len l2.
Proof. unfold len. rewrite length_app. lia. Qed.

Lemma len_mapi (A B : Type) (f : A -> Z -> B) (l : list A) :
  forall s, len (mapi f s l) = len l.
Proof.
  induction l as [|x l IH]; intros s; [reflexivity|]. cbn [mapi].
  now rewrite !len_cons, IH.
Qed.

Lemma index_app_left (A : Type) (l1 l2 : list A) (j : Z) :
  j < len l1 -> index (l1 ++ l2) j = index l1 j.
Proof.
  intros Hj. unfold index, len in *. destruct (j <? 0) eqn:E; [reflexivity|].
  apply Z.ltb_ge in E. apply nth_error_app1. lia.
Qed.

Lemma index_app_right (A : Type) (l1 l2 : list A) (j : Z) :
  0 <= j -> index (l1 ++ l2) (len l1 + j) = index l2 j.
Proof.
  intros Hj. unfold index, len.
  destruct (Z.ltb_spec (Z.of_nat (List.length l1) + j) 0); [lia|].
  destruct (Z.ltb_spec j 0); [lia|].
  rewrite nth_error_app2 by lia. f_equal. lia.
Qed.

Lemma leaf_rows (depth : Z) (inner : list Item) :
  forallb (fun c => negb (isGroup c)) inner = true ->
  flat_map (@rowsOf Value depth) inner = map (fun c => mkRow c None None) inner.
Proof.
  induction inner as [|c l IH]; simpl; [reflexivity|].
  intros [Hc Hl]%andb_true_iff. rewrite IH by assumption.
  destruct c; simpl in *; try discriminate; reflexivity.
Qed.

Lemma leaf_count (inner : list Item) :
  forallb (fun c => negb (isGroup c)) inner = true ->
  forall s, fold_left (fun acc c => acc + countRow c) inner s = s + len inner.
Proof.
  induction inner as [|c l IH]; simpl; intros H s.
  - change (len (@nil Item)) with 0. lia.
  - apply andb_true_iff in H as [Hc Hl]. rewrite IH by assumption.
    rewrite len_cons. destruct c; simpl in *; try discriminate; lia.
Qed.

Lemma rows_count (item : Item) :
  oneLevel item = true -> len (rowsOf 0 item) = 1 + rowsBelow item.
Proof.
  destruct item as [s|c|g inner]; cbn [rowsOf rowsBelow oneLevel]; intros H;
    try reflexivity.
  destruct (truthy (expanded g)); [|reflexivity].
  rewrite len_cons, len_mapi, (leaf_rows _ _ H).
  unfold countChoices. cbn [countRow]. rewrite (leaf_count _ H).
  unfold len. rewrite length_map. lia.
Qed.

Lemma rows_head (depth : Z) (item : Item) :
  index (rowsOf depth item) 0 = Some (mkRow item None None).
Proof.
  destruct item as [s|c|g inner]; simpl; try reflexivity.
  destruct (truthy (expanded g)); reflexivity.
Qed.

Lemma rows_child (g : GroupHead) (inner : list Item) (b : Z) (x : Item) :
  truthy (expanded g) = true ->
  forallb (fun c => negb (isGroup c)) inner = true ->
  index inner b = Some x ->
  option_map (@rowItem Value) (index (rowsOf 0 (IGroup g inner)) (1 + b)) = Some x.
Proof.
  intros He Hleaf Hb. pose proof (index_in_range _ _ Hb). cbn [rowsOf].
  rewrite He.
  rewrite index_cons by lia. replace (1 + b - 1) with b by lia.
  rewrite index_mapi, (leaf_rows _ _ Hleaf).
  assert (Hm : index (map (fun c => mkRow c None None) inner) b
               = Some (mkRow x None None)).
  { revert Hb. unfold index. destruct (b <? 0); [discriminate|].
    intros Hb. now rewrite nth_error_map, Hb. }
  rewrite Hm. reflexivity.
Qed.

Lemma skipn_nth_error (A : Type) (l : list A) :
  forall k x, nth_error l k = Some x -> skipn k l = x :: skipn (S k) l.
Proof.
  induction l as [|y l IH]; intros [|k] x H; simpl in *; try discriminate.
  - now injection H as ->.
  - now apply IH.
Qed.

(** The loop adds, for the root items it passes, the rows below them. *)
Lemma countExpanded_rows (items : list Item) (n : nat) :
  forallb (@oneLevel Value) items = true ->
  forall i count,
    0 <= i -> (Z.to_nat i + n <= List.length items)%nat ->
    countExpanded items n i count
    = Ok (count + len (flat_map (@rowsOf Value 0) (firstn n (skipn (Z.to_nat i) items)))
          - Z.of_nat n).
Proof.
  intros Hone. induction n as [|n IH]; intros i count Hi Hlen.
  - simpl. unfold len. simpl. f_equal. lia.
  - cbn [countExpanded].
    destruct (nth_error items (Z.to_nat i)) as [x|] eqn:Hx.
    2: { apply nth_error_None in Hx. lia. }
    assert (Hix : index items i = Some x).
    { unfold index. destruct (Z.ltb_spec i 0); [lia | exact Hx]. }
    rewrite Hix, (skipn_nth_error _ _ Hx). cbn [firstn flat_map].
    rewrite len_app.
    assert (Hxone : oneLevel x = true).
    { rewrite forallb_forall in Hone. apply Hone. now apply nth_error_In in Hx. }
    rewrite (rows_count _ Hxone).
    replace (S (Z.to_nat i)) with (Z.to_nat (i + 1)) by lia.
    destruct x as [s|c|g inner]; rewrite IH by lia; simpl rowsBelow;
      try (f_equal; lia).
    destruct (truthy (expanded g)); f_equal; lia.
Qed.

Lemma index_flat_map_at (A B : Type) (f : A -> list B) (l : list A) (k : nat)
  (x : A) (j : Z) :
  nth_error l k = Some x ->
  0 <= j < len (f x) ->
  index (flat_map f l) (len (flat_map f (firstn k l)) + j) = index (f x) j.
Proof.
  intros Hx Hj. rewrite <- (firstn_skipn k l) at 1.
  rewrite flat_map_app, index_app_right by lia.
  rewrite (skipn_nth_error _ _ Hx). cbn [flat_map].
  now rewrite index_app_left by lia.
Qed.
End Pagination.

(** X16: in a tree whose groups hold no groups, with the focus on a
    rendered row, [getActiveIndexForPagination(active, items) - 1] is
    the index, in the rows built for the pagination, of the row of the
    focused node: the cursor is drawn on the item the keys act on. *)
Theorem cursor_row_is_focused_node
  (Value : Type) (items : list (Item Value)) (active : list Z) :
  forallb (@oneLevel Value) items = true ->
  visiblePath items active = true ->
  exists n,
    getActiveIndexForPagination active items = Ok n
    /\ option_map (@rowItem Value) (index (pageItems items) (n - 1))
       = nodeAt items active.
Proof.
  intros Hone Hvis. destruct active as [|a rest]; [discriminate|].
  cbn [visiblePath] in Hvis.
  destruct (index items a) as [x|] eqn:Ha; [|discriminate].
  pose proof (index_in_range _ _ Ha) as Hr.
  assert (Hnth : nth_error items (Z.to_nat a) = Some x).
  { revert Ha. unfold index. destruct (Z.ltb_spec a 0); [lia | auto]. }
  assert (Hxone : oneLevel x = true).
  { rewrite forallb_forall in Hone. apply Hone. now apply index_In in Ha. }
  unfold getActiveIndexForPagination.
  rewrite (countExpanded_rows items (Z.to_nat a) Hone)
    by (unfold len in Hr; simpl; lia).
  change (skipn (Z.to_nat 0) items) with items.
  set (R := len (flat_map (@rowsOf Value 0) (firstn (Z.to_nat a) items))).
  eexists. split; [reflexivity|].
  unfold nodeAt. cbn [focused]. rewrite Ha.
  destruct rest as [|b rest].
  - cbn [fold_left focused].
    replace (0 + a + 1 + R - Z.of_nat (Z.to_nat a) - 1) with (R + 0) by lia.
    unfold pageItems, R.
    rewrite (index_flat_map_at (@rowsOf Value 0) items (Z.to_nat a) (j := 0) Hnth).
    + now rewrite rows_head.
    + rewrite (rows_count _ Hxone).
      destruct x as [s|c|g inner]; cbn [rowsBelow]; try lia.
      destruct (truthy (expanded g)); [|lia].
      unfold countChoices. cbn [countRow]. rewrite (leaf_count _ Hxone).
      pose proof (len_nonneg inner). lia.
  - destruct x as [s|c|g inner]; try discriminate.
    apply andb_true_iff in Hvis as [Hexp Hvis]. cbn [visiblePath] in Hvis.
    destruct (index inner b) as [y|] eqn:Hb; [|discriminate].
    pose proof (index_in_range _ _ Hb) as Hrb.
    cbn [focused]. rewrite Hb.
    destruct rest as [|c rest].
    + cbn [fold_left focused].
      replace (0 + a + 1 + b + 1 + R - Z.of_nat (Z.to_nat a) - 1)
        with (R + (1 + b)) by lia.
      unfold pageItems, R.
      rewrite (index_flat_map_at (@rowsOf Value 0) items (Z.to_nat a) (j := 1 + b) Hnth).
      * now apply rows_child.
      * rewrite (rows_count _ Hxone). cbn [rowsBelow]. rewrite Hexp.
        unfold countChoices. cbn [countRow]. rewrite (leaf_count _ Hxone). lia.
    + exfalso. destruct y as [s'|c'|g' inner']; try discriminate.
      cbn [oneLevel] in Hxone. rewrite forallb_forall in Hxone.
      specialize (Hxone _ (index_In _ _ Hb)). discriminate.
Qed.

Lemma cursor_row_is_focused_node_witness :
  let tree := [group (Some true) [choice 1 None DisabledUnset;
                                  choice 2 None DisabledUnset];
               group (Some true) [choice 3 None DisabledUnset;
                                  choice 4 None DisabledUnset]] in
  getActiveIndexForPagination [1; 1] tree = Ok 6
  /\ option_map (@rowItem nat) (index (pageItems tree) (6 - 1))
     = Some (choice 4 None DisabledUnset).
Proof.
  cbv zeta.
  destruct (@cursor_row_is_focused_node nat
    [group (Some true) [choice 1 None DisabledUnset;
                        choice 2 None DisabledUnset];
     group (Some true) [choice 3 None DisabledUnset;
                        choice 4 None DisabledUnset]] [1; 1] eq_refl eq_refl)
    as (n & Hn & Hrow).
  assert (n = 6) by (vm_compute in Hn; congruence). subst n.
  split; [exact Hn | exact Hrow].
Defined.

(** A tree with a group inside a group is outside that statement: the
    loop counts the choices below a root group, not its rows. *)
Example cursor_row_with_nested_group :
  let tree := [group (Some true) [group (Some true) [choice 1 None DisabledUnset;
                                                    choice 2 None DisabledUnset]];
               choice 3 None DisabledUnset] in
  getActiveIndexForPagination [1] tree = Ok 4
  /\ option_map (@rowItem nat) (index (pageItems tree) (4 - 1))
     = Some (choice 2 None DisabledUnset)
  /\ nodeAt tree [1] = Some (choice 3 None DisabledUnset).
Proof. vm_compute. auto. Qed.

(** * The caller: from the answer to the install commands *)

Section UpdateFacts.

Lemma mapSet_fresh (V : Type) (key : string) (value : V) (m : StringMap V) :
  ~ In key (mapKeys m) -> mapSet key value m = m ++ [(key, value)].
Proof.
  induction m as [|[k v] m IH]; simpl; intros Hnot; [reflexivity|].
  destruct (String.eqb_spec k key) as [->|Hne]; [tauto|].
  rewrite IH by tauto. reflexivity.
Qed.

Lemma empty_updates (keys : list string) :
  forall acc : StringMap (list Package),
    NoDup (mapKeys acc ++ keys) ->
    fold_left (fun updates key => mapSet key [] updates) keys acc
    = acc ++ map (fun k => (k, [])) keys.
Proof.
  induction keys as [|k keys IH]; intros acc Hnd; simpl.
  - now rewrite app_nil_r.
  - rewrite mapSet_fresh.
    + rewrite IH.
      * now rewrite <- app_assoc.
      * unfold mapKeys in *. rewrite map_app, <- app_assoc. exact Hnd.
    + apply NoDup_remove_2 in Hnd. intros Hin. apply Hnd.
      apply in_or_app. now left.
Qed.

Lemma pushUpdate_grouped (key : string) (info : Package) (keys : list string)
  (g : string -> list Package) :
  NoDup keys ->
  pushUpdate key info (map (fun k => (k, g k)) keys)
  = map (fun k => (k, if String.eqb k key then g k ++ [info] else g k)) keys.
Proof.
  induction keys as [|k keys IH]; intros Hnd; simpl; [reflexivity|].
  inversion Hnd as [|? ? Hnot Hnd']; subst.
  destruct (String.eqb_spec k key) as [->|Hne].
  - f_equal. apply map_ext_in. intros k' Hin.
    destruct (String.eqb_spec k' key) as [->|]; [contradiction | reflexivity].
  - f_equal. now apply IH.
Qed.

Lemma collect_grouped (answer : list Package) (keys : list string) :
  NoDup keys ->
  forall g : string -> list Package,
    fold_left (fun updates info => pushUpdate (dependent info) info updates)
              answer (map (fun k => (k, g k)) keys)
    = map (fun k => (k, g k ++ filter (fun info => String.eqb k (dependent info))
                                      answer))
          keys.
Proof.
  intros Hnd. induction answer as [|info answer IH]; intros g; simpl.
  - apply map_ext. intros k. now rewrite app_nil_r.
  - rewrite (pushUpdate_grouped _ _ g Hnd), IH. apply map_ext. intros k.
    destruct (String.eqb k (dependent info)); [|reflexivity].
    now rewrite <- app_assoc.
Qed.

Lemma executed_logged (options : Options)
  (workspaceMap : StringMap (option Workspace)) (exec : string -> bool)
  (updates : StringMap (list Package)) :
  executed (runUpdates options workspaceMap exec updates)
  = if optDryRun options then []
    else logged (runUpdates options workspaceMap exec updates).
Proof.
  induction updates as [|[w deps] rest IH]; simpl.
  - now destruct (optDryRun options).
  - destruct (negb (len deps =? 0)); [|exact IH].
    destruct (optDryRun options); simpl in *; [exact IH|].
    destruct (exec _); simpl; [now rewrite IH | reflexivity].
Qed.
End UpdateFacts.

(** X17: the two loops that fill [updates] group the answer by
    workspace: with the keys of the workspace map in their order, the
    entry of a key holds exactly the selected packages whose
    [dependent] is that key, in the order of the answer; a selected
    package whose [dependent] is not a key is in no entry. *)
Theorem updates_group_answer_by_workspace
  (workspaceMap : StringMap (option Workspace)) (answer : list Package) :
  NoDup (mapKeys workspaceMap) ->
  collectUpdates workspaceMap answer
  = map (fun k => (k, filter (fun info => String.eqb k (dependent info)) answer))
        (mapKeys workspaceMap)
  /\ forall info deps,
       In deps (map snd (collectUpdates workspaceMap answer)) ->
       In info deps ->
       In info answer /\ In (dependent info) (mapKeys workspaceMap).
Proof.
  intros Hnd.
  assert (H : collectUpdates workspaceMap answer
              = map (fun k => (k, filter (fun info => String.eqb k (dependent info))
                                         answer))
                    (mapKeys workspaceMap)).
  { unfold collectUpdates. rewrite (empty_updates (mapKeys workspaceMap) []) by exact Hnd.
    cbn [app].
    exact (collect_grouped answer Hnd (fun _ => [])). }
  split; [exact H|]. rewrite H. intros info deps Hdeps Hin.
  rewrite map_map in Hdeps. apply in_map_iff in Hdeps as (k & <- & Hk).
  cbn [snd] in Hin. apply filter_In in Hin as [Hin Heq].
  apply String.eqb_eq in Heq. subst k. auto.
Qed.

Lemma updates_group_answer_by_workspace_witness :
  let a := mkPackage "left-pad" "1.0.0" "1.0.1" "2.0.0" "web" "node_modules/left-pad" in
  let b := mkPackage "semver" "7.0.0" "7.1.0" "7.1.0" "api" "node_modules/semver" in
  let c := mkPackage "chalk" "4.0.0" "4.1.0" "5.0.0" "web" "node_modules/chalk" in
  let d := mkPackage "open" "8.0.0" "8.1.0" "9.0.0" "docs" "node_modules/open" in
  collectUpdates [("root", Some (mkWorkspace None "root"));
                  ("web", Some (mkWorkspace (Some "packages/web") "web"));
                  ("api", Some (mkWorkspace (Some "packages/api") "api"))]
                 [a; b; c; d]
  = [("root", []); ("web", [a; c]); ("api", [b])].
Proof.
  cbv zeta.
  destruct (@updates_group_answer_by_workspace
    [("root", Some (mkWorkspace None "root"));
     ("web", Some (mkWorkspace (Some "packages/web") "web"));
     ("api", Some (mkWorkspace (Some "packages/api") "api"))]
    [mkPackage "left-pad" "1.0.0" "1.0.1" "2.0.0" "web" "node_modules/left-pad";
     mkPackage "semver" "7.0.0" "7.1.0" "7.1.0" "api" "node_modules/semver";
     mkPackage "chalk" "4.0.0" "4.1.0" "5.0.0" "web" "node_modules/chalk";
     mkPackage "open" "8.0.0" "8.1.0" "9.0.0" "docs" "node_modules/open"])
    as (H & _).
  - repeat constructor; simpl; intuition discriminate.
  - rewrite H. reflexivity.
Defined.

(** X18: the install loop hands to [exec] only commands it has logged:
    with [--dry-run] nothing is executed, without it the executed
    commands are the logged ones; and when an [exec] fails, that command
    is the last one logged and executed. *)
Theorem install_loop_runs_what_it_logs
  (options : Options) (workspaceMap : StringMap (option Workspace))
  (exec : string -> bool) (updates : StringMap (list Package)) :
  let r := runUpdates options workspaceMap exec updates in
  executed r = (if optDryRun options then [] else logged r)
  /\ (optDryRun options = true -> failed r = None)
  /\ forall cmd, failed r = Some cmd ->
       exec cmd = false
       /\ exists before, logged r = before ++ [cmd]
                         /\ forall c, In c before -> exec c = true.
Proof.
  cbv zeta. split; [apply executed_logged|]. split.
  - intros Hdry. induction updates as [|[w deps] rest IH]; simpl; [reflexivity|].
    destruct (negb (len deps =? 0)); [|exact IH]. rewrite Hdry. simpl. exact IH.
  - induction updates as [|[w deps] rest IH]; simpl; intros cmd Hfail;
      [discriminate|].
    destruct (negb (len deps =? 0)); [|now apply IH].
    destruct (optDryRun options) eqn:Hdry; simpl in *.
    + destruct (IH cmd Hfail) as (Hexec & before & Hlog & Hall).
      split; [exact Hexec|].
      exfalso. clear -Hfail Hdry.
      induction rest as [|[w' deps'] rest IH]; simpl in Hfail; [discriminate|].
      destruct (negb (len deps' =? 0)); [|now apply IH].
      rewrite Hdry in Hfail. simpl in Hfail. now apply IH.
    + destruct (exec (installCommand options workspaceMap w deps)) eqn:He;
        simpl in *.
      * destruct (IH cmd Hfail) as (Hexec & before & Hlog & Hall).
        split; [exact Hexec|].
        exists (installCommand options workspaceMap w deps :: before).
        split; [now rewrite Hlog|].
        intros c [<-|Hin]; [exact He | now apply Hall].
      * injection Hfail as <-. split; [exact He|]. exists []. split; [reflexivity|].
        intros c [].
Qed.

(** * The focus stays on a rendered row *)

Section FocusVisible.
Variable Value : Type.
Local Abbreviation Item := (Item Value).

Lemma visiblePath_single (choices : list Item) (i : Z) (y : Item) :
  index choices i = Some y -> visiblePath choices [i] = true.
Proof. intros Hi. cbn [visiblePath]. rewrite Hi. now destruct y. Qed.

Lemma visiblePath_pair (choices : list Item) (a b : Z) (g : GroupHead)
  (inner : list Item) (y : Item) :
  index choices a = Some (IGroup g inner) ->
  truthy (expanded g) = true ->
  index inner b = Some y ->
  visiblePath choices [a; b] = true.
Proof.
  intros Ha Hexp Hb. cbn [visiblePath]. rewrite Ha, Hexp, Hb. now destruct y.
Qed.

Lemma visiblePath_cons (choices : list Item) (i j : Z) (rest : list Z)
  (g : GroupHead) (inner : list Item) :
  index choices i = Some (IGroup g inner) ->
  visiblePath choices (i :: j :: rest)
  = truthy (expanded g) && visiblePath inner (j :: rest).
Proof. intros Hi. cbn [visiblePath]. now rewrite Hi. Qed.

Lemma visible_from_node (rest : list Z) :
  forall (choices : list Item) (i : Z) (y : Item),
    index choices i = Some y ->
    visibleBelow y rest = true ->
    visiblePath choices (i :: rest) = true.
Proof.
  induction rest as [|j rest IH]; intros choices i y Hi Hbelow;
    [now apply visiblePath_single with y|].
  cbn [visibleBelow] in Hbelow. destruct y as [s|c|g inner]; try discriminate.
  apply andb_true_iff in Hbelow as [Hexp Hbelow].
  destruct (index inner j) as [z|] eqn:Hj; [|discriminate].
  rewrite (visiblePath_cons choices i j rest Hi), Hexp. cbn [andb].
  now apply IH with z.
Qed.

Lemma calcPrior_visibleBelow (item : Item) :
  expandedNonEmpty item = true ->
  exists prior, calcPrior (Some item) = Ok prior /\ visibleBelow item prior = true.
Proof.
  induction item as [s|c|g inner IH] using Item_tree_ind; intros Hne.
  - simp calcPrior. now exists [].
  - simp calcPrior. now exists [].
  - simp calcPrior. simpl in Hne. apply andb_true_iff in Hne as [Hg Hall].
    destruct (truthy (expanded g)) eqn:He; simpl; [|now exists []].
    simpl in Hg. apply negb_true_iff, Z.eqb_neq in Hg.
    assert (Hr : 0 <= len inner - 1 < len inner) by (unfold len in *; lia).
    destruct (index_exists inner Hr) as (x & Hx). rewrite Hx.
    rewrite Forall_forall in IH.
    destruct (IH x (index_In _ _ Hx) (expandedNonEmpty_index _ _ Hall Hx))
      as (prior & Hp & Hv).
    rewrite Hp. simpl. exists ((len inner - 1) :: prior). split; [reflexivity|].
    cbn [visibleBelow]. now rewrite He, Hx.
Qed.

Lemma upCore_visible (active : list Z) :
  forall choices : list Item,
    visiblePath choices active = true ->
    forallb (@expandedNonEmpty Value) choices = true ->
    exists p,
      upCore choices active = Ok p
      /\ match p with
         | [] => active = [0]
         | _ :: _ => visiblePath choices p = true
         end.
Proof.
  induction active as [|i rest IH]; intros choices Hvis Hall; [discriminate|].
  cbn [visiblePath] in Hvis.
  destruct (index choices i) as [x|] eqn:Hi; [|discriminate].
  pose proof (index_in_range _ _ Hi) as Hri.
  destruct rest as [|j rest].
  - unfold upCore. cbn [List.last dropLast removelast app hd tl].
    destruct (Z.eqb_spec i 0) as [->|Hne]; [now exists []|].
    destruct (@index_exists _ choices (i - 1)) as (y & Hy); [lia|].
    cbn [follow]. rewrite Hy. cbn [rbind].
    destruct (calcPrior_visibleBelow y (expandedNonEmpty_index _ _ Hall Hy))
      as (prior & Hp & Hv).
    rewrite Hp. cbn [rbind app]. exists ((i - 1) :: prior).
    split; [reflexivity|]. now apply visible_from_node with y.
  - destruct x as [s|c|g inner]; try discriminate.
    apply andb_true_iff in Hvis as [Hexp Hvis].
    pose proof (expandedNonEmpty_index _ _ Hall Hi) as Hx. simpl in Hx.
    apply andb_true_iff in Hx as [_ Hinner].
    destruct (IH inner Hvis Hinner) as (p & Hup & Hp).
    rewrite (@upCore_cons Value choices i (j :: rest) g inner Hi) by discriminate.
    rewrite Hup. cbn [rbind]. exists (i :: p). split; [reflexivity|].
    destruct p as [|h t]; [now apply visiblePath_single with (IGroup g inner)|].
    now rewrite (visiblePath_cons choices i h t Hi), Hexp, Hp.
Qed.
End FocusVisible.

(** X19: in a tree whose expanded groups all have a child, Up from a
    focus on a rendered row never throws and leaves the focus on a
    rendered row: the last selectable root item when it wraps, the
    parent group, or the last rendered row of the item before. *)
Theorem up_keeps_focus_visible
  (Value : Type) (bounds : Bounds) (items : list (Item Value)) (active : list Z) :
  computeBounds items = Ok bounds ->
  forallb (@expandedNonEmpty Value) items = true ->
  visiblePath items active = true ->
  exists p, up bounds items active = Ok p /\ visiblePath items p = true.
Proof.
  intros Hb Hall Hvis. rewrite up_unfold.
  destruct ((len active =? 1) && (hd 0 active =? 0)) eqn:Hwrap.
  - exists [last bounds]. split; [reflexivity|].
    destruct (existsb (@isSelectable Value) items) eqn:He.
    + destruct (computeBounds_some _ He) as (Hb' & _ & ((x & Hx & _) & _)).
      rewrite Hb in Hb'. injection Hb' as ->. cbn [last].
      now apply visiblePath_single with x.
    + rewrite (computeBounds_none _ He) in Hb. discriminate.
  - destruct (upCore_visible active items Hvis Hall) as (p & Hup & Hp).
    exists p. split; [exact Hup|].
    destruct p as [|h t]; [|exact Hp]. subst active. discriminate.
Qed.

Lemma up_keeps_focus_visible_witness :
  let tree := [group (Some true) [choice 1 None DisabledUnset;
                                  choice 2 None DisabledUnset];
               choice 3 None DisabledUnset] in
  up (mkBounds 0 1) tree [1] = Ok [0; 1] /\ visiblePath tree [0; 1] = true.
Proof.
  cbv zeta.
  destruct (@up_keeps_focus_visible nat (mkBounds 0 1)
    [group (Some true) [choice 1 None DisabledUnset;
                        choice 2 None DisabledUnset];
     choice 3 None DisabledUnset] [1] eq_refl eq_refl eq_refl)
    as (p & Hup & Hv).
  assert (p = [0; 1]) by (vm_compute in Hup; congruence). subst p.
  split; [exact Hup | exact Hv].
Defined.

(** X20: in a tree whose groups hold no groups, Down from a focus on a
    rendered row never throws, and the focus it leaves is on a rendered
    row again unless it is the one index past the end of the root
    list. *)
Theorem down_keeps_focus_visible
  (Value : Type) (items : list (Item Value)) (active : list Z) :
  forallb (@oneLevel Value) items = true ->
  visiblePath items active = true ->
  exists p,
    down items active = Ok p
    /\ (visiblePath items p = true \/ p = [len items]).
Proof.
  intros Hone Hvis. destruct active as [|a rest]; [discriminate|].
  cbn [visiblePath] in Hvis.
  destruct (index items a) as [x|] eqn:Ha; [|discriminate].
  pose proof (index_in_range _ _ Ha) as Hr.
  assert (Hnext : visiblePath items [a + 1] = true \/ [a + 1] = [len items]).
  { destruct (Z_lt_ge_dec (a + 1) (len items)) as [Hlt|Hge].
    - left. destruct (@index_exists _ items (a + 1)) as (y & Hy); [lia|].
      now apply visiblePath_single with y.
    - right. f_equal. lia. }
  destruct rest as [|b rest].
  - rewrite (down_at_root items a Ha).
    destruct (descendsInto x) eqn:Hd; [|eauto].
    exists [a; 0]. split; [reflexivity|]. left.
    destruct x as [s|c|g inner]; try discriminate. simpl in Hd.
    apply andb_true_iff in Hd as [Hexp Hlen].
    apply negb_true_iff, Z.eqb_neq in Hlen. pose proof (len_nonneg inner).
    destruct (@index_exists _ inner 0) as (y & Hy); [lia|].
    now apply visiblePath_pair with g inner y.
  - destruct x as [s|c|g inner]; try discriminate.
    apply andb_true_iff in Hvis as [Hexp Hvis]. cbn [visiblePath] in Hvis.
    destruct (index inner b) as [y|] eqn:Hb; [|discriminate].
    pose proof (index_in_range _ _ Hb) as Hrb.
    assert (Hleaf : isGroup y = false).
    { assert (Hx : oneLevel (IGroup g inner) = true).
      { rewrite forallb_forall in Hone. apply Hone. now apply index_In in Ha. }
      cbn [oneLevel] in Hx. rewrite forallb_forall in Hx.
      specialize (Hx _ (index_In _ _ Hb)). now apply negb_true_iff in Hx. }
    destruct rest as [|c rest].
    2: { destruct y; discriminate. }
    rewrite down_unfold, !hierarchyFrom_step, Ha. simpl childrenOf.
    rewrite hierarchyFrom_step, Hb. cbn [hierarchyFrom app rbind].
    rewrite downFrom_pair.
    replace (descendsInto y) with false by (destruct y; [| |discriminate]; reflexivity).
    destruct (Z.ltb_spec (b + 1) (len inner)) as [Hlt|Hge]; [|eauto].
    exists [a; b + 1]. split; [reflexivity|]. left.
    destruct (@index_exists _ inner (b + 1)) as (z & Hz); [lia|].
    now apply visiblePath_pair with g inner z.
Qed.

Lemma down_keeps_focus_visible_witness :
  let tree := [group (Some true) [choice 1 None DisabledUnset;
                                  choice 2 None DisabledUnset];
               choice 3 None DisabledUnset] in
  down tree [0; 1] = Ok [1] /\ visiblePath tree [1] = true.
Proof.
  cbv zeta.
  destruct (@down_keeps_focus_visible nat
    [group (Some true) [choice 1 None DisabledUnset;
                        choice 2 None DisabledUnset];
     choice 3 None DisabledUnset] [0; 1] eq_refl eq_refl)
    as (p & Hd & Hv).
  assert (p = [1]) by (vm_compute in Hd; congruence). subst p.
  split; [exact Hd|]. reflexivity.
Defined.

(** With a group inside a group the statement for Down does not hold:
    past the last child of the inner group, Down pops one level only and
    adds one to an index that has no sibling left. *)
Example down_pops_one_level_only :
  let tree := [group (Some true) [group (Some true) [choice 1 None DisabledUnset]];
               choice 2 None DisabledUnset] in
  visiblePath tree [0; 0; 0] = true
  /\ down tree [0; 0; 0] = Ok [0; 1]
  /\ nodeAt tree [0; 1] = None.
Proof. vm_compute. auto. Qed.
